(** * Secure-UI: tier policy engine, base widget lifecycle and secure-select

    A shallow embedding of the security core every Secure-UI widget inherits
    (tier registry, policy resolver, rate limiter, sanitizer, validator,
    audit log, connect/disconnect lifecycle) and of the option handling of
    [secure-select.ts].

    The first part of the file holds the embedding, one module per
    component; the second part holds the lemmas and theorems.

    Conventions.  JavaScript strings are embedded as [string]; the characters
    the code inspects are all ASCII.  [Date.now()] is an integer number of
    milliseconds, embedded as [Z].  A JavaScript [Set<string>] is a
    [gset string], an object used as a table is a [gmap string _]. *)

From Stdlib Require Import ZArith Ascii String Sorting.Sorted.
From stdpp Require Import gmap strings list pretty.

Local Open Scope string_scope.
Local Open Scope list_scope.

(** ** JavaScript values reaching the string-typed entry points

    TypeScript types are erased at run time, so the tests feed [null],
    [undefined] and numbers to parameters declared [string]. *)

Inductive JsValue : Type :=
| JsUndefined
| JsNull
| JsNumber (n : Z)
| JsString (s : string).

(** The double quote and the apostrophe, written by code point. *)
Definition dquote : ascii := ascii_of_nat 34.
Definition squote : ascii := ascii_of_nat 39.

(** Outcome of a method body that may be left by a [TypeError] (a
    dereference of an absent element through the [!] assertion).  The state
    carried by [Thrown] holds the writes performed before the throw. *)
Inductive Completion (A : Type) : Type :=
| Returned (a : A)
| Thrown (a : A).
Arguments Returned {A} a.
Arguments Thrown {A} a.

Definition stateOf {A} (c : Completion A) : A :=
  match c with Returned a => a | Thrown a => a end.

Definition andThen {A} (c : Completion A) (k : A -> Completion A) : Completion A :=
  match c with
  | Returned a => k a
  | Thrown a => Thrown a
  end.

(* ===================================================================== *)
(** * Part I: the embedding *)
(* ===================================================================== *)

(** ** Security tier registry and policy resolver *)

Module SecurityConfig.

Inductive SecurityTier : Type := PUBLIC | AUTHENTICATED | SENSITIVE | CRITICAL.

#[global] Instance SecurityTier_eq_dec : EqDecision SecurityTier.
Proof. solve_decision. Defined.

(** [SecurityTier.PUBLIC === 'public'] and so on (security-config tests). *)
Definition tierString (t : SecurityTier) : string :=
  match t with
  | PUBLIC => "public"
  | AUTHENTICATED => "authenticated"
  | SENSITIVE => "sensitive"
  | CRITICAL => "critical"
  end.

Record StoragePolicy : Type := {
  allowAutocomplete : bool;
  allowCache : bool;
  allowHistory : bool
}.

(** Modelled from the spec: [src/core/security-config.ts] is not among the
    sources.  The record keeps the attributes of a TierPolicy that the spec
    and the security-config tests fix for all four tiers: [name], [level]
    and the [storage] group.  The rate-limit and validation groups are
    carried by the components that consume them. *)
Record TierPolicy : Type := {
  name : string;
  level : Z;
  storage : StoragePolicy
}.

Definition publicPolicy : TierPolicy :=
  {| name := "Public"; level := 1;
     storage := {| allowAutocomplete := true; allowCache := true; allowHistory := true |} |}.
Definition authenticatedPolicy : TierPolicy :=
  {| name := "Authenticated"; level := 2;
     storage := {| allowAutocomplete := true; allowCache := false; allowHistory := false |} |}.
Definition sensitivePolicy : TierPolicy :=
  {| name := "Sensitive"; level := 3;
     storage := {| allowAutocomplete := false; allowCache := false; allowHistory := false |} |}.
Definition criticalPolicy : TierPolicy :=
  {| name := "Critical"; level := 4;
     storage := {| allowAutocomplete := false; allowCache := false; allowHistory := false |} |}.

(** Modelled from the spec: the static table of the four tiers, keyed by the
    tier string. *)
Definition TIER_CONFIG : gmap string TierPolicy :=
  <["public" := publicPolicy]>
    (<["authenticated" := authenticatedPolicy]>
      (<["sensitive" := sensitivePolicy]>
        (<["critical" := criticalPolicy]> ∅))).

Definition policyOf (t : SecurityTier) : TierPolicy :=
  match t with
  | PUBLIC => publicPolicy
  | AUTHENTICATED => authenticatedPolicy
  | SENSITIVE => sensitivePolicy
  | CRITICAL => criticalPolicy
  end.

(** Modelled from the spec: [isValidTier(s)] is true only for the four exact
    lowercase tier strings. *)
Definition isValidTier (tier : JsValue) : bool :=
  match tier with
  | JsString s =>
      bool_decide (s = "public") || bool_decide (s = "authenticated")
      || bool_decide (s = "sensitive") || bool_decide (s = "critical")
  | _ => false
  end.

(** Modelled from the spec: [getTierConfig] ([resolve] in the spec) is
    missing from the sources.  It maps its argument to the matching entry of
    the table and to the CRITICAL policy for anything else. *)
Definition getTierConfig (tier : JsValue) : TierPolicy :=
  match tier with
  | JsString s => default criticalPolicy (TIER_CONFIG !! s)
  | _ => criticalPolicy
  end.

(** Modelled from the spec: the tier a widget adopts for an attribute value
    read with [getAttribute] ([None] when the attribute is absent). *)
Definition parseTier (attr : option string) : SecurityTier :=
  match attr with
  | Some s =>
      if bool_decide (s = "public") then PUBLIC
      else if bool_decide (s = "authenticated") then AUTHENTICATED
      else if bool_decide (s = "sensitive") then SENSITIVE
      else CRITICAL
  | None => CRITICAL
  end.

End SecurityConfig.

(** ** Rate limiter *)

Module RateLimiter.

Local Open Scope Z_scope.

Record RateLimitPolicy : Type := {
  enabled : bool;
  maxAttempts : Z;
  windowMs : Z
}.

Record RateLimitState : Type := {
  count : Z;
  windowStart : Z
}.

Record RateLimitResult : Type := {
  allowed : bool;
  retryAfter : Z
}.

(** The quotas the security-config tests fix: CRITICAL allows 5 attempts per
    60 s, SENSITIVE 10; PUBLIC has rate limiting disabled. *)
Definition criticalRateLimit : RateLimitPolicy :=
  {| enabled := true; maxAttempts := 5; windowMs := 60000 |}.
Definition sensitiveRateLimit : RateLimitPolicy :=
  {| enabled := true; maxAttempts := 10; windowMs := 60000 |}.

(** The answer of a call that is let through. *)
Definition allowedResult : RateLimitResult := {| allowed := true; retryAfter := 0 |}.

(** Fields zero-initialised at construction. *)
Definition initialState : RateLimitState := {| count := 0; windowStart := 0 |}.

(** Modelled from the spec: [checkRateLimit] of [src/core/base-component.ts],
    which is missing from the sources.  Fixed window counter: reset when
    [now - windowStart > windowMs], increment, then decide. *)
Definition checkRateLimit (p : RateLimitPolicy) (now : Z) (st : RateLimitState)
  : RateLimitResult * RateLimitState :=
  let st1 :=
    if windowMs p <? now - windowStart st
    then {| count := 0; windowStart := now |}
    else st in
  let st2 := {| count := count st1 + 1; windowStart := windowStart st1 |} in
  if negb (enabled p) then ({| allowed := true; retryAfter := 0 |}, st2)
  else if count st2 <=? maxAttempts p then ({| allowed := true; retryAfter := 0 |}, st2)
  else ({| allowed := false; retryAfter := windowMs p - (now - windowStart st2) |}, st2).

(** A run of calls at the given clock readings; results in call order. *)
Fixpoint checkRateLimitAll (p : RateLimitPolicy) (nows : list Z) (st : RateLimitState)
  : list RateLimitResult * RateLimitState :=
  match nows with
  | [] => ([], st)
  | now :: rest =>
      let '(r, st') := checkRateLimit p now st in
      let '(rs, st'') := checkRateLimitAll p rest st' in
      (r :: rs, st'')
  end.

(** Every reading falls in the window that is open in [st]: no call of the
    run triggers a reset. *)
Definition withinWindow (p : RateLimitPolicy) (st : RateLimitState) (nows : list Z) : Prop :=
  Forall (fun now => now - windowStart st <= windowMs p) nows.

End RateLimiter.

(** ** Sanitizer *)

Module Sanitizer.

(** Modelled from the spec: the entity written for one character.  The spec
    names the five characters; [&amp;] and [&lt;] are the spellings the tests
    look for, the other three are the usual ones. *)
Definition encodeChar (c : ascii) : string :=
  if bool_decide (c = "&"%char) then "&amp;"
  else if bool_decide (c = "<"%char) then "&lt;"
  else if bool_decide (c = ">"%char) then "&gt;"
  else if bool_decide (c = dquote) then "&quot;"
  else if bool_decide (c = squote) then "&#39;"
  else String c EmptyString.

Fixpoint encodeHtml (s : string) : string :=
  match s with
  | EmptyString => EmptyString
  | String c rest => encodeChar c +:+ encodeHtml rest
  end.

(** Modelled from the spec: [sanitizeValue] of [src/core/base-component.ts],
    which is missing from the sources.  Non-string input gives the empty
    string; a string is entity-encoded in full. *)
Definition sanitizeValue (raw : JsValue) : string :=
  match raw with
  | JsString s => encodeHtml s
  | _ => EmptyString
  end.

(** One of the five characters the encoder rewrites. *)
Definition isSpecial (c : ascii) : bool :=
  bool_decide (c = "&"%char) || bool_decide (c = "<"%char) || bool_decide (c = ">"%char)
  || bool_decide (c = dquote) || bool_decide (c = squote).

(** Markup characters: the special ones other than the ampersand, which
    the entities themselves contain. *)
Definition isMarkup (c : ascii) : bool :=
  bool_decide (c = "<"%char) || bool_decide (c = ">"%char)
  || bool_decide (c = dquote) || bool_decide (c = squote).

Fixpoint chars (s : string) : list ascii :=
  match s with
  | EmptyString => []
  | String c rest => c :: chars rest
  end.


End Sanitizer.

(** ** Validator *)

Module Validator.

(** The [validation] group of a tier policy. *)
Record ValidationPolicy : Type := {
  required : bool;
  strict : bool;
  maxLength : nat
}.

(** The optional constraints object [{required?, minLength?, maxLength?,
    pattern?}]; a regular expression is represented by its [test] function. *)
Record Constraints : Type := {
  required_opt : option bool;
  minLength_opt : option nat;
  maxLength_opt : option nat;
  pattern_opt : option (string -> bool)
}.

(** The call [validateInput(value)] with the default [options = {}]. *)
Definition noConstraints : Constraints :=
  {| required_opt := None; minLength_opt := None; maxLength_opt := None; pattern_opt := None |}.

(** One message per failed check.  The spec fixes which check produces a
    message and in which order, not the wording; the message is represented
    by the check that produced it and the bound it mentions. *)
Inductive ValidationError : Type :=
| RequiredError
| MinLengthError (n : nat)
| MaxLengthError (n : nat)
| PatternError.

Record ValidationResult : Type := {
  valid : bool;
  errors : list ValidationError
}.

(** [errors.push(e)] *)
Definition push {A} (xs : list A) (x : A) : list A := xs ++ [x].

(** Modelled from the spec: [validateInput] of [src/core/base-component.ts],
    which is missing from the sources.  [required] and [maxLength] come from
    the tier policy when the caller omits them; the four checks run one after
    the other, each pushing its message. *)
Definition validateInput (policy : ValidationPolicy) (value : string) (options : Constraints)
  : ValidationResult :=
  let isRequired := default (required policy) (required_opt options) in
  let maxLen := default (maxLength policy) (maxLength_opt options) in
  let errors0 : list ValidationError := [] in
  let errors1 :=
    if isRequired && Nat.eqb (String.length value) 0
    then push errors0 RequiredError else errors0 in
  let errors2 :=
    match minLength_opt options with
    | Some n => if Nat.ltb (String.length value) n then push errors1 (MinLengthError n) else errors1
    | None => errors1
    end in
  let errors3 :=
    if Nat.ltb maxLen (String.length value)
    then push errors2 (MaxLengthError maxLen) else errors2 in
  let errors4 :=
    match pattern_opt options with
    | Some test => if negb (test value) then push errors3 PatternError else errors3
    | None => errors3
    end in
  {| valid := Nat.eqb (length errors4) 0; errors := errors4 |}.

(** The four checks, each on its own, as the spec words them. *)
Definition failsRequired (policy : ValidationPolicy) (value : string) (options : Constraints) : bool :=
  default (required policy) (required_opt options) && Nat.eqb (String.length value) 0.

Definition failsMinLength (value : string) (options : Constraints) : option nat :=
  match minLength_opt options with
  | Some n => if Nat.ltb (String.length value) n then Some n else None
  | None => None
  end.

Definition failsMaxLength (policy : ValidationPolicy) (value : string) (options : Constraints) : option nat :=
  let maxLen := default (maxLength policy) (maxLength_opt options) in
  if Nat.ltb maxLen (String.length value) then Some maxLen else None.

Definition failsPattern (value : string) (options : Constraints) : bool :=
  match pattern_opt options with
  | Some test => negb (test value)
  | None => false
  end.

(** The error list as the spec describes it: one message per failing
    check, in the order required, minLength, maxLength, pattern. *)
Definition collectedErrors (policy : ValidationPolicy) (value : string) (options : Constraints)
  : list ValidationError :=
  (if failsRequired policy value options then [RequiredError] else [])
  ++ match failsMinLength value options with Some n => [MinLengthError n] | None => [] end
  ++ match failsMaxLength policy value options with Some n => [MaxLengthError n] | None => [] end
  ++ (if failsPattern value options then [PatternError] else []).

(** Position of a message in the fixed order of the checks. *)
Definition rank (e : ValidationError) : nat :=
  match e with
  | RequiredError => 0
  | MinLengthError _ => 1
  | MaxLengthError _ => 2
  | PatternError => 3
  end.

End Validator.

(** ** Audit log *)

Module AuditLog.

Import SecurityConfig.

(** An audit entry is a plain object, given by its own properties: a
    [gmap string JsValue]. *)

(** JavaScript objects and arrays have identity: the store maps the
    reference of an entry object to its current properties and the reference
    of an array to the references it holds.  [dispatched] records the detail
    of every [secure-audit] event as it was when dispatched. *)
Record Runtime : Type := {
  objects : gmap nat (gmap string JsValue);
  arrays : gmap nat (list nat);
  nextRef : nat;
  dispatched : list (gmap string JsValue)
}.

(** The part of a widget instance the audit methods use: the resolved tier
    and the reference held in the private audit-log field. *)
Record Component : Type := {
  securityTier : SecurityTier;
  auditLog : nat
}.




(** Construction allocates the instance's empty log. *)
Definition construct (t : SecurityTier) (rt : Runtime) : Component * Runtime :=
  ({| securityTier := t; auditLog := nextRef rt |},
   {| objects := objects rt;
      arrays := <[nextRef rt := []]> (arrays rt);
      nextRef := S (nextRef rt);
      dispatched := dispatched rt |}).


(** Modelled from the spec: the entry
    [{event, timestamp: now as ISO-8601, tier: this.securityTier, ...data}]
    of [audit].  The spread comes last, so a property of [data] named
    [event], [timestamp] or [tier] takes the place of the value written
    before it. *)
Definition newEntry (toISOString : Z -> string) (c : Component) (now : Z)
    (evt : string) (data : gmap string JsValue) : gmap string JsValue :=
  data ∪ {[ "event" := JsString evt;
            "timestamp" := JsString (toISOString now);
            "tier" := JsString (tierString (securityTier c)) ]}.

(** Modelled from the spec: [audit(event, data)] of
    [src/core/base-component.ts], which is missing from the sources.  It
    pushes one new entry object on the instance's log and dispatches the
    [secure-audit] event with the same payload.  [toISOString] is the
    platform's [Date.prototype.toISOString] applied to the clock reading. *)
Definition audit (toISOString : Z -> string) (c : Component) (now : Z)
    (evt : string) (data : gmap string JsValue) (rt : Runtime) : Runtime :=
  let entry := newEntry toISOString c now evt data in
  {| objects := <[nextRef rt := entry]> (objects rt);
     arrays := alter (fun log => log ++ [nextRef rt]) (auditLog c) (arrays rt);
     nextRef := S (nextRef rt);
     dispatched := dispatched rt ++ [entry] |}.


(** Modelled from the spec: [clearAuditLog()] empties the log in place. *)
Definition clearAuditLog (c : Component) (rt : Runtime) : Runtime :=
  {| objects := objects rt;
     arrays := alter (fun _ => []) (auditLog c) (arrays rt);
     nextRef := nextRef rt;
     dispatched := dispatched rt |}.




(** Some familiar mutations. *)
Definition jsPush (o : nat) (l : list nat) : list nat := l ++ [o].



End AuditLog.

(** ** Base widget lifecycle *)

Module Lifecycle.

Import SecurityConfig.

Inductive ConsoleMessage : Type :=
| TierChangeRejected (attempted : option string).

Record Widget : Type := {
  attributes : gmap string string;
  observedAttributes : list string;
  securityTier : SecurityTier;
  initialized : bool;
  connected : bool;
  rateLimitState : RateLimiter.RateLimitState;
  renderCount : nat;
  forwarded : list (string * option string * option string);
  warnings : list ConsoleMessage
}.

Definition baseObservedAttributes : list string :=
  ["security-tier"; "disabled"; "readonly"].

(** Constructed: nothing rendered, fields zero-initialised, fail-secure
    tier until the attribute is read at first connection. *)
Definition construct (extraObserved : list string) : Widget :=
  {| attributes := ∅;
     observedAttributes := baseObservedAttributes ++ extraObserved;
     securityTier := CRITICAL;
     initialized := false;
     connected := false;
     rateLimitState := RateLimiter.initialState;
     renderCount := 0;
     forwarded := [];
     warnings := [] |}.

Definition withAttributes (a : gmap string string) (w : Widget) : Widget :=
  {| attributes := a;
     observedAttributes := observedAttributes w;
     securityTier := securityTier w;
     initialized := initialized w;
     connected := connected w;
     rateLimitState := rateLimitState w;
     renderCount := renderCount w;
     forwarded := forwarded w;
     warnings := warnings w |}.

Definition withRateLimitState (st : RateLimiter.RateLimitState) (w : Widget) : Widget :=
  {| attributes := attributes w;
     observedAttributes := observedAttributes w;
     securityTier := securityTier w;
     initialized := initialized w;
     connected := connected w;
     rateLimitState := st;
     renderCount := renderCount w;
     forwarded := forwarded w;
     warnings := warnings w |}.

(** Modelled from the spec: [connectedCallback] of
    [src/core/base-component.ts], which is missing from the sources.  On the
    first connection the tier is resolved from the attribute, the subclass
    [render] runs and the guard is set; later connections skip all of it. *)
Definition connectedCallback (w : Widget) : Widget :=
  if initialized w then
    {| attributes := attributes w;
       observedAttributes := observedAttributes w;
       securityTier := securityTier w;
       initialized := true;
       connected := true;
       rateLimitState := rateLimitState w;
       renderCount := renderCount w;
       forwarded := forwarded w;
       warnings := warnings w |}
  else
    {| attributes := attributes w;
       observedAttributes := observedAttributes w;
       securityTier := parseTier (attributes w !! "security-tier");
       initialized := true;
       connected := true;
       rateLimitState := rateLimitState w;
       renderCount := S (renderCount w);
       forwarded := forwarded w;
       warnings := warnings w |}.

(** Modelled from the spec: [disconnectedCallback] clears the rate-limiter
    window state and keeps the [initialized] guard. *)
Definition disconnectedCallback (w : Widget) : Widget :=
  {| attributes := attributes w;
     observedAttributes := observedAttributes w;
     securityTier := securityTier w;
     initialized := initialized w;
     connected := false;
     rateLimitState := RateLimiter.initialState;
     renderCount := renderCount w;
     forwarded := forwarded w;
     warnings := warnings w |}.

(** Modelled from the spec: [rerender()] forces the subclass [render] to run
    again. *)
Definition rerender (w : Widget) : Widget :=
  {| attributes := attributes w;
     observedAttributes := observedAttributes w;
     securityTier := securityTier w;
     initialized := initialized w;
     connected := connected w;
     rateLimitState := rateLimitState w;
     renderCount := S (renderCount w);
     forwarded := forwarded w;
     warnings := warnings w |}.

(** Writing an attribute slot back: [None] stands for an absent attribute. *)
Definition restoreAttribute (name : string) (old : option string)
    (a : gmap string string) : gmap string string :=
  match old with
  | Some v => <[name := v]> a
  | None => delete name a
  end.

Definition addWarning (m : ConsoleMessage) (w : Widget) : Widget :=
  {| attributes := attributes w;
     observedAttributes := observedAttributes w;
     securityTier := securityTier w;
     initialized := initialized w;
     connected := connected w;
     rateLimitState := rateLimitState w;
     renderCount := renderCount w;
     forwarded := forwarded w;
     warnings := warnings w ++ [m] |}.

Definition forward (name : string) (old new : option string) (w : Widget) : Widget :=
  {| attributes := attributes w;
     observedAttributes := observedAttributes w;
     securityTier := securityTier w;
     initialized := initialized w;
     connected := connected w;
     rateLimitState := rateLimitState w;
     renderCount := renderCount w;
     forwarded := forwarded w ++ [(name, old, new)];
     warnings := warnings w |}.

(** Modelled from the spec: [attributeChangedCallback] of the base
    controller, which is missing from the sources.  Before initialisation
    nothing is done.  Afterwards a tier attribute whose new value differs
    from the instance's tier is rejected: a warning is logged and the
    attribute is set back to the value it had before the change; any other
    attribute is forwarded to the subclass handler.  The attribute is set
    back through the element's own attribute interface (the test file says
    the callback calls [setAttribute] to revert), and the platform delivers
    that write to the callback like every write of an observed attribute:
    the callback is entered again, with the old and the new value in each
    other's place.  [depth] is the number of nested invocations the engine's
    stack has room for; when it is used up the engine throws a [RangeError],
    which leaves every invocation under way.  The spec does not fix the order
    of the warning and the write; the warning is taken first. *)
Fixpoint attributeChangedCallback (depth : nat) (name : string) (old new : option string)
    (w : Widget) : Completion Widget :=
  match depth with
  | 0 => Thrown w
  | S depth' =>
      if negb (initialized w) then Returned w
      else if bool_decide (name = "security-tier") then
        if bool_decide (new = Some (tierString (securityTier w))) then Returned w
        else
          let warned := addWarning (TierChangeRejected new) w in
          let reverted :=
            withAttributes (restoreAttribute name old (attributes warned)) warned in
          if bool_decide (name ∈ observedAttributes reverted)
          then attributeChangedCallback depth' name new old reverted
          else Returned reverted
      else Returned (forward name old new w)
  end.

(** The host's [setAttribute]: the store is written, then the callback is
    delivered when the attribute is observed. *)
Definition setAttribute (depth : nat) (name value : string) (w : Widget)
  : Completion Widget :=
  let old := attributes w !! name in
  let w' := withAttributes (<[name := value]> (attributes w)) w in
  if bool_decide (name ∈ observedAttributes w)
  then attributeChangedCallback depth name old (Some value) w'
  else Returned w'.

(** The host's [removeAttribute]: nothing happens for an absent attribute;
    otherwise the store is written and the callback delivered as above. *)
Definition removeAttribute (depth : nat) (name : string) (w : Widget)
  : Completion Widget :=
  match attributes w !! name with
  | None => Returned w
  | Some v =>
      let w' := withAttributes (delete name (attributes w)) w in
      if bool_decide (name ∈ observedAttributes w)
      then attributeChangedCallback depth name (Some v) None w'
      else Returned w'
  end.

(** The inherited [checkRateLimit], on the instance's own counter. *)
Definition checkRateLimit (p : RateLimiter.RateLimitPolicy) (now : Z) (w : Widget)
  : RateLimiter.RateLimitResult * Widget :=
  let '(r, st) := RateLimiter.checkRateLimit p now (rateLimitState w) in
  (r, withRateLimitState st w).

(** What may happen to a connected widget between two lifecycle callbacks:
    rate-limit checks and attribute writes.  An exception leaving an
    attribute write is reported by the platform; the widget stays as the
    write left it. *)
Inductive Activity : Type :=
| ActCheckRateLimit (now : Z)
| ActSetAttribute (name value : string)
| ActRemoveAttribute (name : string).

Definition perform (p : RateLimiter.RateLimitPolicy) (depth : nat) (w : Widget)
    (a : Activity) : Widget :=
  match a with
  | ActCheckRateLimit now => snd (checkRateLimit p now w)
  | ActSetAttribute n v => stateOf (setAttribute depth n v w)
  | ActRemoveAttribute n => stateOf (removeAttribute depth n w)
  end.

Definition performAll (p : RateLimiter.RateLimitPolicy) (depth : nat)
    (acts : list Activity) (w : Widget) : Widget :=
  foldl (perform p depth) w acts.


End Lifecycle.

(** ** secure-select *)

Module Select.

(** Values put in the data object of an audit call or in an event detail. *)
Inductive AuditDatum : Type :=
| DString (s : string)
| DStrings (l : list string)
| DBool (b : bool).

(** What [SecureSelect] inherits from [SecureBaseComponent], whose source
    file is not among the sources, and the two platform functions its code
    calls.  [Base] is
    the state owned by the base class; the private fields of [SecureSelect]
    are out of its reach.  [checkRateLimit] takes the clock reading.
    [parseSize] is [parseInt(_, 10)] followed by the reflection of the [size]
    property; [trim] is [String.prototype.trim]. *)
Class Inherited (Base : Type) : Type := {
  sanitizeValue : string -> string;
  audit : string -> list (string * AuditDatum) -> Base -> Base;
  checkRateLimit : Z -> Base -> RateLimiter.RateLimitResult * Base;
  securityTier : Base -> string;
  configValidationRequired : Base -> bool;
  configAllowAutocomplete : Base -> bool;
  superDisconnectedCallback : Base -> Base;
  parseSize : string -> nat;
  trim : string -> string
}.

(** *** The DOM objects the component drives *)

Record OptionEl : Type := {
  value : string;
  textContent : string;
  selected : bool;
  disabled : bool
}.

Record SelectEl : Type := {
  name : string;
  required : bool;
  multiple : bool;
  size : option nat;
  selectDisabled : bool;
  autocompleteOff : bool;
  options : list OptionEl;
  errorClass : bool;
  ariaInvalid : bool
}.

Record ErrorContainer : Type := {
  message : string;
  hidden : bool
}.

(** An [<option>] child written by the page author in the light DOM. *)
Record LightOption : Type := {
  valueAttr : option string;
  lightText : string;
  hasSelected : bool;
  hasDisabled : bool
}.

Definition withSelected (b : bool) (o : OptionEl) : OptionEl :=
  {| value := value o; textContent := textContent o; selected := b; disabled := disabled o |}.

Definition withOptions (os : list OptionEl) (sel : SelectEl) : SelectEl :=
  {| name := name sel; required := required sel; multiple := multiple sel;
     size := size sel; selectDisabled := selectDisabled sel;
     autocompleteOff := autocompleteOff sel; options := os;
     errorClass := errorClass sel; ariaInvalid := ariaInvalid sel |}.

Definition withInvalidMark (b : bool) (sel : SelectEl) : SelectEl :=
  {| name := name sel; required := required sel; multiple := multiple sel;
     size := size sel; selectDisabled := selectDisabled sel;
     autocompleteOff := autocompleteOff sel; options := options sel;
     errorClass := b; ariaInvalid := b |}.

Definition withSelectDisabled (b : bool) (sel : SelectEl) : SelectEl :=
  {| name := name sel; required := required sel; multiple := multiple sel;
     size := size sel; selectDisabled := b;
     autocompleteOff := autocompleteOff sel; options := options sel;
     errorClass := errorClass sel; ariaInvalid := ariaInvalid sel |}.

(** The HTML standard's display size of a select element. *)
Definition displaySize (sel : SelectEl) : nat :=
  match size sel with
  | Some n => n
  | None => if multiple sel then 4 else 1
  end.

Fixpoint selectFirstEnabled (os : list OptionEl) : list OptionEl :=
  match os with
  | [] => []
  | o :: rest =>
      if disabled o then o :: selectFirstEnabled rest
      else withSelected true o :: rest
  end.

Fixpoint keepLastSelected (os : list OptionEl) : list OptionEl :=
  match os with
  | [] => []
  | o :: rest =>
      (if selected o && existsb selected rest then withSelected false o else o)
        :: keepLastSelected rest
  end.

(** The HTML standard's selectedness setting algorithm, run when options
    are inserted into or removed from a select element. *)
Definition selectednessSetting (sel : SelectEl) : SelectEl :=
  if negb (multiple sel) && Nat.eqb (displaySize sel) 1
     && negb (existsb selected (options sel))
  then withOptions (selectFirstEnabled (options sel)) sel
  else if negb (multiple sel) && Nat.leb 2 (length (filter (fun o => selected o = true) (options sel)))
  then withOptions (keepLastSelected (options sel)) sel
  else sel.

(** [select.appendChild(option)] *)
Definition appendChild (o : OptionEl) (sel : SelectEl) : SelectEl :=
  let others :=
    if negb (multiple sel) && selected o
    then map (withSelected false) (options sel)
    else options sel in
  selectednessSetting (withOptions (others ++ [o]) sel).

Fixpoint removeFirstWithValue (v : string) (os : list OptionEl) : option (list OptionEl) :=
  match os with
  | [] => None
  | o :: rest =>
      if bool_decide (value o = v) then Some rest
      else match removeFirstWithValue v rest with
           | Some rest' => Some (o :: rest')
           | None => None
           end
  end.

(** [select.value], on getting: the value of the first selected option,
    the empty string when there is none. *)
Definition selectValue (sel : SelectEl) : string :=
  match List.find selected (options sel) with
  | Some o => value o
  | None => EmptyString
  end.

Fixpoint selectFirstWithValue (v : string) (os : list OptionEl) : list OptionEl :=
  match os with
  | [] => []
  | o :: rest =>
      if bool_decide (value o = v) then withSelected true o :: rest
      else o :: selectFirstWithValue v rest
  end.

(** [select.value = v]: every option is deselected, then the first option
    whose value is [v], if any, is selected. *)
Definition setSelectValue (v : string) (sel : SelectEl) : SelectEl :=
  withOptions (selectFirstWithValue v (map (withSelected false) (options sel))) sel.

(** [option.selected = b] on the option at index [i]: in a single select
    an option that becomes selected deselects the others; the element then
    asks for a reset. *)
Definition setOptionSelected (i : nat) (b : bool) (sel : SelectEl) : SelectEl :=
  let os :=
    if negb (multiple sel) && b
    then imap (fun j o => withSelected (Nat.eqb j i) o) (options sel)
    else alter (withSelected b) i (options sel) in
  selectednessSetting (withOptions os sel).

(** [Array.from(select.selectedOptions).map(opt => opt.value)] *)
Definition selectedValues (sel : SelectEl) : list string :=
  map value (filter (fun o => selected o = true) (options sel)).

(** The user picking the option at index [i] in the control. *)
Definition pickOption (i : nat) (sel : SelectEl) : SelectEl :=
  if multiple sel
  then withOptions (alter (fun o => withSelected (negb (selected o)) o) i (options sel)) sel
  else withOptions (imap (fun j o => withSelected (Nat.eqb j i) o) (options sel)) sel.

(** *** JavaScript idioms *)

(** [x || ''] on a string or [null]. *)
Definition orEmpty (x : option string) : string := default EmptyString x.

Definition nonEmpty (s : string) : bool :=
  match s with EmptyString => false | String _ _ => true end.

(** Truthiness of a string or [null]. *)
Definition truthy (x : option string) : bool :=
  match x with Some s => nonEmpty s | None => false end.

Fixpoint splitOn (sep : ascii) (s : string) : list string :=
  match s with
  | EmptyString => [EmptyString]
  | String c rest =>
      if bool_decide (c = sep) then EmptyString :: splitOn sep rest
      else match splitOn sep rest with
           | h :: t => String c h :: t
           | [] => [String c EmptyString]
           end
  end.

(** *** The component *)

Record SelectEvent : Type := {
  detailName : string;
  detailValue : AuditDatum;
  detailTier : string
}.

Record SecureSelect (Base : Type) : Type := {
  base : Base;
  attributes : gmap string string;
  lightOptions : list LightOption;
  selectElement : option SelectEl;
  errorContainer : option ErrorContainer;
  validOptions : gset string;
  optionsTransferred : bool;
  isMultiple : bool;
  pendingMicrotasks : nat;
  dispatchedEvents : list SelectEvent
}.
Arguments base {Base} _.
Arguments attributes {Base} _.
Arguments lightOptions {Base} _.
Arguments selectElement {Base} _.
Arguments errorContainer {Base} _.
Arguments validOptions {Base} _.
Arguments optionsTransferred {Base} _.
Arguments isMultiple {Base} _.
Arguments pendingMicrotasks {Base} _.
Arguments dispatchedEvents {Base} _.

Section Component.

Context {Base : Type} `{Inherited Base}.

Local Abbreviation State := (SecureSelect Base).

Definition construct (b : Base) (attrs : gmap string string) (light : list LightOption) : State :=
  {| base := b; attributes := attrs; lightOptions := light;
     selectElement := None; errorContainer := None; validOptions := ∅;
     optionsTransferred := false; isMultiple := false;
     pendingMicrotasks := 0; dispatchedEvents := [] |}.

Definition setBase (b : Base) (s : State) : State :=
  {| base := b; attributes := attributes s; lightOptions := lightOptions s;
     selectElement := selectElement s; errorContainer := errorContainer s;
     validOptions := validOptions s; optionsTransferred := optionsTransferred s;
     isMultiple := isMultiple s; pendingMicrotasks := pendingMicrotasks s;
     dispatchedEvents := dispatchedEvents s |}.

Definition setAttributes (a : gmap string string) (s : State) : State :=
  {| base := base s; attributes := a; lightOptions := lightOptions s;
     selectElement := selectElement s; errorContainer := errorContainer s;
     validOptions := validOptions s; optionsTransferred := optionsTransferred s;
     isMultiple := isMultiple s; pendingMicrotasks := pendingMicrotasks s;
     dispatchedEvents := dispatchedEvents s |}.

Definition setSelectElement (e : option SelectEl) (s : State) : State :=
  {| base := base s; attributes := attributes s; lightOptions := lightOptions s;
     selectElement := e; errorContainer := errorContainer s;
     validOptions := validOptions s; optionsTransferred := optionsTransferred s;
     isMultiple := isMultiple s; pendingMicrotasks := pendingMicrotasks s;
     dispatchedEvents := dispatchedEvents s |}.

Definition setErrorContainer (e : option ErrorContainer) (s : State) : State :=
  {| base := base s; attributes := attributes s; lightOptions := lightOptions s;
     selectElement := selectElement s; errorContainer := e;
     validOptions := validOptions s; optionsTransferred := optionsTransferred s;
     isMultiple := isMultiple s; pendingMicrotasks := pendingMicrotasks s;
     dispatchedEvents := dispatchedEvents s |}.

Definition setValidOptions (v : gset string) (s : State) : State :=
  {| base := base s; attributes := attributes s; lightOptions := lightOptions s;
     selectElement := selectElement s; errorContainer := errorContainer s;
     validOptions := v; optionsTransferred := optionsTransferred s;
     isMultiple := isMultiple s; pendingMicrotasks := pendingMicrotasks s;
     dispatchedEvents := dispatchedEvents s |}.

Definition setOptionsTransferred (b : bool) (s : State) : State :=
  {| base := base s; attributes := attributes s; lightOptions := lightOptions s;
     selectElement := selectElement s; errorContainer := errorContainer s;
     validOptions := validOptions s; optionsTransferred := b;
     isMultiple := isMultiple s; pendingMicrotasks := pendingMicrotasks s;
     dispatchedEvents := dispatchedEvents s |}.

Definition setIsMultiple (b : bool) (s : State) : State :=
  {| base := base s; attributes := attributes s; lightOptions := lightOptions s;
     selectElement := selectElement s; errorContainer := errorContainer s;
     validOptions := validOptions s; optionsTransferred := optionsTransferred s;
     isMultiple := b; pendingMicrotasks := pendingMicrotasks s;
     dispatchedEvents := dispatchedEvents s |}.

Definition setPendingMicrotasks (n : nat) (s : State) : State :=
  {| base := base s; attributes := attributes s; lightOptions := lightOptions s;
     selectElement := selectElement s; errorContainer := errorContainer s;
     validOptions := validOptions s; optionsTransferred := optionsTransferred s;
     isMultiple := isMultiple s; pendingMicrotasks := n;
     dispatchedEvents := dispatchedEvents s |}.

Definition pushEvent (e : SelectEvent) (s : State) : State :=
  {| base := base s; attributes := attributes s; lightOptions := lightOptions s;
     selectElement := selectElement s; errorContainer := errorContainer s;
     validOptions := validOptions s; optionsTransferred := optionsTransferred s;
     isMultiple := isMultiple s; pendingMicrotasks := pendingMicrotasks s;
     dispatchedEvents := dispatchedEvents s ++ [e] |}.

Definition hasAttribute (n : string) (s : State) : bool :=
  bool_decide (is_Some (attributes s !! n)).

Definition getAttribute (n : string) (s : State) : option string :=
  attributes s !! n.

(** A select element as [document.createElement('select')] returns it. *)
Definition newSelect : SelectEl :=
  {| name := EmptyString; required := false; multiple := false; size := None;
     selectDisabled := false; autocompleteOff := false; options := [];
     errorClass := false; ariaInvalid := false |}.

(** [#applySelectAttributes] (secure-select.ts:211-246), on the select
    element being built. *)
Definition applySelectAttributes (s : State) (sel : SelectEl) : SelectEl :=
  {| name :=
       if truthy (getAttribute "name" s)
       then sanitizeValue (orEmpty (getAttribute "name" s)) else name sel;
     required :=
       if hasAttribute "required" s || configValidationRequired (base s)
       then true else required sel;
     multiple := if hasAttribute "multiple" s then true else multiple sel;
     size :=
       if truthy (getAttribute "size" s)
       then Some (parseSize (orEmpty (getAttribute "size" s))) else size sel;
     selectDisabled := if hasAttribute "disabled" s then true else selectDisabled sel;
     autocompleteOff :=
       if negb (configAllowAutocomplete (base s)) then true else autocompleteOff sel;
     options := options sel;
     errorClass := errorClass sel;
     ariaInvalid := ariaInvalid sel |}.

(** [render] (secure-select.ts:127-201): the fields it assigns and the
    microtask it queues.  The label, badge and style nodes it also builds
    carry no state of the component and are left out. *)
Definition render (s : State) : State :=
  let s1 := setIsMultiple (hasAttribute "multiple" s) s in
  let s2 := setSelectElement (Some (applySelectAttributes s1 newSelect)) s1 in
  let s3 := setPendingMicrotasks (S (pendingMicrotasks s2)) s2 in
  setErrorContainer (Some {| message := EmptyString; hidden := true |}) s3.

(** One iteration of the [forEach] of [#transferOptions]
    (secure-select.ts:270-291). *)
Definition transferOption (acc : SelectEl * gset string * list string) (o : LightOption)
  : SelectEl * gset string * list string :=
  let '(sel, valid, chosen) := acc in
  let v := sanitizeValue (orEmpty (valueAttr o)) in
  let newOption :=
    {| value := v; textContent := sanitizeValue (lightText o);
       selected := hasSelected o; disabled := hasDisabled o |} in
  (appendChild newOption sel, valid ∪ {[v]},
   if hasSelected o then chosen ++ [v] else chosen).

(** [#transferOptions] (secure-select.ts:255-303). *)
Definition transferOptions (s : State) : Completion State :=
  if optionsTransferred s then Returned s
  else
    let s1 := setOptionsTransferred true s in
    match lightOptions s1 with
    | [] => Returned s1
    | first :: _ =>
        match selectElement s1 with
        | None =>
            Thrown (setValidOptions
                      (validOptions s1 ∪ {[sanitizeValue (orEmpty (valueAttr first))]}) s1)
        | Some sel =>
            let '(sel1, valid1, chosen) :=
              foldl transferOption (sel, validOptions s1, []) (lightOptions s1) in
            let sel2 :=
              if isMultiple s1 then sel1
              else if truthy (getAttribute "value" s1)
              then setSelectValue (orEmpty (getAttribute "value" s1)) sel1
              else match chosen with
                   | v :: _ => setSelectValue v sel1
                   | [] => sel1
                   end in
            Returned (setSelectElement (Some sel2) (setValidOptions valid1 s1))
        end
    end.

(** [#showError] (secure-select.ts:472-480). *)
Definition showError (msg : string) (s : State) : Completion State :=
  match errorContainer s with
  | None => Thrown s
  | Some _ =>
      let s1 := setErrorContainer (Some {| message := msg; hidden := false |}) s in
      match selectElement s1 with
      | None => Thrown s1
      | Some sel => Returned (setSelectElement (Some (withInvalidMark true sel)) s1)
      end
  end.

(** [#clearErrors] (secure-select.ts:487-497); the text is erased later,
    by the [transitionend] listener. *)
Definition clearErrors (s : State) : Completion State :=
  match errorContainer s with
  | None => Thrown s
  | Some ec =>
      let s1 := setErrorContainer (Some {| message := message ec; hidden := true |}) s in
      match selectElement s1 with
      | None => Thrown s1
      | Some sel => Returned (setSelectElement (Some (withInvalidMark false sel)) s1)
      end
  end.

Definition auditCall (evt : string) (data : list (string * AuditDatum)) (s : State) : State :=
  setBase (audit evt data (base s)) s.

Definition selectName (s : State) : string :=
  match selectElement s with Some sel => name sel | None => EmptyString end.

(** [#handleChange] (secure-select.ts:343-416). *)
Definition handleChange (s : State) : Completion State :=
  match selectElement s with
  | None => Thrown s
  | Some sel =>
      if isMultiple s then
        let chosen := selectedValues sel in
        let invalidValues :=
          filter (fun v => nonEmpty v && negb (bool_decide (v ∈ validOptions s)) = true) chosen in
        if Nat.ltb 0 (length invalidValues) then
          andThen (showError "Invalid option selected" s) (fun s1 =>
            Returned (auditCall "invalid_option_detected"
                        [("name", DString (selectName s1));
                         ("attemptedValues", DStrings invalidValues)] s1))
        else
          andThen (clearErrors s) (fun s1 =>
            let s2 := auditCall "select_changed"
                        [("name", DString (selectName s1)); ("values", DStrings chosen)] s1 in
            Returned (pushEvent {| detailName := selectName s2;
                                   detailValue := DStrings chosen;
                                   detailTier := securityTier (base s2) |} s2))
      else
        let selectedValue := selectValue sel in
        if nonEmpty selectedValue && negb (bool_decide (selectedValue ∈ validOptions s)) then
          andThen (showError "Invalid option selected" s) (fun s1 =>
            let s2 := auditCall "invalid_option_detected"
                        [("name", DString (selectName s1));
                         ("attemptedValue", DString selectedValue)] s1 in
            match selectElement s2 with
            | None => Thrown s2
            | Some sel2 => Returned (setSelectElement (Some (setSelectValue EmptyString sel2)) s2)
            end)
        else
          andThen (clearErrors s) (fun s1 =>
            let s2 := auditCall "select_changed"
                        [("name", DString (selectName s1)); ("value", DString selectedValue)] s1 in
            Returned (pushEvent {| detailName := selectName s2;
                                   detailValue := DString selectedValue;
                                   detailTier := securityTier (base s2) |} s2))
  end.

(** [handleAttributeChange] (secure-select.ts:602-615). *)
Definition handleAttributeChange (n : string) (old new : option string) (s : State) : State :=
  match selectElement s with
  | None => s
  | Some sel =>
      if bool_decide (n = "disabled") then
        setSelectElement (Some (withSelectDisabled (hasAttribute "disabled" s) sel)) s
      else if bool_decide (n = "value") then
        if bool_decide (new = Some (selectValue sel)) then s
        else setSelectElement (Some (setSelectValue (orEmpty new) sel)) s
      else s
  end.

(** [get value] (secure-select.ts:622-634). *)
Definition getValue (s : State) : string :=
  match selectElement s with
  | None => EmptyString
  | Some sel =>
      if isMultiple s
      then String.concat ", " (filter (fun v => nonEmpty v = true) (selectedValues sel))
      else selectValue sel
  end.

(** [Math.ceil(ms / 1000)] on an integer number of milliseconds. *)
Definition ceilSeconds (ms : Z) : Z := (- ((- ms) / 1000))%Z.

(** [#validateAndShowErrors] (secure-select.ts:423-465). *)
Definition validateAndShowErrors (now : Z) (s : State) : Completion State :=
  let '(rateLimitCheck, b) := checkRateLimit now (base s) in
  let s0 := setBase b s in
  if negb (RateLimiter.allowed rateLimitCheck) then
    showError ("Too many attempts. Please wait "
               +:+ pretty (ceilSeconds (RateLimiter.retryAfter rateLimitCheck))
               +:+ " seconds.") s0
  else
    let isRequired := hasAttribute "required" s0 || configValidationRequired (base s0) in
    match selectElement s0 with
    | None => Thrown s0
    | Some sel =>
        if isMultiple s0 then
          let chosen := filter (fun v => nonEmpty v = true) (selectedValues sel) in
          if isRequired && Nat.eqb (length chosen) 0
          then showError "Please select at least one option" s0
          else
            let invalidValues :=
              filter (fun v => negb (bool_decide (v ∈ validOptions s0)) = true) chosen in
            if Nat.ltb 0 (length invalidValues)
            then showError "Invalid option selected" s0
            else Returned s0
        else
          if isRequired && negb (nonEmpty (selectValue sel))
          then showError "Please select an option" s0
          else
            if nonEmpty (selectValue sel)
               && negb (bool_decide (selectValue sel ∈ validOptions s0))
            then showError "Invalid option selected" s0
            else Returned s0
    end.

(** The [focus] listener (secure-select.ts:312-316). *)
Definition handleFocus (s : State) : Completion State :=
  match selectElement s with
  | None => Thrown s
  | Some sel => Returned (auditCall "select_focused" [("name", DString (name sel))] s)
  end.

(** The [blur] listener (secure-select.ts:324-332). *)
Definition handleBlur (now : Z) (s : State) : Completion State :=
  andThen (validateAndShowErrors now s) (fun s1 =>
    match selectElement s1 with
    | None => Thrown s1
    | Some sel =>
        Returned (auditCall "select_blurred"
                    [("name", DString (name sel));
                     ("hasValue",
                      DBool (if isMultiple s1
                             then Nat.ltb 0 (length (selectedValues sel))
                             else Nat.ltb 0 (String.length (selectValue sel))))] s1)
    end).

(** The index of the first option whose value is [v]. *)
Definition findOptionIndex (v : string) (sel : SelectEl) : option nat :=
  fst <$> list_find (fun o => value o = v) (options sel).

(** [set value] (secure-select.ts:641-661). *)
Definition setValue (v : string) (s : State) : State :=
  match selectElement s with
  | None => s
  | Some sel =>
      if isMultiple s then
        let values := filter (fun x => nonEmpty x = true) (map trim (splitOn ","%char v)) in
        let cleared :=
          foldl (fun acc i => setOptionSelected i false acc) sel (seq 0 (length (options sel))) in
        let chosen :=
          foldl (fun acc x =>
                   if bool_decide (x ∈ validOptions s) then
                     match findOptionIndex x acc with
                     | Some i => setOptionSelected i true acc
                     | None => acc
                     end
                   else acc) cleared values in
        setSelectElement (Some chosen) s
      else
        if bool_decide (v ∈ validOptions s)
        then setSelectElement (Some (setSelectValue v sel)) s
        else s
  end.

(** [addOption] (secure-select.ts:743-753). *)
Definition addOption (v text : string) (sel0 : bool) (s : State) : State :=
  match selectElement s with
  | None => s
  | Some sel =>
      let option :=
        {| value := sanitizeValue v; textContent := sanitizeValue text;
           selected := sel0; disabled := false |} in
      let s1 := setValidOptions (validOptions s ∪ {[value option]}) s in
      setSelectElement (Some (appendChild option sel)) s1
  end.

(** [removeOption] (secure-select.ts:760-770). *)
Definition removeOption (v : string) (s : State) : State :=
  match selectElement s with
  | None => s
  | Some sel =>
      match removeFirstWithValue v (options sel) with
      | Some rest =>
          let s1 := setSelectElement (Some (selectednessSetting (withOptions rest sel))) s in
          setValidOptions (validOptions s1 ∖ {[v]}) s1
      | None => s
      end
  end.

(** [clearOptions] (secure-select.ts:777-782). *)
Definition clearOptions (s : State) : State :=
  match selectElement s with
  | None => s
  | Some sel =>
      setValidOptions ∅ (setSelectElement (Some (withOptions [] sel)) s)
  end.

(** [disconnectedCallback] (secure-select.ts:793-795): the base teardown
    and nothing else. *)
Definition disconnectedCallback (s : State) : State :=
  setBase (superDisconnectedCallback (base s)) s.

(** Reconnection of an initialised instance: the base controller skips
    [render], so no field of [SecureSelect] is written. *)
Definition reconnect (superConnectedCallback : Base -> Base) (s : State) : State :=
  setBase (superConnectedCallback (base s)) s.

(** *** What can happen to an instance *)

Inductive Action : Type :=
| ActRender
| ActMicrotask
| ActAddOption (v text : string) (sel : bool)
| ActRemoveOption (v : string)
| ActClearOptions
| ActSetValue (v : string)
| ActUserPick (i : nat)
| ActChangeEvent
| ActSetAttribute (n v : string)
| ActRemoveAttribute (n : string)
| ActFocus
| ActBlur (now : Z)
| ActDisconnect
| ActInherited (f : Base -> Base).

Definition userPick (i : nat) (s : State) : State :=
  match selectElement s with
  | None => s
  | Some sel =>
      match options sel !! i with
      | Some o =>
          if selectDisabled sel || disabled o then s
          else stateOf (handleChange (setSelectElement (Some (pickOption i sel)) s))
      | None => s
      end
  end.

Definition runMicrotask (s : State) : State :=
  match pendingMicrotasks s with
  | 0 => s
  | S n => stateOf (transferOptions (setPendingMicrotasks n s))
  end.

(** An exception leaving a listener or a microtask is reported by the
    platform; the writes made before it stay.  [ActInherited] stands for any
    inherited method that works on the base state alone (a reconnection of
    the initialised instance, [clearAuditLog], ...). *)
Definition step (a : Action) (s : State) : State :=
  match a with
  | ActRender => render s
  | ActMicrotask => runMicrotask s
  | ActAddOption v t b => addOption v t b s
  | ActRemoveOption v => removeOption v s
  | ActClearOptions => clearOptions s
  | ActSetValue v => setValue v s
  | ActUserPick i => userPick i s
  | ActChangeEvent => stateOf (handleChange s)
  | ActSetAttribute n v =>
      let old := getAttribute n s in
      handleAttributeChange n old (Some v) (setAttributes (<[n := v]> (attributes s)) s)
  | ActRemoveAttribute n =>
      let old := getAttribute n s in
      handleAttributeChange n old None (setAttributes (delete n (attributes s)) s)
  | ActFocus => stateOf (handleFocus s)
  | ActBlur now => stateOf (handleBlur now s)
  | ActDisconnect => disconnectedCallback s
  | ActInherited f => setBase (f (base s)) s
  end.

Definition run (acts : list Action) (s : State) : State :=
  foldl (fun acc a => step a acc) s acts.

Inductive reachable : State -> Prop :=
| reach_construct b attrs light : reachable (construct b attrs light)
| reach_step a s : reachable s -> reachable (step a s).

(** The value shown by the underlying select element ([None] before the
    first render). *)
Definition currentValue (s : State) : option string :=
  selectValue <$> selectElement s.

(** The property of the select's value that the option validation aims at. *)
Definition valueRegistered (s : State) : Prop :=
  match currentValue s with
  | Some v => v = EmptyString ∨ v ∈ validOptions s
  | None => True
  end.

(** [get valid] (secure-select.ts:687-714); [None] stands for the
    [TypeError] of the dereference of an absent select element. *)
Definition getValid (s : State) : option bool :=
  let isRequired := hasAttribute "required" s || configValidationRequired (base s) in
  match selectElement s with
  | None => None
  | Some sel =>
      if isMultiple s then
        let chosen := filter (fun v => nonEmpty v = true) (selectedValues sel) in
        if isRequired && Nat.eqb (length chosen) 0 then Some false
        else Some (forallb (fun v => bool_decide (v ∈ validOptions s)) chosen)
      else
        if isRequired && negb (nonEmpty (selectValue sel)) then Some false
        else if nonEmpty (selectValue sel)
                && negb (bool_decide (selectValue sel ∈ validOptions s))
        then Some false
        else Some true
  end.

(** [get name] (secure-select.ts:668-670). *)
Definition getName (s : State) : string :=
  match selectElement s with Some sel => name sel | None => EmptyString end.

(** [get selectedOptions] (secure-select.ts:677-680). *)
Definition getSelectedOptions (s : State) : list string :=
  match selectElement s with Some sel => selectedValues sel | None => [] end.

(** The value under which [#transferOptions] registers a light-DOM option. *)
Definition registeredValue (o : LightOption) : string :=
  sanitizeValue (orEmpty (valueAttr o)).

(** The option element [#transferOptions] builds for a light-DOM option. *)
Definition transferredOption (o : LightOption) : OptionEl :=
  {| value := registeredValue o; textContent := sanitizeValue (lightText o);
     selected := hasSelected o; disabled := hasDisabled o |}.

(** The values of a select element's options, in tree order. *)
Definition optionValues (sel : SelectEl) : list string := map value (options sel).

(** The options of a select element with their selectedness put aside. *)
Definition unselected (os : list OptionEl) : list OptionEl := map (withSelected false) os.

(** The values the multi-select setter is asked for:
    [value.split(',').map(v => v.trim()).filter(v => v !== '')]. *)
Definition requestedValues (v : string) : list string :=
  filter (fun x => nonEmpty x = true) (map trim (splitOn ","%char v)).

(** The three messages [#validateAndShowErrors] shows for a selection. *)
Definition selectionMessages : list string :=
  ["Please select at least one option"; "Please select an option"; "Invalid option selected"].

(** The message shown when the rate limiter refuses. *)
Definition tooManyAttempts (retryAfter : Z) : string :=
  "Too many attempts. Please wait " +:+ pretty (ceilSeconds retryAfter) +:+ " seconds.".

(** Every option of the select element carries an output of
    [sanitizeValue]. *)
Definition optionsSanitized (s : State) : Prop :=
  ∀ sel x, selectElement s = Some sel → x ∈ optionValues sel →
           ∃ raw, x = sanitizeValue raw.

(** The select element of [s'], if any, has the options of the select
    element of [s], up to their selectedness. *)
Definition keepsOptions (s s' : State) : Prop :=
  ∀ sel', selectElement s' = Some sel' →
          ∃ sel, selectElement s = Some sel ∧
                 unselected (options sel') = unselected (options sel).

(** Whether the option at index [i] is selected. *)
Definition selectedAt (sel : SelectEl) (i : nat) : bool :=
  match options sel !! i with Some o => selected o | None => false end.

(** Every registered value is an output of [sanitizeValue]. *)
Definition allSanitized (s : State) : Prop :=
  ∀ x, x ∈ validOptions s → ∃ raw, x = sanitizeValue raw.

(** [render] assigns the select element and the error container together. *)
Definition renderedTogether (s : State) : Prop :=
  is_Some (selectElement s) → is_Some (errorContainer s).

End Component.

(** The base state of the instance used for running the component on
    examples: the audit calls made so far and the rate-limiter counter. *)
Record SpecBase : Type := {
  auditCalls : list (string * list (string * AuditDatum));
  rateLimitState : RateLimiter.RateLimitState
}.

Definition newSpecBase : SpecBase :=
  {| auditCalls := []; rateLimitState := RateLimiter.initialState |}.

(** An instance for running the component on examples: a CRITICAL-tier
    base as the spec describes it, with the entity encoder of the sanitizer
    for [sanitizeValue].  The examples use neither a [size] attribute nor a
    multiple select, so [parseSize] and [trim] are never called. *)
Definition specBase : Inherited SpecBase :=
  {| sanitizeValue := fun s => Sanitizer.sanitizeValue (JsString s);
     audit := fun evt data b =>
       {| auditCalls := auditCalls b ++ [(evt, data)];
          rateLimitState := rateLimitState b |};
     checkRateLimit := fun now b =>
       let '(r, st) :=
         RateLimiter.checkRateLimit RateLimiter.criticalRateLimit now (rateLimitState b) in
       (r, {| auditCalls := auditCalls b; rateLimitState := st |});
     securityTier := fun _ => "critical";
     configValidationRequired := fun _ => true;
     configAllowAutocomplete := fun _ => false;
     superDisconnectedCallback := fun b =>
       {| auditCalls := auditCalls b; rateLimitState := RateLimiter.initialState |};
     parseSize := fun _ => 1;
     trim := fun s => s |}.

Definition SpecState : Type := SecureSelect SpecBase.

(** The country select of the component's usage note, with the second
    option preselected. *)
Definition countryOptions : list LightOption :=
  [ {| valueAttr := Some EmptyString; lightText := "Select a country";
       hasSelected := false; hasDisabled := false |};
    {| valueAttr := Some "us"; lightText := "United States";
       hasSelected := false; hasDisabled := false |};
    {| valueAttr := Some "uk"; lightText := "United Kingdom";
       hasSelected := true; hasDisabled := false |} ].

Definition countrySelect : SpecState :=
  @run _ specBase [ActRender; ActMicrotask]
    (@construct _ newSpecBase {[ "name" := "country" ]} countryOptions).

Definition countrySelectElement : SelectEl :=
  Eval vm_compute in default newSelect (selectElement countrySelect).

(** An instance with no light-DOM options to which the page adds the value
    [a] twice and then removes it once. *)
Definition duplicateThenRemove : SpecState :=
  @run _ specBase
    [ActRender; ActMicrotask; ActAddOption "a" "A" true; ActAddOption "a" "B" true;
     ActRemoveOption "a"]
    (@construct _ newSpecBase ∅ []).

End Select.

(** ** JavaScript string and value operations the other components use *)

Module Js.

(** [s.startsWith(p)] *)
Fixpoint startsWith (s p : string) {struct p} : bool :=
  match p with
  | EmptyString => true
  | String c p' =>
      match s with
      | EmptyString => false
      | String d s' => bool_decide (c = d) && startsWith s' p'
      end
  end.

(** [s.includes(sub)] *)
Fixpoint includes (s sub : string) : bool :=
  startsWith s sub
  || match s with
     | EmptyString => false
     | String _ rest => includes rest sub
     end.

Fixpoint takeString (n : nat) (s : string) : string :=
  match n, s with
  | S k, String c rest => String c (takeString k rest)
  | _, _ => EmptyString
  end.

Fixpoint dropString (n : nat) (s : string) : string :=
  match n, s with
  | S k, String _ rest => dropString k rest
  | _, _ => s
  end.

(** [s.endsWith(suf)] *)
Definition endsWith (s suf : string) : bool :=
  Nat.leb (String.length suf) (String.length s)
  && bool_decide (dropString (String.length s - String.length suf) s = suf).

(** [s.slice(0, -k)] *)
Definition dropLast (k : nat) (s : string) : string :=
  takeString (String.length s - k) s.

(** [s.slice(-k)] *)
Definition lastChars (k : nat) (s : string) : string :=
  dropString (String.length s - k) s.

(** [s.repeat(n)] *)
Fixpoint repeatString (s : string) (n : nat) : string :=
  match n with
  | 0 => EmptyString
  | S k => s +:+ repeatString s k
  end.

(** [s.replace(/c/g, r)] for a one-character pattern. *)
Fixpoint replaceAll (c : ascii) (r : string) (s : string) : string :=
  match s with
  | EmptyString => EmptyString
  | String d rest =>
      (if bool_decide (d = c) then r else String d EmptyString) +:+ replaceAll c r rest
  end.

(** Truthiness of a value. *)
Definition truthyValue (v : JsValue) : bool :=
  match v with
  | JsUndefined | JsNull => false
  | JsNumber n => negb (Z.eqb n 0)
  | JsString s => match s with EmptyString => false | String _ _ => true end
  end.

(** [String(v)]; the numbers of [JsValue] are integers, printed in decimal
    (as JavaScript does below 10^21). *)
Definition toJsString (v : JsValue) : string :=
  match v with
  | JsUndefined => "undefined"
  | JsNull => "null"
  | JsNumber n => pretty n
  | JsString s => s
  end.

(** [arr.slice(start, end)] with JavaScript's treatment of negative and
    out-of-range indices. *)
Definition relativeIndex (len i : Z) : Z :=
  if Z.ltb i 0 then Z.max (len + i) 0 else Z.min i len.

Definition jsSlice {A} (l : list A) (first last : Z) : list A :=
  let len := Z.of_nat (length l) in
  let k := relativeIndex len first in
  let final := relativeIndex len last in
  take (Z.to_nat (final - k)) (drop (Z.to_nat k) l).

(** The names of the properties every plain object inherits from
    [Object.prototype].  A lookup under one of them on an object without an
    own property of that name finds the inherited member, a function (for
    [__proto__] the prototype object itself), which is truthy. *)
Definition objectPrototypeNames : list string :=
  [ "constructor"; "__proto__"; "hasOwnProperty"; "isPrototypeOf";
    "propertyIsEnumerable"; "toLocaleString"; "toString"; "valueOf";
    "__defineGetter__"; "__defineSetter__"; "__lookupGetter__"; "__lookupSetter__" ].

(** The platform functions whose full definition is the language's
    business: [String.prototype.toLowerCase], [String.prototype.trim],
    [parseInt(_, 10)] ([None] for [NaN]), and the text [String()] gives for
    the member of [Object.prototype] of a given name. *)
Class Platform : Type := {
  toLowerCase : string -> string;
  trim : string -> string;
  parseInt : string -> option Z;
  prototypeMemberText : string -> string
}.

(** An ASCII-only instance, for running the components on examples. *)
Definition asciiLower (c : ascii) : ascii :=
  let n := nat_of_ascii c in
  if Nat.leb 65 n && Nat.leb n 90 then ascii_of_nat (n + 32) else c.

Fixpoint mapString (f : ascii -> ascii) (s : string) : string :=
  match s with
  | EmptyString => EmptyString
  | String c rest => String (f c) (mapString f rest)
  end.

Fixpoint trimStart (s : string) : string :=
  match s with
  | String c rest => if bool_decide (c = " "%char) then trimStart rest else s
  | EmptyString => EmptyString
  end.

Definition digitValue (c : ascii) : option Z :=
  let n := nat_of_ascii c in
  if Nat.leb 48 n && Nat.leb n 57 then Some (Z.of_nat (n - 48)) else None.

Fixpoint parseDigits (acc : option Z) (s : string) : option Z :=
  match s with
  | EmptyString => acc
  | String c rest =>
      match digitValue c with
      | Some d => parseDigits (Some (10 * default 0%Z acc + d)%Z) rest
      | None => acc
      end
  end.

(** The text an engine prints for a built-in member, in the one-line form. *)
Definition nativeMemberText (name : string) : string :=
  if bool_decide (name = "__proto__") then "[object Object]"
  else if bool_decide (name = "constructor") then "function Object() { [native code] }"
  else "function " +:+ name +:+ "() { [native code] }".

Definition asciiPlatform : Platform :=
  {| toLowerCase := mapString asciiLower;
     trim := fun s => String.rev (trimStart (String.rev (trimStart s)));
     parseInt := parseDigits None;
     prototypeMemberText := nativeMemberText |}.

End Js.

(** ** secure-table *)

(** The class [SecureTable], which the sources hold in
    [components/secure-datetime/secure-datetime.ts] from line 1967 on; the
    line numbers below are those of that file. *)

Module Table.

Import Js.

(** [#sanitize] (lines 2253-2261): five replacement passes, the ampersand
    first. *)
Definition sanitize (str : JsValue) : string :=
  if negb (truthyValue str) then EmptyString
  else
    replaceAll squote "&#x27;"
      (replaceAll dquote "&quot;"
        (replaceAll ">"%char "&gt;"
          (replaceAll "<"%char "&lt;"
            (replaceAll "&"%char "&amp;" (toJsString str))))).

(** The entity [#sanitize] ends up writing for one character. *)
Definition entityOf (c : ascii) : string :=
  if bool_decide (c = "&"%char) then "&amp;"
  else if bool_decide (c = "<"%char) then "&lt;"
  else if bool_decide (c = ">"%char) then "&gt;"
  else if bool_decide (c = dquote) then "&quot;"
  else if bool_decide (c = squote) then "&#x27;"
  else String c EmptyString.

Fixpoint encodeEach (s : string) : string :=
  match s with
  | EmptyString => EmptyString
  | String c rest => entityOf c +:+ encodeEach rest
  end.

(** Reader of the five entities [#sanitize] writes. *)
Fixpoint decodeEntities (s : string) : string :=
  match s with
  | EmptyString => EmptyString
  | String "&"%char (String "a"%char (String "m"%char (String "p"%char (String ";"%char rest)))) =>
      String "&" (decodeEntities rest)
  | String "&"%char (String "l"%char (String "t"%char (String ";"%char rest))) =>
      String "<" (decodeEntities rest)
  | String "&"%char (String "g"%char (String "t"%char (String ";"%char rest))) =>
      String ">" (decodeEntities rest)
  | String "&"%char (String "q"%char (String "u"%char (String "o"%char (String "t"%char (String ";"%char rest))))) =>
      String dquote (decodeEntities rest)
  | String "&"%char (String "#"%char (String "x"%char (String "2"%char (String "7"%char (String ";"%char rest))))) =>
      String squote (decodeEntities rest)
  | String c rest => String c (decodeEntities rest)
  end.

(** [#maskValue] (lines 2267-2281).  [bullet] stands for the string
    ['•']; [tier] is the column's [tier] property, [None] when it is
    undefined. *)
Definition maskValue (bullet : string) (value : JsValue) (tier : option string) : string :=
  if negb (truthyValue value) then "-"
  else
    let strValue := toJsString value in
    if bool_decide (tier = Some (SecurityConfig.tierString SecurityConfig.SENSITIVE))
       && Nat.ltb 4 (String.length strValue)
    then repeatString bullet (String.length strValue - 4) +:+ lastChars 4 strValue
    else if bool_decide (tier = Some (SecurityConfig.tierString SecurityConfig.CRITICAL))
    then repeatString bullet (String.length strValue)
    else sanitize (JsString strValue).

(** A row is a plain object with data properties, from column keys to cell
    values.  The fields of a column definition that the modelled methods
    read. *)
Record Column : Type := {
  key : string;
  filterable : option bool;
  tier : option string
}.

(** The private fields the modelled methods read or write ([pageSize] is
    never written and stays 10), and the calls of the inherited [audit] made
    by the filter: event, filter term as typed, number of rows kept. *)
Record TableState : Type := {
  data : list (gmap string JsValue);
  columns : list Column;
  filteredData : list (gmap string JsValue);
  filterTerm : string;
  currentPage : Z;
  auditCalls : list (string * string * nat)
}.

Definition pageSize : Z := 10.

(** A table as constructed: [{ currentPage: 1, pageSize: 10 }], no data. *)
Definition emptyTable : TableState :=
  {| data := []; columns := []; filteredData := []; filterTerm := EmptyString;
     currentPage := 1; auditCalls := [] |}.

(** [Math.ceil(length / pageSize)] *)
Definition totalPages (rows : nat) : Z := ((Z.of_nat rows + pageSize - 1) / pageSize)%Z.

(** The slice [pageData] that [#renderTableContent] takes of the filtered
    rows (lines 2318-2321). *)
Definition pageRows {A} (rows : list A) (page : Z) : list A :=
  let startIndex := ((page - 1) * pageSize)%Z in
  let endIndex := (startIndex + pageSize)%Z in
  jsSlice rows startIndex endIndex.

Definition pageData (t : TableState) : list (gmap string JsValue) :=
  pageRows (filteredData t) (currentPage t).

(** The rows [#renderTableContent] puts in the table body (lines 2326-2362):
    none, the empty state being shown instead, when the slice is empty or no
    column is configured; the slice otherwise. *)
Definition visibleRows (t : TableState) : list (gmap string JsValue) :=
  if Nat.eqb (length (pageData t)) 0 || Nat.eqb (length (columns t)) 0 then []
  else pageData t.

(** [set data] (lines 2139-2148), for an array argument: the page and the
    filter term stay. *)
Definition setData (d : list (gmap string JsValue)) (t : TableState) : TableState :=
  {| data := d; columns := columns t; filteredData := d; filterTerm := filterTerm t;
     currentPage := currentPage t; auditCalls := auditCalls t |}.

(** [set columns] (lines 2160-2168), for an array argument. *)
Definition setColumns (cs : list Column) (t : TableState) : TableState :=
  {| data := data t; columns := cs; filteredData := filteredData t;
     filterTerm := filterTerm t; currentPage := currentPage t;
     auditCalls := auditCalls t |}.

(** [#goToPage] (lines 2241-2247). *)
Definition goToPage (pageNumber : Z) (t : TableState) : TableState :=
  if Z.ltb pageNumber 1 || Z.ltb (totalPages (length (filteredData t))) pageNumber then t
  else
    {| data := data t; columns := columns t; filteredData := filteredData t;
       filterTerm := filterTerm t; currentPage := pageNumber;
       auditCalls := auditCalls t |}.

(** [#renderPageNumbers] (lines 2453-2474): the numbers on the buttons. *)
Definition renderPageNumbers (total current : Z) : list Z :=
  let maxButtons := 5%Z in
  let startPage := Z.max 1 (current - maxButtons / 2) in
  let endPage := Z.min total (startPage + maxButtons - 1) in
  let startPage' :=
    if Z.ltb (endPage - startPage) (maxButtons - 1)
    then Z.max 1 (endPage - maxButtons + 1) else startPage in
  seqZ startPage' (endPage - startPage' + 1).

(** The instance as far as connecting it goes: the table state; the
    [table] elements slotted in the light DOM, in tree order, each with what
    [#parseSlottedTable] makes of it ([None] when it has no header cell or
    parsing it throws); the [#usingSlottedContent] flag; the rate-limiter
    state of the base; and a record of the calls made: of the inherited
    [initializeSecurity], of [render] (line 2024), of [#render], and of
    [audit] with [table_mounted] (row count, column count and flag). *)
Record Mount : Type := {
  state : TableState;
  slottedTables : list (option (list Column * list (gmap string JsValue)));
  usingSlottedContent : bool;
  rateLimitState : RateLimiter.RateLimitState;
  securityInitialized : nat;
  renderCalls : nat;
  privateRenderCalls : nat;
  mountAudits : list (nat * nat * bool)
}.


(** [connectedCallback] (lines 2033-2065), which replaces the inherited
    one and does not call it: [initializeSecurity()] (inherited; by the
    comment of lines 2034-2036 it sets up tier, configuration and audit
    without the render lifecycle of the base), then the first slotted table,
    when it parses, gives columns and data and is taken out of the light
    DOM, then [#render()] and the [table_mounted] audit.  No guard is
    consulted and [render] is not called. *)
Definition connectedCallback (m : Mount) : Mount :=
  let '(st, slotted, fromSlot) :=
    match slottedTables m with
    | Some (cols, rows) :: rest =>
        ({| data := rows; columns := cols; filteredData := rows;
            filterTerm := filterTerm (state m);
            currentPage := currentPage (state m);
            auditCalls := auditCalls (state m) |}, rest, true)
    | _ => (state m, slottedTables m, usingSlottedContent m)
    end in
  {| state := st; slottedTables := slotted; usingSlottedContent := fromSlot;
     rateLimitState := rateLimitState m;
     securityInitialized := S (securityInitialized m);
     renderCalls := renderCalls m;
     privateRenderCalls := S (privateRenderCalls m);
     mountAudits :=
       mountAudits m ++ [(length (data st), length (columns st), fromSlot)] |}.

(** Modelled from the spec: [SecureTable] does not override
    [disconnectedCallback], so the one of the base runs, which clears the
    rate-limiter window state. *)
Definition disconnectedCallback (m : Mount) : Mount :=
  {| state := state m; slottedTables := slottedTables m;
     usingSlottedContent := usingSlottedContent m;
     rateLimitState := RateLimiter.initialState;
     securityInitialized := securityInitialized m;
     renderCalls := renderCalls m;
     privateRenderCalls := privateRenderCalls m;
     mountAudits := mountAudits m |}.

Section WithPlatform.

Context {platform : Platform}.

(** The text of a cell as the filter reads it: [String(row[key] || '')].
    Without an own property of that name the lookup goes to the prototype:
    the member found under a name of [Object.prototype] is truthy, any other
    name gives [undefined]. *)
Definition cellText (row : gmap string JsValue) (k : string) : string :=
  match row !! k with
  | Some v => if truthyValue v then toJsString v else EmptyString
  | None =>
      if bool_decide (k ∈ objectPrototypeNames) then prototypeMemberText k
      else EmptyString
  end.

Definition rowMatches (cs : list Column) (term : string) (row : gmap string JsValue) : bool :=
  existsb (fun col =>
             if bool_decide (filterable col = Some false) then false
             else includes (toLowerCase (cellText row (key col))) term) cs.

(** [#applyFilter] (lines 2181-2203). *)
Definition applyFilter (term : string) (t : TableState) : TableState :=
  let lowered := toLowerCase term in
  let kept :=
    match lowered with
    | EmptyString => data t
    | String _ _ => filter (fun row => rowMatches (columns t) lowered row = true) (data t)
    end in
  {| data := data t; columns := columns t; filteredData := kept;
     filterTerm := lowered; currentPage := 1;
     auditCalls := auditCalls t ++ [("table_filtered", term, length kept)] |}.

End WithPlatform.

End Table.

(** ** secure-file-upload *)

(** [components/secure-file-upload/secure-file-upload.ts]: what decides
    whether a selection of files is accepted. *)

Module FileUpload.

Import Js SecurityConfig.

(** What the validation reads of a [File]: name, size, MIME type as the
    platform reports it, and the bytes of the content ([None] when reading
    them fails). *)
Record File : Type := {
  fileName : string;
  fileSize : Z;
  fileType : string;
  fileBytes : option (list Z)
}.

(** The fields of the component the validation depends on: whether the
    file input exists ([#fileInput], created by [render]), [#allowedTypes],
    [#maxSize] ([None] for [NaN]), the [multiple] flag of the file input, and
    the tier of the instance. *)
Record Settings : Type := {
  rendered : bool;
  allowedTypes : gset string;
  maxSize : option Z;
  multiple : bool;
  securityTier : SecurityTier
}.

(** The field initialisers (lines 98-104). *)
Definition construct (t : SecurityTier) : Settings :=
  {| rendered := false; allowedTypes := ∅; maxSize := Some (5 * 1024 * 1024)%Z;
     multiple := false; securityTier := t |}.

Definition setAllowedTypes (types : gset string) (cfg : Settings) : Settings :=
  {| rendered := rendered cfg; allowedTypes := types; maxSize := maxSize cfg;
     multiple := multiple cfg; securityTier := securityTier cfg |}.

(** One message of [#validateFiles]; the text of the size message depends
    on number formatting, so a message is represented by its kind and the
    file it names. *)
Inductive FileError : Type :=
| OnlyOneFile
| SizeExceeded (name : string)
| TypeNotAllowed (name : string)
| InvalidName (name : string)
| ContentError (name : string) (reason : string).

(** The table of [#extensionToMimeType] (lines 335-352). *)
Definition mimeTypes : gmap string string :=
  list_to_map
    [ (".pdf", "application/pdf");
      (".doc", "application/msword");
      (".docx", "application/vnd.openxmlformats-officedocument.wordprocessingml.document");
      (".xls", "application/vnd.ms-excel");
      (".xlsx", "application/vnd.openxmlformats-officedocument.spreadsheetml.sheet");
      (".ppt", "application/vnd.ms-powerpoint");
      (".pptx", "application/vnd.openxmlformats-officedocument.presentationml.presentation");
      (".txt", "text/plain");
      (".csv", "text/csv");
      (".jpg", "image/jpeg");
      (".jpeg", "image/jpeg");
      (".png", "image/png");
      (".gif", "image/gif");
      (".svg", "image/svg+xml");
      (".zip", "application/zip");
      (".json", "application/json") ].

(** [#getDefaultAcceptTypes] (lines 362-378). *)
Definition getDefaultAcceptTypes (t : SecurityTier) : string :=
  match t with
  | CRITICAL => ".pdf,.txt"
  | SENSITIVE => ".pdf,.doc,.docx,.txt,.jpg,.jpeg,.png"
  | AUTHENTICATED => ".pdf,.doc,.docx,.xls,.xlsx,.txt,.csv,.jpg,.jpeg,.png,.gif"
  | PUBLIC => ".pdf,.doc,.docx,.xls,.xlsx,.txt,.csv,.jpg,.jpeg,.png,.gif,.zip"
  end.

(** [#getDefaultMaxSize] (lines 385-397), in bytes. *)
Definition getDefaultMaxSize (t : SecurityTier) : Z :=
  match t with
  | CRITICAL => 2 * 1024 * 1024
  | SENSITIVE => 5 * 1024 * 1024
  | AUTHENTICATED => 10 * 1024 * 1024
  | PUBLIC => 20 * 1024 * 1024
  end.

(** [#isFileTypeAllowed] (lines 577-594). *)
Definition isFileTypeAllowed (allowed : gset string) (file : File) : bool :=
  bool_decide (fileType file ∈ allowed)
  || existsb (fun allowedType =>
                endsWith allowedType "/*"
                && startsWith (fileType file) (dropLast 2 allowedType))
       (elements allowed).

(** The table of [#validateFileContent] (lines 633-637). *)
Definition magicNumbers : gmap string (list Z) :=
  list_to_map
    [ ("application/pdf", [37; 80; 68; 70]%Z);
      ("image/jpeg", [255; 216; 255]%Z);
      ("image/png", [137; 80; 78; 71]%Z) ].

(** [expected.every((byte, i) => bytes[i] === byte)] *)
Definition everyByteMatches (expected bytes : list Z) : bool :=
  forallb (fun '(i, byte) => bool_decide (bytes !! i = Some byte))
    (imap (fun i byte => (i, byte)) expected).

(** [#validateFileContent] (lines 626-659): [None] when the content is
    accepted, the error text otherwise.  The table is an object literal: a
    lookup under a name of [Object.prototype] finds the inherited member,
    which is truthy and has no [every].  An exception inside the [try]
    (reading fails, or [expected.every] is not a function) gives the second
    message. *)
Definition validateFileContent (file : File) : option string :=
  match fileBytes file with
  | None => Some "Failed to validate file content"
  | Some content =>
      let bytes := take 4 content in
      match magicNumbers !! fileType file with
      | Some expected =>
          if everyByteMatches expected bytes then None
          else Some "File content does not match declared type"
      | None =>
          if bool_decide (fileType file ∈ objectPrototypeNames)
          then Some "Failed to validate file content"
          else None
      end
  end.

Section WithPlatform.

Context {platform : Platform}.

(** [#extensionToMimeType] (lines 334-355).  Its one caller passes strings
    that start with a dot, so the lookup never meets an inherited property
    of the table object. *)
Definition extensionToMimeType (extension : string) : option string :=
  mimeTypes !! toLowerCase extension.

(** [#parseAcceptTypes] (lines 310-327): the set it leaves in
    [#allowedTypes]. *)
Definition parseAcceptTypes (accept : string) : gset string :=
  foldl (fun allowed type =>
           if startsWith type "." then
             match extensionToMimeType type with
             | Some mimeType => allowed ∪ {[mimeType]}
             | None => allowed
             end
           else allowed ∪ {[type]})
    ∅ (map trim (Select.splitOn ","%char accept)).

(** [#isFileNameDangerous] (lines 603-616). *)
Definition isFileNameDangerous (name : string) : bool :=
  if includes name ".." || includes name "/" || includes name "\"
  then true
  else bool_decide (toLowerCase name ∈ ["web.config"; ".htaccess"; ".env"; "config.php"]).

(** [render] as far as these fields go: a new file input, then
    [#applyFileInputAttributes] (lines 253-303) sets the allowed types, the
    size limit and the [multiple] flag from the host's attributes. *)
Definition render (attrs : gmap string string) (cfg : Settings) : Settings :=
  {| rendered := true;
     allowedTypes :=
       match attrs !! "accept" with
       | Some (String c rest) => parseAcceptTypes (String c rest)
       | _ => parseAcceptTypes (getDefaultAcceptTypes (securityTier cfg))
       end;
     maxSize :=
       match attrs !! "max-size" with
       | Some (String c rest) => parseInt (String c rest)
       | _ => Some (getDefaultMaxSize (securityTier cfg))
       end;
     multiple := bool_decide (is_Some (attrs !! "multiple"));
     securityTier := securityTier cfg |}.

(** [handleAttributeChange] (lines 784-797).  [#parseAcceptTypes] clears
    the set before it splits its argument, so a [null] new value (the
    attribute was removed) leaves the set empty and throws. *)
Definition handleAttributeChange (name : string) (newValue : option string)
    (cfg : Settings) : Completion Settings :=
  if negb (rendered cfg) then Returned cfg
  else if bool_decide (name = "accept") then
    match newValue with
    | Some accept => Returned (setAllowedTypes (parseAcceptTypes accept) cfg)
    | None => Thrown (setAllowedTypes ∅ cfg)
    end
  else Returned cfg.

(** [file.size > this.#maxSize]; a comparison with [NaN] is false. *)
Definition exceedsMaxSize (cfg : Settings) (file : File) : bool :=
  match maxSize cfg with
  | Some limit => Z.ltb limit (fileSize file)
  | None => false
  end.

(** The body of the loop of [#validateFiles] (lines 532-564) for one file:
    the message pushed before [continue], if any. *)
Definition checkFile (cfg : Settings) (file : File) : option FileError :=
  if exceedsMaxSize cfg file then Some (SizeExceeded (fileName file))
  else if Nat.ltb 0 (size (allowedTypes cfg)) && negb (isFileTypeAllowed (allowedTypes cfg) file)
  then Some (TypeNotAllowed (fileName file))
  else if isFileNameDangerous (fileName file) then Some (InvalidName (fileName file))
  else if bool_decide (securityTier cfg = CRITICAL) then
    match validateFileContent file with
    | Some reason => Some (ContentError (fileName file) reason)
    | None => None
    end
  else None.

(** [#validateFiles] (lines 523-570); it runs from the listeners [render]
    installs, so the file input exists. *)
Definition validateFiles (cfg : Settings) (files : list File) : bool * list FileError :=
  let errors0 :=
    if negb (multiple cfg) && Nat.ltb 1 (length files) then [OnlyOneFile] else [] in
  let errors :=
    foldl (fun errors file =>
             match checkFile cfg file with
             | Some e => errors ++ [e]
             | None => errors
             end) errors0 files in
  (Nat.eqb (length errors) 0, errors).

End WithPlatform.

End FileUpload.

(** ** Sample instances *)

Module Examples.

Import Select.

(** The sample base with [String.prototype.trim] for [trim]. *)
Definition trimmingBase : Inherited SpecBase :=
  {| sanitizeValue := @sanitizeValue _ specBase;
     audit := @audit _ specBase;
     checkRateLimit := @checkRateLimit _ specBase;
     securityTier := @securityTier _ specBase;
     configValidationRequired := @configValidationRequired _ specBase;
     configAllowAutocomplete := @configAllowAutocomplete _ specBase;
     superDisconnectedCallback := @superDisconnectedCallback _ specBase;
     parseSize := @parseSize _ specBase;
     trim := @Js.trim Js.asciiPlatform |}.

(** The country select after [render], before the microtask that moves the
    options. *)
Definition renderedCountry : SpecState :=
  @run _ specBase [ActRender]
    (@construct _ newSpecBase {[ "name" := "country" ]} countryOptions).

Definition renderedCountryElement : SelectEl :=
  Eval vm_compute in default newSelect (selectElement renderedCountry).

(** The country select after five blurs within half a second. *)
Definition blurredCountry : SpecState :=
  @run _ specBase
    [ActBlur 0; ActBlur 100; ActBlur 200; ActBlur 300; ActBlur 400] countrySelect.

Definition blurredCountryElement : SelectEl :=
  Eval vm_compute in default newSelect (selectElement blurredCountry).

(** A multiple select of three tags, the second preselected. *)
Definition tagOptions : list LightOption :=
  [ {| valueAttr := Some "red"; lightText := "Red";
       hasSelected := false; hasDisabled := false |};
    {| valueAttr := Some "green"; lightText := "Green";
       hasSelected := true; hasDisabled := false |};
    {| valueAttr := Some "blue"; lightText := "Blue";
       hasSelected := false; hasDisabled := false |} ].

Definition tagSelect : SpecState :=
  @run _ trimmingBase [ActRender; ActMicrotask]
    (@construct _ newSpecBase {[ "name" := "tags"; "multiple" := EmptyString ]} tagOptions).

Definition tagSelectElement : SelectEl :=
  Eval vm_compute in default newSelect (selectElement tagSelect).

(** A table of fifteen visitors, on its second page; card numbers are
    masked and left out of the search. *)
Definition visitColumns : list Table.Column :=
  [ {| Table.key := "name"; Table.filterable := None; Table.tier := None |};
    {| Table.key := "visits"; Table.filterable := None; Table.tier := None |};
    {| Table.key := "card"; Table.filterable := Some false;
       Table.tier := Some (SecurityConfig.tierString SecurityConfig.SENSITIVE) |} ].

Definition visitRow (name : string) (visits : Z) : gmap string JsValue :=
  {[ "name" := JsString name; "visits" := JsNumber visits;
     "card" := JsString "4111111111111111" ]}.

Definition visitTable : Table.TableState :=
  Table.goToPage 2
    (Table.setData (map (visitRow "guest") (seqZ 1 15))
       (Table.setColumns visitColumns Table.emptyTable)).

(** A visitor without a name who never came. *)
Definition idleRow : gmap string JsValue := visitRow EmptyString 0.

Definition idleTable : Table.TableState :=
  Table.setData [idleRow] (Table.setColumns visitColumns Table.emptyTable).

(** A rendered upload of the critical tier without attributes, and a file
    whose name leaves the upload directory. *)
Definition criticalUpload : FileUpload.Settings :=
  @FileUpload.render Js.asciiPlatform ∅ (FileUpload.construct SecurityConfig.CRITICAL).

Definition traversalFile : FileUpload.File :=
  {| FileUpload.fileName := "../report.pdf"; FileUpload.fileSize := 1024;
     FileUpload.fileType := "application/pdf";
     FileUpload.fileBytes := Some [37; 80; 68; 70; 45]%Z |}.

Definition untypedFile : FileUpload.File :=
  {| FileUpload.fileName := "notes"; FileUpload.fileSize := 12;
     FileUpload.fileType := EmptyString; FileUpload.fileBytes := Some [104; 105]%Z |}.

End Examples.

(* ===================================================================== *)
(** * Part II: properties *)
(* ===================================================================== *)

(** ** Policy resolver *)

Section PolicyResolver.

Import SecurityConfig.

Lemma TIER_CONFIG_lookup (t : SecurityTier) :
  TIER_CONFIG !! tierString t = Some (policyOf t).
Proof. destruct t; reflexivity. Qed.

Lemma TIER_CONFIG_lookup_unknown (s : string) :
  (∀ t, s ≠ tierString t) → TIER_CONFIG !! s = None.
Proof.
  intros Hs. unfold TIER_CONFIG.
  pose proof (Hs PUBLIC) as H1. pose proof (Hs AUTHENTICATED) as H2.
  pose proof (Hs SENSITIVE) as H3. pose proof (Hs CRITICAL) as H4.
  simpl in H1, H2, H3, H4.
  rewrite !lookup_insert_ne by congruence.
  apply lookup_empty.
Qed.

Lemma policyOf_level (t : SecurityTier) : (1 <= level (policyOf t) <= 4)%Z.
Proof. destruct t; simpl; lia. Qed.

(** C1.  The resolver returns the tier's own policy for each of the four tier
    strings; for every other argument (any other string, the empty string,
    [null], [undefined], a number) it returns the CRITICAL policy, whose level
    is 4 and which is not the PUBLIC policy.  Being a total function it never
    throws. *)
Theorem getTierConfig_fail_secure (tier : JsValue) :
  (∀ t, tier = JsString (tierString t) → getTierConfig tier = policyOf t) ∧
  ((∀ t, tier ≠ JsString (tierString t)) →
   getTierConfig tier = criticalPolicy ∧
   level (getTierConfig tier) = 4%Z ∧
   getTierConfig tier ≠ publicPolicy ∧
   isValidTier tier = false).
Proof.
  split.
  - intros t ->. simpl. by rewrite TIER_CONFIG_lookup.
  - intros Hbad.
    assert (getTierConfig tier = criticalPolicy) as Hc.
    { destruct tier as [| |n|s]; try reflexivity.
      simpl. rewrite TIER_CONFIG_lookup_unknown; [done|].
      intros t ->. by apply (Hbad t). }
    rewrite Hc. repeat split; try done.
    destruct tier as [| |n|s]; try reflexivity. simpl.
    pose proof (Hbad PUBLIC). pose proof (Hbad AUTHENTICATED).
    pose proof (Hbad SENSITIVE). pose proof (Hbad CRITICAL).
    rewrite !orb_false_iff, !bool_decide_eq_false. simpl in *.
    repeat split; congruence.
Qed.

Lemma getTierConfig_fail_secure_witness :
  getTierConfig (JsString "sensitive") = sensitivePolicy ∧
  getTierConfig (JsString "invalid-tier") = criticalPolicy ∧
  getTierConfig JsNull = criticalPolicy.
Proof.
  split; [|split].
  - apply (proj1 (getTierConfig_fail_secure (JsString "sensitive")) SENSITIVE). reflexivity.
  - apply (proj2 (getTierConfig_fail_secure (JsString "invalid-tier"))).
    intros t; destruct t; discriminate.
  - apply (proj2 (getTierConfig_fail_secure JsNull)).
    intros t; discriminate.
Defined.

End PolicyResolver.

(** ** Rate limiter *)

Section RateLimiterFacts.

Import RateLimiter.
Local Open Scope Z_scope.

Lemma checkRateLimit_disabled p now st :
  enabled p = false → fst (checkRateLimit p now st) = allowedResult.
Proof. intros Hp. unfold checkRateLimit. by rewrite Hp. Qed.

Lemma checkRateLimit_reset p now st :
  windowMs p < now - windowStart st →
  snd (checkRateLimit p now st) = {| count := 1; windowStart := now |}.
Proof.
  intros Hlate. unfold checkRateLimit.
  destruct (Z.ltb_spec (windowMs p) (now - windowStart st)); [|lia].
  simpl. destruct (negb (enabled p)); [done|].
  by destruct (_ <=? _).
Qed.

Lemma checkRateLimit_same_window p now st :
  now - windowStart st <= windowMs p →
  snd (checkRateLimit p now st) = {| count := count st + 1; windowStart := windowStart st |}.
Proof.
  intros Hin. unfold checkRateLimit.
  destruct (Z.ltb_spec (windowMs p) (now - windowStart st)); [lia|].
  destruct (negb (enabled p)); [done|].
  by destruct (_ <=? _).
Qed.

(** The counter after a call never exceeds the counter before it by more
    than one, and is at least one when it started non-negative. *)
Lemma checkRateLimit_count_bound p now st :
  0 <= count st →
  1 <= count (snd (checkRateLimit p now st)) <= count st + 1.
Proof.
  intros Hc. unfold checkRateLimit.
  destruct (windowMs p <? now - windowStart st);
    destruct (negb (enabled p)); simpl;
    try destruct (_ <=? _); simpl; lia.
Qed.

Lemma checkRateLimit_under_quota p now st :
  enabled p = true → 0 <= count st → count st + 1 <= maxAttempts p →
  fst (checkRateLimit p now st) = allowedResult.
Proof.
  intros Hp Hc Hq. unfold checkRateLimit. rewrite Hp. cbn [negb].
  destruct (windowMs p <? now - windowStart st); cbn [count windowStart].
  - destruct (Z.leb_spec (0 + 1) (maxAttempts p)); [done|lia].
  - destruct (Z.leb_spec (count st + 1) (maxAttempts p)); [done|lia].
Qed.

Lemma checkRateLimit_over_quota p now st :
  enabled p = true → now - windowStart st <= windowMs p → maxAttempts p < count st + 1 →
  fst (checkRateLimit p now st)
  = {| allowed := false; retryAfter := windowMs p - (now - windowStart st) |}.
Proof.
  intros Hp Hin Hq. unfold checkRateLimit. rewrite Hp. cbn [negb].
  destruct (Z.ltb_spec (windowMs p) (now - windowStart st)); [lia|].
  cbn [count windowStart].
  destruct (Z.leb_spec (count st + 1) (maxAttempts p)); [lia|done].
Qed.

Lemma checkRateLimitAll_cons p now nows st :
  checkRateLimitAll p (now :: nows) st
  = (fst (checkRateLimit p now st) :: fst (checkRateLimitAll p nows (snd (checkRateLimit p now st))),
     snd (checkRateLimitAll p nows (snd (checkRateLimit p now st)))).
Proof.
  simpl. destruct (checkRateLimit p now st) as [r st']. simpl.
  by destruct (checkRateLimitAll p nows st') as [rs st''].
Qed.

(** A run that stays under the quota is allowed throughout, whatever the
    clock readings. *)
Lemma checkRateLimitAll_under_quota p nows : ∀ st,
  enabled p = true → 0 <= count st →
  count st + Z.of_nat (length nows) <= maxAttempts p →
  Forall (λ r, r = allowedResult) (fst (checkRateLimitAll p nows st)).
Proof.
  induction nows as [|now nows IH]; intros st Hp Hc Hq.
  - constructor.
  - rewrite checkRateLimitAll_cons. simpl fst. simpl length in Hq.
    pose proof (checkRateLimit_count_bound p now st Hc) as Hb.
    constructor.
    + apply checkRateLimit_under_quota; [done|done|lia].
    + apply IH; [done|lia|lia].
Qed.

(** Within one window every call adds one to the counter. *)
Lemma checkRateLimitAll_same_window p nows : ∀ st,
  withinWindow p st nows →
  snd (checkRateLimitAll p nows st)
  = {| count := count st + Z.of_nat (length nows); windowStart := windowStart st |}.
Proof.
  induction nows as [|now nows IH]; intros st Hw.
  - simpl. destruct st as [c w]. simpl. f_equal. lia.
  - rewrite checkRateLimitAll_cons. simpl snd.
    inversion Hw as [|? ? Hnow Hrest]; subst.
    rewrite (checkRateLimit_same_window p now st Hnow).
    rewrite IH; [|exact Hrest]. simpl. f_equal. lia.
Qed.

(** C3, as the code has it.  With rate limiting disabled every call answers
    [allowed: true, retryAfter: 0].  With it enabled, the calls that bring the
    counter of a window up to [maxAttempts] are all allowed; when these calls
    and the next one fall in that window, the next one is refused with
    [retryAfter = windowMs - (now - windowStart)], which is never negative and
    is positive unless the call comes exactly [windowMs] after the window
    start.  A call later than that resets the counter to 0 and restarts the
    window at [now] before counting itself. *)
Theorem checkRateLimit_fixed_window (p : RateLimitPolicy) (st : RateLimitState)
    (nows : list Z) (now : Z) :
  (enabled p = false → fst (checkRateLimit p now st) = allowedResult) ∧
  (enabled p = true → 0 <= count st →
   count st + Z.of_nat (length nows) = maxAttempts p →
     Forall (λ r, r = allowedResult) (fst (checkRateLimitAll p nows st)) ∧
     (withinWindow p st (nows ++ [now]) →
        let r := fst (checkRateLimit p now (snd (checkRateLimitAll p nows st))) in
        allowed r = false ∧
        retryAfter r = windowMs p - (now - windowStart st) ∧
        0 <= retryAfter r ∧
        (now - windowStart st < windowMs p → 0 < retryAfter r))) ∧
  (windowMs p < now - windowStart st →
     snd (checkRateLimit p now st) = {| count := 1; windowStart := now |}).
Proof.
  split; [|split].
  - apply checkRateLimit_disabled.
  - intros Hp Hc Hlen. split.
    + apply checkRateLimitAll_under_quota; [done|lia|lia].
    + intros Hw. apply Forall_app in Hw as [Hw Hnow].
      inversion Hnow as [|? ? Hin _]; subst.
      rewrite (checkRateLimitAll_same_window p nows st Hw).
      rewrite checkRateLimit_over_quota; simpl; [|done|lia|lia].
      repeat split; lia.
  - apply checkRateLimit_reset.
Qed.

Lemma checkRateLimit_fixed_window_witness :
  Forall (λ r, r = allowedResult)
    (fst (checkRateLimitAll criticalRateLimit [0; 10; 20; 30; 40] initialState)) ∧
  fst (checkRateLimit criticalRateLimit 50
         (snd (checkRateLimitAll criticalRateLimit [0; 10; 20; 30; 40] initialState)))
  = {| allowed := false; retryAfter := 59950 |} ∧
  snd (checkRateLimit criticalRateLimit 60001 initialState)
  = {| count := 1; windowStart := 60001 |}.
Proof.
  pose proof (checkRateLimit_fixed_window criticalRateLimit initialState
                [0; 10; 20; 30; 40] 50) as (_ & Hen & _).
  destruct (Hen eq_refl ltac:(simpl; lia) eq_refl) as [Hall Hnext].
  split; [exact Hall|]. split.
  - assert (withinWindow criticalRateLimit initialState ([0; 10; 20; 30; 40] ++ [50])) as Hw.
    { unfold withinWindow. repeat constructor; simpl; lia. }
    destruct (Hnext Hw) as (Ha & Hr & _).
    reflexivity.
  - apply (proj2 (proj2 (checkRateLimit_fixed_window criticalRateLimit initialState [] 60001))).
    simpl. lia.
Defined.

(** C3, at the end of the window: on the CRITICAL quota, five calls
    at one instant and a sixth exactly 60000 ms later all fall in one window
    (no reset: the difference does not exceed [windowMs]); the sixth is refused
    with [retryAfter = 0], which is not strictly positive. *)
Lemma checkRateLimit_retryAfter_zero_at_window_end :
  let T := 1700000000000 in
  let st := snd (checkRateLimitAll criticalRateLimit [T; T; T; T; T] initialState) in
  let r := fst (checkRateLimit criticalRateLimit (T + 60000) st) in
  st = {| count := 5; windowStart := T |} ∧
  ¬ (windowMs criticalRateLimit < (T + 60000) - windowStart st) ∧
  allowed r = false ∧
  retryAfter r = windowMs criticalRateLimit - ((T + 60000) - windowStart st) ∧
  ¬ (0 < retryAfter r).
Proof. vm_compute. repeat split; try reflexivity; intros H; discriminate H. Qed.

End RateLimiterFacts.

(** ** Sanitizer *)

Section SanitizerFacts.

Import Sanitizer.







Lemma append_cons (c : ascii) (a b : string) : String c a +:+ b = String c (a +:+ b).
Proof. reflexivity. Qed.

Lemma append_empty (b : string) : EmptyString +:+ b = b.
Proof. reflexivity. Qed.





(** The strings of the base-component tests. *)
Example sanitizeValue_script :
  sanitizeValue (JsString "<script>alert(1)</script>")
  = "&lt;script&gt;alert(1)&lt;/script&gt;".
Proof. reflexivity. Qed.

Example sanitizeValue_ampersand :
  sanitizeValue (JsString "Tom & Jerry") = "Tom &amp; Jerry".
Proof. reflexivity. Qed.

End SanitizerFacts.

(** ** Validator *)

Section ValidatorFacts.

Import Validator.

Lemma validateInput_errors policy value options :
  errors (validateInput policy value options) = collectedErrors policy value options.
Proof.
  unfold validateInput, collectedErrors, failsRequired, failsMinLength,
    failsMaxLength, failsPattern, push.
  simpl.
  destruct (default (required policy) (required_opt options)
            && Nat.eqb (String.length value) 0);
    destruct (minLength_opt options) as [n|];
    try destruct (Nat.ltb (String.length value) n);
    destruct (Nat.ltb (default (maxLength policy) (maxLength_opt options))
                (String.length value));
    destruct (pattern_opt options) as [test|];
    try destruct (test value); reflexivity.
Qed.

Lemma validateInput_valid policy value options :
  valid (validateInput policy value options) = true
  ↔ errors (validateInput policy value options) = [].
Proof.
  unfold validateInput. simpl.
  rewrite Nat.eqb_eq. apply length_zero_iff_nil.
Qed.

Lemma collectedErrors_sorted policy value options :
  StronglySorted lt (map rank (collectedErrors policy value options)).
Proof.
  unfold collectedErrors.
  destruct (failsRequired policy value options);
    destruct (failsMinLength value options);
    destruct (failsMaxLength policy value options);
    destruct (failsPattern value options); simpl;
    repeat constructor; lia.
Qed.

(** C5.  [validateInput] runs the four checks without stopping at the first
    failure: its error list holds one message for each failing check and
    nothing else, in the order required, minLength, maxLength, pattern; the
    [valid] flag is true exactly when the list is empty, that is when no
    check fails. *)
Theorem validateInput_collects_all policy value options :
  let r := validateInput policy value options in
  errors r = collectedErrors policy value options ∧
  StronglySorted lt (map rank (errors r)) ∧
  (valid r = true ↔ errors r = []) ∧
  (valid r = true ↔
     failsRequired policy value options = false ∧
     failsMinLength value options = None ∧
     failsMaxLength policy value options = None ∧
     failsPattern value options = false).
Proof.
  cbv zeta. rewrite validateInput_valid, validateInput_errors.
  split; [done|]. split; [apply collectedErrors_sorted|]. split; [done|].
  unfold collectedErrors.
  destruct (failsRequired policy value options);
    destruct (failsMinLength value options);
    destruct (failsMaxLength policy value options);
    destruct (failsPattern value options); simpl;
    (split; [intros Hnil; try discriminate Hnil; done
            |intros (Hr & Hmin & Hmax & Hpat); try discriminate; done]).
Qed.

(** Values failing three constraints at once (the empty string cannot be
    too long, and a string cannot be both empty and non-matching in length),
    and the two calls of the testable properties. *)
Example validateInput_empty_fails_three :
  validateInput {| required := true; strict := true; maxLength := 0 |} EmptyString
    {| required_opt := None; minLength_opt := Some 5; maxLength_opt := None;
       pattern_opt := Some (fun s => Nat.ltb 0 (String.length s)) |}
  = {| valid := false;
       errors := [RequiredError; MinLengthError 5; PatternError] |}.
Proof. reflexivity. Qed.

Example validateInput_several_fail :
  validateInput {| required := true; strict := true; maxLength := 3 |} "abcdef"
    {| required_opt := None; minLength_opt := Some 8; maxLength_opt := None;
       pattern_opt := Some (fun s => Nat.eqb (String.length s) 2) |}
  = {| valid := false;
       errors := [MinLengthError 8; MaxLengthError 3; PatternError] |}.
Proof. reflexivity. Qed.

Example validateInput_required_empty :
  validateInput {| required := false; strict := false; maxLength := 1000 |} EmptyString
    {| required_opt := Some true; minLength_opt := None; maxLength_opt := None;
       pattern_opt := None |}
  = {| valid := false; errors := [RequiredError] |}.
Proof. reflexivity. Qed.

Example validateInput_required_ok :
  validateInput {| required := false; strict := false; maxLength := 1000 |} "ok"
    {| required_opt := Some true; minLength_opt := None; maxLength_opt := None;
       pattern_opt := None |}
  = {| valid := true; errors := [] |}.
Proof. reflexivity. Qed.

End ValidatorFacts.

(** ** Audit log *)

Section AuditLogFacts.

Import SecurityConfig AuditLog.

Variable toISOString : Z → string.















End AuditLogFacts.



(** ** Base widget lifecycle *)

Section LifecycleFacts.

Import SecurityConfig Lifecycle.














(** The scenario of the lifecycle test: the CRITICAL quota is used up, the
    widget leaves the document and comes back. *)
Example reconnect_after_quota_exhausted :
  let w1 := connectedCallback (construct []) in
  let w2 := performAll RateLimiter.criticalRateLimit 8
              (map ActCheckRateLimit [1; 2; 3; 4; 5; 6; 7]%Z) w1 in
  let w4 := connectedCallback (disconnectedCallback w2) in
  RateLimiter.count (rateLimitState w2) = 7%Z ∧
  renderCount w4 = 1 ∧
  RateLimiter.allowed (checkRateLimit RateLimiter.criticalRateLimit 8 w4).1 = true.
Proof. vm_compute. done. Qed.

End LifecycleFacts.

(** ** secure-select *)

Section SelectFacts.

Import Select.

Context {Base : Type} `{Inherited Base}.

Local Abbreviation State := (SecureSelect Base).

(** *** The select element *)

Lemma selectValue_selectFirstWithValue (v : string) (os : list OptionEl) :
  let os' := selectFirstWithValue v (map (withSelected false) os) in
  match List.find selected os' with
  | Some o => value o = v
  | None => True
  end.
Proof.
  induction os as [|o os IH]; simpl; [done|].
  case_bool_decide; simpl; [done|]. apply IH.
Qed.

Lemma selectValue_setSelectValue (v : string) (sel : SelectEl) :
  selectValue (setSelectValue v sel) = v ∨
  selectValue (setSelectValue v sel) = EmptyString.
Proof.
  unfold selectValue, setSelectValue. simpl.
  pose proof (selectValue_selectFirstWithValue v (options sel)) as Hf.
  simpl in Hf. destruct (List.find _ _); auto.
Qed.

Lemma selectValue_setSelectValue_empty (sel : SelectEl) :
  selectValue (setSelectValue EmptyString sel) = EmptyString.
Proof. by destruct (selectValue_setSelectValue EmptyString sel). Qed.

(** *** The one-shot transfer *)

Lemma transferOptions_guard (s : State) :
  optionsTransferred s = true → transferOptions s = Returned s.
Proof. intros Hg. unfold transferOptions. by rewrite Hg. Qed.

Lemma transferOptions_sets_guard (s : State) :
  optionsTransferred (stateOf (transferOptions s)) = true.
Proof.
  unfold transferOptions.
  destruct (optionsTransferred s) eqn:Hg; simpl; [done|].
  destruct (lightOptions s); simpl; [done|].
  destruct (selectElement s); simpl; [|done].
  by destruct (foldl _ _ _) as [[sel1 valid1] chosen].
Qed.

(** What [#handleChange] leaves alone, on either exit. *)
Lemma handleChange_frame (s : State) :
  let s' := stateOf (handleChange s) in
  optionsTransferred s' = optionsTransferred s ∧
  validOptions s' = validOptions s ∧
  isMultiple s' = isMultiple s ∧
  (is_Some (selectElement s) → is_Some (selectElement s')) ∧
  (is_Some (errorContainer s) → is_Some (errorContainer s')).
Proof.
  unfold handleChange, showError, clearErrors, andThen, auditCall.
  destruct (selectElement s) as [sel|] eqn:Hsel; simpl; [|by rewrite Hsel].
  destruct (isMultiple s) eqn:Hm; simpl.
  - destruct (Nat.ltb 0 _); destruct (errorContainer s) as [ec|] eqn:Hec;
      simpl; rewrite ?Hsel, ?Hec, ?Hm; simpl; repeat split; eauto.
  - destruct (nonEmpty _ && _); destruct (errorContainer s) as [ec|] eqn:Hec;
      simpl; rewrite ?Hsel, ?Hec, ?Hm; simpl; repeat split; eauto.
Qed.

Lemma showError_frame (msg : string) (s : State) :
  let s' := stateOf (showError msg s) in
  optionsTransferred s' = optionsTransferred s ∧
  validOptions s' = validOptions s ∧
  isMultiple s' = isMultiple s ∧
  (is_Some (selectElement s) → is_Some (selectElement s')) ∧
  (is_Some (errorContainer s) → is_Some (errorContainer s')).
Proof.
  unfold showError.
  destruct (errorContainer s) as [ec|] eqn:Hec; simpl; [|by rewrite Hec].
  destruct (selectElement s) as [el|] eqn:Hel; simpl; rewrite ?Hel; repeat split; eauto.
Qed.

Lemma validateAndShowErrors_frame (now : Z) (s : State) :
  let s' := stateOf (validateAndShowErrors now s) in
  optionsTransferred s' = optionsTransferred s ∧
  validOptions s' = validOptions s ∧
  isMultiple s' = isMultiple s ∧
  (is_Some (selectElement s) → is_Some (selectElement s')) ∧
  (is_Some (errorContainer s) → is_Some (errorContainer s')).
Proof.
  unfold validateAndShowErrors.
  destruct (checkRateLimit now (base s)) as [r b].
  set (s0 := setBase b s).
  assert (∀ msg,
    optionsTransferred (stateOf (showError msg s0)) = optionsTransferred s ∧
    validOptions (stateOf (showError msg s0)) = validOptions s ∧
    isMultiple (stateOf (showError msg s0)) = isMultiple s ∧
    (is_Some (selectElement s) → is_Some (selectElement (stateOf (showError msg s0)))) ∧
    (is_Some (errorContainer s) → is_Some (errorContainer (stateOf (showError msg s0)))))
    as Hshow by (intros msg; apply (showError_frame msg s0)).
  cbv zeta. destruct (negb (RateLimiter.allowed r)); [apply Hshow|].
  destruct (selectElement s0) as [el|] eqn:Hel; [|by simpl].
  repeat (match goal with
          | |- context [if ?c then _ else _] => destruct c
          end; try apply Hshow); by simpl.
Qed.

Lemma handleBlur_frame (now : Z) (s : State) :
  let s' := stateOf (handleBlur now s) in
  optionsTransferred s' = optionsTransferred s ∧
  validOptions s' = validOptions s ∧
  isMultiple s' = isMultiple s ∧
  (is_Some (selectElement s) → is_Some (selectElement s')) ∧
  (is_Some (errorContainer s) → is_Some (errorContainer s')).
Proof.
  unfold handleBlur, andThen.
  pose proof (validateAndShowErrors_frame now s) as Hv. cbv zeta in Hv.
  destruct (validateAndShowErrors now s) as [s1|s1]; simpl in *; [|done].
  destruct Hv as (Hg & Hv & Hm & Hsel & Hec).
  destruct (selectElement s1) as [el|] eqn:Hel; simpl; rewrite ?Hel; done.
Qed.

Lemma handleFocus_frame (s : State) :
  let s' := stateOf (handleFocus s) in
  optionsTransferred s' = optionsTransferred s ∧
  validOptions s' = validOptions s ∧
  isMultiple s' = isMultiple s ∧
  (is_Some (selectElement s) → is_Some (selectElement s')) ∧
  (is_Some (errorContainer s) → is_Some (errorContainer s')).
Proof. unfold handleFocus. by destruct (selectElement s) eqn:Hel; simpl; rewrite ?Hel. Qed.

Lemma step_keeps_guard (a : Action) (s : State) :
  optionsTransferred s = true → optionsTransferred (step a s) = true.
Proof.
  intros Hg. destruct a as [| |v text pre|v| |v|i| |n v|n| |now| |f]; simpl.
  - done.
  - unfold runMicrotask. destruct (pendingMicrotasks s); [done|].
    apply transferOptions_sets_guard.
  - unfold addOption. by destruct (selectElement s).
  - unfold removeOption. destruct (selectElement s) as [sel|]; [|done].
    by destruct (removeFirstWithValue v (options sel)).
  - unfold clearOptions. by destruct (selectElement s).
  - unfold setValue. destruct (selectElement s); [|done].
    destruct (isMultiple s); [done|]. by case_bool_decide.
  - unfold userPick. destruct (selectElement s) as [sel|]; [|done].
    destruct (options sel !! i) as [o|]; [|done].
    destruct (selectDisabled sel || disabled o); [done|].
    by rewrite (proj1 (handleChange_frame _)).
  - by rewrite (proj1 (handleChange_frame _)).
  - unfold handleAttributeChange. simpl. destruct (selectElement s); [|done].
    by repeat case_bool_decide.
  - unfold handleAttributeChange. simpl. destruct (selectElement s); [|done].
    by repeat case_bool_decide.
  - by rewrite (proj1 (handleFocus_frame _)).
  - by rewrite (proj1 (handleBlur_frame _ _)).
  - done.
  - done.
Qed.

Lemma run_keeps_guard (acts : list Action) : ∀ s : State,
  optionsTransferred s = true → optionsTransferred (run acts s) = true.
Proof.
  unfold run. induction acts as [|a acts IH]; intros s Hg; simpl; [done|].
  by apply IH, step_keeps_guard.
Qed.

(** C8.  The transfer of the light-DOM options is guarded by
    [#optionsTransferred]: the first invocation sets the flag, no later
    action clears it, and an invocation that finds it set returns the state it
    was given: no option added, the valid-option set and the select's value
    untouched.  Running the transfer twice equals running it once. *)
Theorem transferOptions_at_most_once (s : State) (acts : list Action) :
  let s1 := stateOf (transferOptions s) in
  let s2 := run acts s1 in
  optionsTransferred s1 = true ∧
  (optionsTransferred s = true → transferOptions s = Returned s) ∧
  andThen (transferOptions s) transferOptions = transferOptions s ∧
  transferOptions s2 = Returned s2 ∧
  selectElement (stateOf (transferOptions s2)) = selectElement s2 ∧
  validOptions (stateOf (transferOptions s2)) = validOptions s2.
Proof.
  cbv zeta.
  pose proof (transferOptions_sets_guard s) as Hg1.
  pose proof (run_keeps_guard acts _ Hg1) as Hg2.
  split; [done|]. split; [apply transferOptions_guard|]. split.
  - destruct (transferOptions s) as [s1|s1] eqn:Hrun; simpl in *; [|done].
    by apply transferOptions_guard.
  - by rewrite (transferOptions_guard _ Hg2).
Qed.

(** *** Invariants of reachable states *)

Lemma transferOption_fold_valid (lights : list LightOption) :
  ∀ (sel : SelectEl) (valid : gset string) (chosen : list string) x,
  x ∈ (foldl transferOption (sel, valid, chosen) lights).1.2 →
  x ∈ valid ∨ ∃ raw, x = sanitizeValue raw.
Proof.
  induction lights as [|o lights IH]; intros sel valid chosen x; simpl; [auto|].
  intros Hx. apply IH in Hx as [Hx|Hx]; [|by right].
  apply elem_of_union in Hx as [Hx|Hx]; [by left|].
  apply elem_of_singleton in Hx. right. eauto.
Qed.

Lemma transferOptions_allSanitized (s : State) :
  allSanitized s → allSanitized (stateOf (transferOptions s)).
Proof.
  intros Hs. unfold transferOptions.
  destruct (optionsTransferred s); simpl; [done|].
  destruct (lightOptions s) as [|first rest] eqn:Hl; simpl; [done|].
  destruct (selectElement s) as [sel|]; simpl.
  - destruct (foldl _ _ _) as [[sel1 valid1] chosen] eqn:Hfold. simpl.
    intros x Hx. simpl in Hx.
    pose proof (transferOption_fold_valid (first :: rest) sel (validOptions s) [] x) as Hf.
    simpl in Hf. rewrite Hfold in Hf. simpl in Hf.
    destruct (Hf Hx) as [Hold|Hnew]; [by apply Hs|done].
  - intros x Hx. simpl in Hx.
    apply elem_of_union in Hx as [Hx|Hx]; [by apply Hs|].
    apply elem_of_singleton in Hx. eauto.
Qed.

Lemma transferOptions_renderedTogether (s : State) :
  renderedTogether s → renderedTogether (stateOf (transferOptions s)).
Proof.
  unfold renderedTogether, transferOptions. intros Hr.
  destruct (optionsTransferred s); simpl; [done|].
  destruct (lightOptions s); simpl; [done|].
  destruct (selectElement s) as [sel|] eqn:Hsel; simpl.
  - destruct (foldl _ _ _) as [[sel1 valid1] chosen]. simpl.
    intros _. apply Hr. by eexists.
  - by rewrite Hsel.
Qed.

Lemma step_invariant (a : Action) (s : State) :
  allSanitized s ∧ renderedTogether s →
  allSanitized (step a s) ∧ renderedTogether (step a s).
Proof.
  intros [Hs Hr]. destruct a as [| |v text pre|v| |v|i| |n v|n| |now| |f]; simpl.
  - split; [done|]. intros _. simpl. by eexists.
  - unfold runMicrotask. destruct (pendingMicrotasks s); [done|].
    split; [by apply transferOptions_allSanitized|by apply transferOptions_renderedTogether].
  - unfold addOption. destruct (selectElement s) as [sel|] eqn:Hsel; [|done].
    split.
    + intros x Hx. simpl in Hx. apply elem_of_union in Hx as [Hx|Hx]; [by apply Hs|].
      apply elem_of_singleton in Hx. eauto.
    + intros _. simpl. apply Hr. by rewrite Hsel.
  - unfold removeOption. destruct (selectElement s) as [sel|] eqn:Hsel; [|done].
    destruct (removeFirstWithValue v (options sel)); [|done]. split.
    + intros x Hx. simpl in Hx. apply elem_of_difference in Hx as [Hx _]. by apply Hs.
    + intros _. simpl. apply Hr. by rewrite Hsel.
  - unfold clearOptions. destruct (selectElement s) as [sel|] eqn:Hsel; [|done]. split.
    + intros x Hx. simpl in Hx. by apply not_elem_of_empty in Hx.
    + intros _. simpl. apply Hr. by rewrite Hsel.
  - unfold setValue. destruct (selectElement s) as [sel|] eqn:Hsel; [|done].
    destruct (isMultiple s); [|case_bool_decide; [|done]];
      (split; [done|]); intros _; simpl; apply Hr; by rewrite Hsel.
  - unfold userPick. destruct (selectElement s) as [sel|] eqn:Hsel; [|done].
    destruct (options sel !! i) as [o|]; [|done].
    destruct (selectDisabled sel || disabled o); [done|].
    destruct (handleChange_frame (setSelectElement (Some (pickOption i sel)) s))
      as (_ & Hv & _ & _ & He).
    split.
    + intros x Hx. rewrite Hv in Hx. by apply Hs.
    + intros _. apply He. simpl. apply Hr. by rewrite Hsel.
  - destruct (handleChange_frame s) as (_ & Hv & _ & Hsome & He). split.
    + intros x Hx. rewrite Hv in Hx. by apply Hs.
    + intros Hsel'. apply He, Hr.
      unfold handleChange in Hsel'. destruct (selectElement s) eqn:Hsel; [by eexists|].
      simpl in Hsel'. by rewrite Hsel in Hsel'.
  - unfold handleAttributeChange. simpl.
    destruct (selectElement s) as [sel|] eqn:Hsel; [|done].
    repeat case_bool_decide; (split; [done|]); try done;
      intros _; simpl; apply Hr; by rewrite Hsel.
  - unfold handleAttributeChange. simpl.
    destruct (selectElement s) as [sel|] eqn:Hsel; [|done].
    repeat case_bool_decide; (split; [done|]); try done;
      intros _; simpl; apply Hr; by rewrite Hsel.
  - destruct (handleFocus_frame s) as (_ & Hv & _ & _ & He). split.
    + intros x Hx. rewrite Hv in Hx. by apply Hs.
    + intros Hsel'. apply He, Hr.
      unfold handleFocus in Hsel'. destruct (selectElement s) eqn:Hsel; [by eexists|].
      simpl in Hsel'. by rewrite Hsel in Hsel'.
  - destruct (handleBlur_frame now s) as (_ & Hv & _ & _ & He). split.
    + intros x Hx. rewrite Hv in Hx. by apply Hs.
    + intros Hsel'. apply He, Hr.
      destruct (selectElement s) eqn:Hsel; [by eexists|].
      exfalso. revert Hsel'.
      unfold handleBlur, validateAndShowErrors, showError, andThen.
      destruct (checkRateLimit now (base s)) as [r b]. simpl.
      destruct (negb (RateLimiter.allowed r)); simpl; rewrite ?Hsel;
        destruct (errorContainer s); simpl; rewrite ?Hsel; by intros [? ?].
  - done.
  - done.
Qed.

Lemma reachable_invariant (s : State) :
  reachable s → allSanitized s ∧ renderedTogether s.
Proof.
  induction 1 as [b attrs light|a s _ IH].
  - split.
    + intros x Hx. simpl in Hx. by apply not_elem_of_empty in Hx.
    + intros [x Hx]. discriminate Hx.
  - by apply step_invariant.
Qed.

(** *** Validation of the selected value *)

Lemma handleChange_rejects (s : State) (sel : SelectEl) :
  selectElement s = Some sel → is_Some (errorContainer s) → isMultiple s = false →
  nonEmpty (selectValue sel) = true → selectValue sel ∉ validOptions s →
  let s' := stateOf (handleChange s) in
  currentValue s' = Some EmptyString ∧
  base s' = audit "invalid_option_detected"
              [("name", DString (name sel)); ("attemptedValue", DString (selectValue sel))]
              (base s) ∧
  errorContainer s' = Some {| message := "Invalid option selected"; hidden := false |}.
Proof.
  intros Hsel [ec Hec] Hm Hne Hbad.
  unfold handleChange, showError, andThen, auditCall, currentValue, selectName.
  rewrite Hsel, Hm, Hne, Hec. rewrite bool_decide_eq_false_2 by done. simpl.
  rewrite Hsel. simpl. by rewrite selectValue_setSelectValue_empty.
Qed.

Lemma handleChange_accepts (s : State) (sel : SelectEl) :
  selectElement s = Some sel → is_Some (errorContainer s) → isMultiple s = false →
  selectValue sel = EmptyString ∨ selectValue sel ∈ validOptions s →
  let s' := stateOf (handleChange s) in
  currentValue s' = Some (selectValue sel) ∧
  base s' = audit "select_changed"
              [("name", DString (name sel)); ("value", DString (selectValue sel))]
              (base s) ∧
  dispatchedEvents s'
  = dispatchedEvents s
    ++ [{| detailName := name sel; detailValue := DString (selectValue sel);
           detailTier := securityTier (base s') |}].
Proof.
  intros Hsel [ec Hec] Hm Hok.
  unfold handleChange, clearErrors, andThen, auditCall, currentValue, selectName.
  rewrite Hsel, Hm.
  assert (nonEmpty (selectValue sel) && negb (bool_decide (selectValue sel ∈ validOptions s))
          = false) as ->.
  { destruct Hok as [->|Hin]; [done|].
    rewrite (bool_decide_eq_true_2 _ Hin). apply andb_false_r. }
  rewrite Hec. simpl. rewrite Hsel. simpl. done.
Qed.

Lemma nonEmpty_true (v : string) : v ≠ EmptyString → nonEmpty v = true.
Proof. by destruct v. Qed.

Lemma handleChange_registers (s : State) :
  renderedTogether s → isMultiple s = false →
  valueRegistered (stateOf (handleChange s)).
Proof.
  intros Hr Hm. unfold valueRegistered.
  destruct (selectElement s) as [sel|] eqn:Hsel.
  - assert (is_Some (errorContainer s)) as Hec by (apply Hr; by eexists).
    destruct (decide (selectValue sel = EmptyString ∨ selectValue sel ∈ validOptions s))
      as [Hok|Hbad].
    + destruct (handleChange_accepts s sel Hsel Hec Hm Hok) as (-> & _).
      by rewrite (proj1 (proj2 (handleChange_frame s))).
    + destruct (handleChange_rejects s sel Hsel Hec Hm) as (-> & _); [| |by left].
      * apply nonEmpty_true. tauto.
      * tauto.
  - unfold handleChange, currentValue. rewrite Hsel. simpl. by rewrite Hsel.
Qed.

Lemma setValue_unregistered (s : State) (v : string) :
  isMultiple s = false → v ∉ validOptions s → setValue v s = s.
Proof.
  intros Hm Hv. unfold setValue. destruct (selectElement s); [|done].
  rewrite Hm. by rewrite bool_decide_eq_false_2.
Qed.

Lemma setValue_registered (s : State) (v : string) :
  isMultiple s = false → v ∈ validOptions s → valueRegistered (setValue v s).
Proof.
  intros Hm Hv. unfold setValue, valueRegistered, currentValue.
  destruct (selectElement s) as [sel|] eqn:Hsel; [|by rewrite Hsel].
  rewrite Hm, bool_decide_eq_true_2 by done. simpl.
  destruct (selectValue_setSelectValue v sel) as [->| ->]; auto.
Qed.

Lemma userPick_registers (s : State) (i : nat) (sel : SelectEl) (o : OptionEl) :
  renderedTogether s → isMultiple s = false →
  selectElement s = Some sel → options sel !! i = Some o →
  selectDisabled sel || disabled o = false →
  valueRegistered (userPick i s).
Proof.
  intros Hr Hm Hsel Ho Hen. unfold userPick. rewrite Hsel, Ho, Hen.
  apply handleChange_registers; [|done].
  intros _. simpl. apply Hr. by eexists.
Qed.

Lemma selectValue_after_assignment (v : string) (os : list OptionEl) :
  match List.find selected (selectFirstWithValue v (map (withSelected false) os)) with
  | Some o => value o
  | None => EmptyString
  end
  = (if bool_decide (v ∈ map value os) then v else EmptyString).
Proof.
  induction os as [|o os IH]; simpl; [done|].
  destruct (decide (value o = v)) as [Hv|Hv].
  - rewrite (bool_decide_eq_true_2 (value o = v)) by done. simpl.
    rewrite bool_decide_eq_true_2; [done|]. rewrite <- Hv. apply list_elem_of_here.
  - rewrite (bool_decide_eq_false_2 (value o = v)) by done. simpl. rewrite IH.
    destruct (decide (v ∈ map value os)) as [Hin|Hnot].
    + rewrite !bool_decide_eq_true_2; [done|by apply list_elem_of_further|done].
    + rewrite !bool_decide_eq_false_2; [done| |done].
      intros Hin. apply elem_of_cons in Hin as [Heq|Hin]; [by destruct Hv|done].
Qed.

Lemma setValue_registered_shows (s : State) (sel : SelectEl) (v : string) :
  isMultiple s = false → v ∈ validOptions s → selectElement s = Some sel →
  currentValue (setValue v s)
  = Some (if bool_decide (v ∈ optionValues sel) then v else EmptyString).
Proof.
  intros Hm Hv Hsel. unfold setValue, currentValue. rewrite Hsel, Hm.
  rewrite bool_decide_eq_true_2 by done. simpl. f_equal.
  unfold selectValue, setSelectValue, optionValues. simpl.
  apply selectValue_after_assignment.
Qed.

(** C9, as the code has it.  For a single-select instance in any reachable
    state: after a change event (dispatched on the state as it is, or
    following the user's pick of an enabled option) the select's value is the
    empty string or a registered value, an unregistered one having been reset
    to the empty string with an [invalid_option_detected] audit call; the
    value setter
    leaves the instance untouched when the value is not registered, and after
    an assignment of a registered value the select shows that value, when
    some option carries it, or the empty string, when none does; so an
    assignment never breaks the property, but it does not establish it
    either.  Every registered value is an output of [sanitizeValue]. *)
Theorem select_value_registered (s : State) (v : string) :
  reachable s → isMultiple s = false →
  valueRegistered (stateOf (handleChange s)) ∧
  (∀ i sel o, selectElement s = Some sel → options sel !! i = Some o →
     selectDisabled sel || disabled o = false →
     valueRegistered (userPick i s)) ∧
  (¬ valueRegistered s →
     ∃ attempted,
       currentValue s = Some attempted ∧
       currentValue (stateOf (handleChange s)) = Some EmptyString ∧
       base (stateOf (handleChange s))
       = audit "invalid_option_detected"
           [("name", DString (selectName s)); ("attemptedValue", DString attempted)]
           (base s)) ∧
  (v ∉ validOptions s → setValue v s = s) ∧
  (v ∈ validOptions s → valueRegistered (setValue v s)) ∧
  (v ∈ validOptions s →
     ∀ sel, selectElement s = Some sel →
       currentValue (setValue v s)
       = Some (if bool_decide (v ∈ optionValues sel) then v else EmptyString)) ∧
  (valueRegistered s → valueRegistered (setValue v s)) ∧
  allSanitized s.
Proof.
  intros Hreach Hm. destruct (reachable_invariant s Hreach) as [Hsan Hr].
  split; [by apply handleChange_registers|].
  split; [intros i sel o; by apply userPick_registers|].
  split; [|split; [|split; [|split; [|split]]]].
  - unfold valueRegistered, currentValue, selectName.
    destruct (selectElement s) as [sel|] eqn:Hsel; simpl; [|tauto].
    intros Hbad. exists (selectValue sel). split; [done|].
    assert (is_Some (errorContainer s)) as Hec by (apply Hr; by eexists).
    destruct (handleChange_rejects s sel Hsel Hec Hm) as (Hv & Hb & _).
    + apply nonEmpty_true. tauto.
    + tauto.
    + done.
  - by apply setValue_unregistered.
  - by apply setValue_registered.
  - intros Hv sel Hsel. by apply setValue_registered_shows.
  - intros Hok. destruct (decide (v ∈ validOptions s)) as [Hv|Hv].
    + by apply setValue_registered.
    + by rewrite setValue_unregistered.
  - done.
Qed.

(** C10.  [disconnectedCallback] writes the base state only: the
    valid-option set, the select element and the transfer flag are what they
    were.  After the disconnection and a reconnection (which, the instance
    being initialised, renders nothing) a change to a value registered before
    is accepted: it is audited as [select_changed] and stays selected. *)
Theorem disconnect_keeps_validOptions (s : State) (superConnectedCallback : Base → Base) :
  let s' := reconnect superConnectedCallback (disconnectedCallback s) in
  validOptions (disconnectedCallback s) = validOptions s ∧
  selectElement (disconnectedCallback s) = selectElement s ∧
  optionsTransferred (disconnectedCallback s) = optionsTransferred s ∧
  validOptions s' = validOptions s ∧
  (∀ sel, selectElement s = Some sel → is_Some (errorContainer s) → isMultiple s = false →
     selectValue sel ∈ validOptions s →
     currentValue (stateOf (handleChange s')) = Some (selectValue sel) ∧
     base (stateOf (handleChange s'))
     = audit "select_changed"
         [("name", DString (name sel)); ("value", DString (selectValue sel))]
         (base s')).
Proof.
  cbv zeta. repeat split; try done.
  - by apply (handleChange_accepts
                (reconnect superConnectedCallback (disconnectedCallback s)) sel); auto.
  - by apply (handleChange_accepts
                (reconnect superConnectedCallback (disconnectedCallback s)) sel); auto.
Qed.

Lemma reachable_run (acts : list Action) : ∀ s : State,
  reachable s → reachable (run acts s).
Proof.
  unfold run. induction acts as [|a acts IH]; intros s Hs; simpl; [done|].
  by apply IH, reach_step.
Qed.

End SelectFacts.

Lemma transferOptions_at_most_once_witness :
  Select.optionsTransferred Select.countrySelect = true ∧
  @Select.transferOptions _ Select.specBase Select.countrySelect
  = Returned Select.countrySelect.
Proof.
  assert (Select.optionsTransferred Select.countrySelect = true) as Hg
    by (vm_compute; reflexivity).
  split; [exact Hg|].
  exact (proj1 (proj2 (@transferOptions_at_most_once _ Select.specBase
                         Select.countrySelect [])) Hg).
Defined.

Lemma select_value_registered_witness :
  @Select.valueRegistered _
    (stateOf (@Select.handleChange _ Select.specBase Select.countrySelect)) ∧
  @Select.setValue _ Select.specBase "fr" Select.countrySelect = Select.countrySelect.
Proof.
  assert (@Select.reachable _ Select.specBase Select.countrySelect) as Hreach.
  { apply reachable_run, Select.reach_construct. }
  assert (Select.isMultiple Select.countrySelect = false) as Hsingle
    by (vm_compute; reflexivity).
  assert (bool_decide ("fr" ∈ Select.validOptions Select.countrySelect) = false) as Hb
    by (vm_compute; reflexivity).
  apply bool_decide_eq_false in Hb.
  destruct (@select_value_registered _ Select.specBase Select.countrySelect "fr"
              Hreach Hsingle) as (Hchange & _ & _ & Hignore & _).
  split; [exact Hchange|exact (Hignore Hb)].
Defined.

(** C9, a state with a selected value that is not registered.  The page
    adds the value [a] twice and removes it once: [removeOption] takes out the
    first of the two options and deletes [a] from the valid-option set, so the
    select still shows [a].
    An assignment of an unregistered value through the setter is ignored, and
    after it the select's value is neither empty nor registered. *)
Lemma setValue_leaves_unregistered_value :
  let s := Select.duplicateThenRemove in
  let s' := @Select.setValue _ Select.specBase "zzz" s in
  @Select.reachable _ Select.specBase s ∧
  Select.isMultiple s = false ∧
  @Select.currentValue _ s' = Some "a" ∧
  ("a" ∉ Select.validOptions s') ∧
  (@Select.valueRegistered _ s' → False).
Proof.
  cbv zeta.
  assert (bool_decide
            ("a" ∈ Select.validOptions
                     (@Select.setValue _ Select.specBase "zzz" Select.duplicateThenRemove))
          = false) as Hnot by (vm_compute; reflexivity).
  apply bool_decide_eq_false in Hnot.
  assert (@Select.currentValue _
            (@Select.setValue _ Select.specBase "zzz" Select.duplicateThenRemove)
          = Some "a") as Hcur by (vm_compute; reflexivity).
  split; [apply reachable_run, Select.reach_construct|].
  split; [vm_compute; reflexivity|]. split; [exact Hcur|]. split; [exact Hnot|].
  unfold Select.valueRegistered. rewrite Hcur.
  intros [Hempty|Hin]; [discriminate Hempty|exact (Hnot Hin)].
Qed.

Lemma disconnect_keeps_validOptions_witness :
  let s' := Select.reconnect (fun b => b)
              (@Select.disconnectedCallback _ Select.specBase Select.countrySelect) in
  Select.validOptions s' = Select.validOptions Select.countrySelect ∧
  @Select.currentValue _ (stateOf (@Select.handleChange _ Select.specBase s')) = Some "uk".
Proof.
  cbv zeta.
  assert (Select.selectElement Select.countrySelect = Some Select.countrySelectElement)
    as Hsel by (vm_compute; reflexivity).
  assert (is_Some (Select.errorContainer Select.countrySelect)) as Hec
    by (vm_compute; eexists; reflexivity).
  assert (Select.isMultiple Select.countrySelect = false) as Hsingle
    by (vm_compute; reflexivity).
  assert (bool_decide (Select.selectValue Select.countrySelectElement
                       ∈ Select.validOptions Select.countrySelect) = true) as Hin
    by (vm_compute; reflexivity).
  apply bool_decide_eq_true in Hin.
  destruct (@disconnect_keeps_validOptions _ Select.specBase Select.countrySelect
              (fun b => b)) as (_ & _ & _ & Hvalid & Hok).
  split; [exact Hvalid|].
  exact (proj1 (Hok Select.countrySelectElement Hsel Hec Hsingle Hin)).
Defined.

(* ===================================================================== *)
(** * Part II, continued: further properties of the components *)
(* ===================================================================== *)

(** ** secure-select: the select element *)

Section SelectElementFacts.

Import Select.

Lemma unselected_idemp (b : bool) (os : list OptionEl) :
  unselected (map (withSelected b) os) = unselected os.
Proof. unfold unselected. rewrite map_map. by apply map_ext; intros []. Qed.

Lemma unselected_app (os os' : list OptionEl) :
  unselected (os ++ os') = unselected os ++ unselected os'.
Proof. apply map_app. Qed.

Lemma unselected_values (os os' : list OptionEl) :
  unselected os = unselected os' → map value os = map value os'.
Proof.
  intros Heq. apply (f_equal (map value)) in Heq. unfold unselected in Heq.
  rewrite !map_map in Heq. exact Heq.
Qed.

Lemma unselected_length (os os' : list OptionEl) :
  unselected os = unselected os' → length os = length os'.
Proof.
  intros Heq. apply (f_equal length) in Heq. unfold unselected in Heq.
  by rewrite !length_map in Heq.
Qed.

Lemma unselected_selectFirstEnabled (os : list OptionEl) :
  unselected (selectFirstEnabled os) = unselected os.
Proof.
  induction os as [|o os IH]; simpl; [done|].
  destruct (disabled o); simpl; [by rewrite IH|done].
Qed.

Lemma unselected_keepLastSelected (os : list OptionEl) :
  unselected (keepLastSelected os) = unselected os.
Proof.
  induction os as [|o os IH]; simpl; [done|].
  rewrite IH. by destruct (selected o && existsb selected os).
Qed.

Lemma unselected_selectFirstWithValue (v : string) (os : list OptionEl) :
  unselected (selectFirstWithValue v os) = unselected os.
Proof.
  induction os as [|o os IH]; simpl; [done|].
  case_bool_decide; simpl; [done|by rewrite IH].
Qed.

Lemma unselected_selectednessSetting (sel : SelectEl) :
  unselected (options (selectednessSetting sel)) = unselected (options sel).
Proof.
  unfold selectednessSetting.
  destruct (_ && _ && _); simpl; [apply unselected_selectFirstEnabled|].
  destruct (_ && _); simpl; [apply unselected_keepLastSelected|done].
Qed.

Lemma unselected_setSelectValue (v : string) (sel : SelectEl) :
  unselected (options (setSelectValue v sel)) = unselected (options sel).
Proof.
  unfold setSelectValue. simpl.
  by rewrite unselected_selectFirstWithValue, unselected_idemp.
Qed.

Lemma unselected_appendChild (o : OptionEl) (sel : SelectEl) :
  unselected (options (appendChild o sel)) = unselected (options sel) ++ [withSelected false o].
Proof.
  unfold appendChild. rewrite unselected_selectednessSetting. simpl.
  rewrite unselected_app. simpl. f_equal.
  destruct (_ && _); [apply unselected_idemp|done].
Qed.

Lemma optionValues_unselected (sel sel' : SelectEl) :
  unselected (options sel') = unselected (options sel) → optionValues sel' = optionValues sel.
Proof. apply unselected_values. Qed.

(** The getter returns the empty string or the value of one of the options. *)
Lemma selectValue_in_options (sel : SelectEl) :
  selectValue sel = EmptyString ∨ selectValue sel ∈ optionValues sel.
Proof.
  unfold selectValue, optionValues.
  destruct (List.find selected (options sel)) as [o|] eqn:Hf; [|by left].
  right. apply find_some in Hf as [Hin _].
  apply list_elem_of_fmap. exists o. split; [done|]. by apply list_elem_of_In.
Qed.

Lemma find_selectFirstWithValue_in (v : string) (os : list OptionEl) :
  v ∈ map value os →
  ∃ o, List.find selected (selectFirstWithValue v (map (withSelected false) os)) = Some o
       ∧ value o = v.
Proof.
  induction os as [|o os IH]; simpl.
  - intros Hin. by apply elem_of_nil in Hin.
  - intros Hin. case_bool_decide as Hv; simpl.
    + eexists. split; [done|]. done.
    + apply elem_of_cons in Hin as [Hin|Hin]; [by destruct Hv|]. by apply IH.
Qed.

Lemma find_selectFirstWithValue_notin (v : string) (os : list OptionEl) :
  v ∉ map value os →
  List.find selected (selectFirstWithValue v (map (withSelected false) os)) = None.
Proof.
  induction os as [|o os IH]; simpl; [done|].
  intros Hnot. apply not_elem_of_cons in Hnot as [Hne Hnot].
  rewrite bool_decide_eq_false_2 by done. simpl. by apply IH.
Qed.

(** The setter selects the given value exactly when some option carries
    it; otherwise nothing is selected. *)
Lemma selectValue_setSelectValue_in (v : string) (sel : SelectEl) :
  v ∈ optionValues sel → selectValue (setSelectValue v sel) = v.
Proof.
  intros Hin. unfold selectValue, setSelectValue. simpl.
  destruct (find_selectFirstWithValue_in v (options sel) Hin) as (o & -> & Hv). done.
Qed.

Lemma selectValue_setSelectValue_notin (v : string) (sel : SelectEl) :
  v ∉ optionValues sel → selectValue (setSelectValue v sel) = EmptyString.
Proof.
  intros Hnot. unfold selectValue, setSelectValue. simpl.
  by rewrite find_selectFirstWithValue_notin.
Qed.

End SelectElementFacts.

(** ** secure-select: transfer of the light-DOM options *)

Section SelectTransferFacts.

Import Select.

Context {Base : Type} `{Inherited Base}.

Local Abbreviation State := (SecureSelect Base).

Lemma transferOption_fold (lights : list LightOption) :
  ∀ (sel : SelectEl) (valid : gset string) (chosen : list string),
  ∃ sel',
    foldl transferOption (sel, valid, chosen) lights
    = (sel',
       valid ∪ list_to_set (map registeredValue lights),
       chosen ++ map registeredValue (filter (fun o => hasSelected o = true) lights))
    ∧ unselected (options sel')
      = unselected (options sel) ++ unselected (map transferredOption lights)
    ∧ multiple sel' = multiple sel.
Proof.
  induction lights as [|o lights IH]; intros sel valid chosen; simpl.
  - exists sel. rewrite !app_nil_r. split; [|done]. f_equal. f_equal.
    by rewrite ?list_to_set_nil, (right_id_L ∅ (∪)).
  - destruct (IH (appendChild (transferredOption o) sel) (valid ∪ {[registeredValue o]})
                (if hasSelected o then chosen ++ [registeredValue o] else chosen))
      as (sel' & Hfold & Hopts & Hmul).
    exists sel'. unfold transferredOption, registeredValue in *. rewrite Hfold.
    split; [|split].
    + f_equal; [f_equal; simpl; by rewrite (assoc_L (∪))|].
      rewrite filter_cons. destruct (hasSelected o) eqn:Hs.
      * rewrite decide_True by done. simpl. by rewrite <- app_assoc.
      * rewrite decide_False by done. done.
    + rewrite Hopts, unselected_appendChild. by rewrite <- app_assoc.
    + rewrite Hmul. unfold appendChild, selectednessSetting.
      destruct (_ && _ && _); simpl; [done|]. by destruct (_ && _).
Qed.

(** X1.  The first run of [#transferOptions] on a rendered instance
    registers the sanitized value of every light-DOM option and nothing else,
    and appends one option per light-DOM option to the select, in document
    order, with sanitized value and text and the [disabled] flag of the
    original; the options that were there keep their place. *)
Theorem transferOptions_registers_all (s : State) (sel : SelectEl) :
  optionsTransferred s = false → selectElement s = Some sel →
  ∃ sel',
    transferOptions s
    = Returned (stateOf (transferOptions s)) ∧
    selectElement (stateOf (transferOptions s)) = Some sel' ∧
    validOptions (stateOf (transferOptions s))
    = validOptions s ∪ list_to_set (map registeredValue (lightOptions s)) ∧
    unselected (options sel')
    = unselected (options sel) ++ unselected (map transferredOption (lightOptions s)) ∧
    optionValues sel' = optionValues sel ++ map registeredValue (lightOptions s).
Proof.
  intros Hflag Hsel. unfold transferOptions. rewrite Hflag. simpl.
  destruct (lightOptions s) as [|first rest] eqn:Hl.
  - exists sel. simpl. rewrite Hsel. rewrite !app_nil_r.
    repeat split; try done. by rewrite ?list_to_set_nil, (right_id_L ∅ (∪)).
  - rewrite Hsel.
    destruct (transferOption_fold (first :: rest) sel (validOptions s) [])
      as (sel1 & Hfold & Hopts & _).
    rewrite Hfold. simpl.
    eexists. split; [done|]. split; [done|]. split; [done|].
    assert (∀ sel2, unselected (options sel2) = unselected (options sel1) →
              unselected (options sel2)
              = unselected (options sel)
                ++ unselected (map transferredOption (first :: rest))
              ∧ optionValues sel2
                = optionValues sel ++ map registeredValue (first :: rest)) as Hall.
    { intros sel2 H2. rewrite H2, Hopts. split; [done|].
      unfold optionValues. rewrite (unselected_values _ _ H2).
      rewrite (unselected_values _ (options sel ++ map transferredOption (first :: rest))).
      - rewrite map_app, map_map. done.
      - by rewrite Hopts, unselected_app. }
    apply Hall.
    destruct (isMultiple s); [done|].
    destruct (truthy _); [apply unselected_setSelectValue|].
    destruct (filter _ _); simpl; [done|]. apply unselected_setSelectValue.
Qed.

Lemma optionValues_transferred (sel sel1 : SelectEl) (lights : list LightOption) :
  unselected (options sel1)
  = unselected (options sel) ++ unselected (map transferredOption lights) →
  optionValues sel1 = optionValues sel ++ map registeredValue lights.
Proof.
  intros Hopts. unfold optionValues.
  rewrite (unselected_values _ (options sel ++ map transferredOption lights)).
  - by rewrite map_app, map_map.
  - by rewrite Hopts, unselected_app.
Qed.

(** X2.  The initial value of a single select after the transfer: a
    non-empty [value] attribute of the host takes precedence, and is shown
    when some option carries exactly that (unsanitized) string, the selection
    being empty otherwise; without the attribute, the first light-DOM option
    marked [selected] wins, under its sanitized value. *)
Theorem transferOptions_initial_value (s : State) (sel : SelectEl) :
  optionsTransferred s = false → selectElement s = Some sel →
  isMultiple s = false → lightOptions s ≠ [] →
  let s' := stateOf (transferOptions s) in
  let values' := optionValues sel ++ map registeredValue (lightOptions s) in
  (∀ a, getAttribute "value" s = Some a → a ≠ EmptyString →
     currentValue s' = Some (if bool_decide (a ∈ values') then a else EmptyString)) ∧
  (truthy (getAttribute "value" s) = false →
   ∀ o others, filter (fun o => hasSelected o = true) (lightOptions s) = o :: others →
     currentValue s' = Some (registeredValue o)).
Proof.
  intros Hflag Hsel Hm Hl. cbv zeta.
  unfold transferOptions, currentValue. rewrite Hflag. simpl.
  destruct (lightOptions s) as [|first rest] eqn:Hlights; [done|].
  rewrite Hsel.
  destruct (transferOption_fold (first :: rest) sel (validOptions s) [])
    as (sel1 & Hfold & Hopts & _).
  rewrite Hfold, Hm. simpl.
  pose proof (optionValues_transferred sel sel1 (first :: rest) Hopts) as Hvals.
  split.
  - intros a Ha Hne. unfold getAttribute in *. simpl. rewrite Ha. simpl.
    rewrite (nonEmpty_true a Hne). simpl. f_equal.
    case_bool_decide as Hin.
    + apply selectValue_setSelectValue_in. by rewrite Hvals.
    + apply selectValue_setSelectValue_notin. by rewrite Hvals.
  - intros Hno o others Hsome. unfold getAttribute in *. simpl. rewrite Hno.
    simpl in Hsome. rewrite Hsome. simpl. f_equal.
    apply selectValue_setSelectValue_in. rewrite Hvals.
    apply elem_of_app. right. apply list_elem_of_fmap. exists o. split; [done|].
    assert (o ∈ filter (fun o => hasSelected o = true) (first :: rest)) as Hin.
    { simpl. rewrite Hsome. apply elem_of_cons. by left. }
    by apply list_elem_of_filter in Hin as [_ Hin].
Qed.

End SelectTransferFacts.

(** ** secure-select: adding, removing and selecting options *)

Section SelectOptionFacts.

Import Select.

Context {Base : Type} `{Inherited Base}.

Local Abbreviation State := (SecureSelect Base).

(** X3.  After [addOption(v, text)] on a rendered single select the
    sanitized value is registered and carried by an option, so assigning it
    through the setter selects it.  The raw value is another matter: when
    sanitizing changes it and it is not registered on its own, the setter
    ignores it. *)
Theorem addOption_then_select (s : State) (sel : SelectEl) (v text : string) (pre : bool) :
  selectElement s = Some sel → isMultiple s = false →
  let s1 := addOption v text pre s in
  sanitizeValue v ∈ validOptions s1 ∧
  (∃ sel1, selectElement s1 = Some sel1 ∧
           optionValues sel1 = optionValues sel ++ [sanitizeValue v]) ∧
  getValue (setValue (sanitizeValue v) s1) = sanitizeValue v ∧
  (sanitizeValue v ≠ v → v ∉ validOptions s → setValue v s1 = s1).
Proof.
  intros Hsel Hm. cbv zeta. unfold addOption. rewrite Hsel. simpl.
  assert (optionValues
            (appendChild {| value := sanitizeValue v; textContent := sanitizeValue text;
                            selected := pre; disabled := false |} sel)
          = optionValues sel ++ [sanitizeValue v]) as Hvals.
  { unfold optionValues.
    rewrite (unselected_values _ (options sel ++
               [{| value := sanitizeValue v; textContent := sanitizeValue text;
                   selected := pre; disabled := false |}])).
    - by rewrite map_app.
    - by rewrite unselected_appendChild, unselected_app. }
  split; [apply elem_of_union; right; by apply elem_of_singleton|].
  split; [eexists; split; [done|exact Hvals]|].
  split.
  - unfold setValue, getValue. simpl. rewrite Hm.
    rewrite bool_decide_eq_true_2
      by (apply elem_of_union; right; by apply elem_of_singleton).
    simpl. rewrite Hm. apply selectValue_setSelectValue_in.
    rewrite Hvals. apply elem_of_app. right. by apply list_elem_of_singleton.
  - intros Hchanged Hnot. unfold setValue. simpl. rewrite Hm.
    rewrite bool_decide_eq_false_2; [done|].
    intros Hin. apply elem_of_union in Hin as [Hin|Hin]; [done|].
    apply elem_of_singleton in Hin. congruence.
Qed.

Lemma removeFirstWithValue_None (v : string) (os : list OptionEl) :
  removeFirstWithValue v os = None ↔ v ∉ map value os.
Proof.
  induction os as [|o os IH]; simpl.
  - split; [intros _; apply not_elem_of_nil|done].
  - case_bool_decide as Hv.
    + split; [done|]. intros Hnot. exfalso. apply Hnot. apply elem_of_cons. by left.
    + destruct (removeFirstWithValue v os) as [rest|].
      * split; [done|]. intros Hnot. apply not_elem_of_cons in Hnot as [_ Hnot].
        by apply IH in Hnot.
      * split; [|done]. intros _. apply not_elem_of_cons. split; [congruence|by apply IH].
Qed.

Lemma removeFirstWithValue_Some (v : string) (os rest : list OptionEl) :
  removeFirstWithValue v os = Some rest →
  ∃ before o after,
    os = before ++ o :: after ∧ rest = before ++ after ∧
    value o = v ∧ (v ∉ map value before).
Proof.
  revert rest. induction os as [|o os IH]; intros rest; simpl; [done|].
  case_bool_decide as Hv.
  - intros [= <-]. exists [], o, os. repeat split; try done. apply not_elem_of_nil.
  - destruct (removeFirstWithValue v os) as [rest'|] eqn:Hr; [|done].
    intros [= <-]. destruct (IH rest' eq_refl) as (before & o' & after & -> & -> & Ho & Hb).
    exists (o :: before), o', after. repeat split; try done.
    simpl. apply not_elem_of_cons. split; [congruence|done].
Qed.

(** X4.  [removeOption(v)] when no option of the select carries [v] changes
    nothing, not even the valid-option set: a value that is registered but
    has no option stays registered. *)
Theorem removeOption_absent (s : State) (v : string) :
  (∀ sel, selectElement s = Some sel → v ∉ optionValues sel) →
  removeOption v s = s.
Proof.
  intros Habs. unfold removeOption.
  destruct (selectElement s) as [sel|] eqn:Hsel; [|done].
  specialize (Habs sel eq_refl).
  apply removeFirstWithValue_None in Habs. by rewrite Habs.
Qed.

(** X5.  [removeOption(v)] when some option carries [v] takes out the first
    such option and only that one, and unregisters [v]; from then on the
    single-select setter ignores [v].  When [v] was carried by one option
    only, no option carries it afterwards. *)
Theorem removeOption_present (s : State) (sel : SelectEl) (v : string) :
  selectElement s = Some sel → v ∈ optionValues sel →
  let s' := removeOption v s in
  ∃ sel' before o after,
    selectElement s' = Some sel' ∧
    unselected (options sel) = unselected (before ++ o :: after) ∧
    unselected (options sel') = unselected (before ++ after) ∧
    value o = v ∧ (v ∉ map value before) ∧
    validOptions s' = validOptions s ∖ {[v]} ∧
    (isMultiple s = false → setValue v s' = s') ∧
    (v ∉ map value after → v ∉ optionValues sel').
Proof.
  intros Hsel Hin. cbv zeta. unfold removeOption. rewrite Hsel.
  destruct (removeFirstWithValue v (options sel)) as [rest|] eqn:Hr.
  - destruct (removeFirstWithValue_Some v _ _ Hr) as (before & o & after & Hos & -> & Ho & Hb).
    eexists _, before, o, after. simpl.
    split; [done|]. split; [by rewrite Hos|].
    split; [by rewrite unselected_selectednessSetting|].
    split; [done|]. split; [done|]. split; [done|]. split.
    + intros Hm. unfold setValue. simpl. rewrite Hm.
      rewrite bool_decide_eq_false_2; [done|].
      intros Hx. apply elem_of_difference in Hx as [_ Hx]. apply Hx.
      by apply elem_of_singleton.
    + intros Ha. unfold optionValues.
      rewrite (unselected_values _ (before ++ after))
        by apply unselected_selectednessSetting.
      rewrite map_app. intros Hx. apply elem_of_app in Hx as [Hx|Hx]; tauto.
  - apply removeFirstWithValue_None in Hr. by destruct Hr.
Qed.

(** X6.  After [clearOptions()] on a rendered single select there is no
    option and no registered value; the select shows the empty string, and
    the setter ignores every value until options are added again. *)
Theorem clearOptions_empties (s : State) (sel : SelectEl) :
  selectElement s = Some sel → isMultiple s = false →
  let s' := clearOptions s in
  validOptions s' = ∅ ∧
  (∃ sel', selectElement s' = Some sel' ∧ options sel' = []) ∧
  getValue s' = EmptyString ∧
  ∀ v, setValue v s' = s'.
Proof.
  intros Hsel Hm. cbv zeta. unfold clearOptions. rewrite Hsel.
  split; [done|]. split; [by eexists|]. split.
  - unfold getValue. simpl. by rewrite Hm.
  - intros v. unfold setValue. simpl. rewrite Hm.
    by rewrite bool_decide_eq_false_2 by apply not_elem_of_empty.
Qed.

(** X7.  A repeated [render] builds a new select element without options,
    and the transfer, already done once, does not run again: after the render
    and its microtask the select is empty although every value registered
    before is still registered, so assigning a registered value through the
    setter selects nothing. *)
Theorem rerender_loses_options (s : State) (v : string) :
  optionsTransferred s = true →
  let s' := run [ActRender; ActMicrotask] s in
  (∃ sel', selectElement s' = Some sel' ∧ options sel' = []) ∧
  validOptions s' = validOptions s ∧
  currentValue s' = Some EmptyString ∧
  (isMultiple s' = false → v ∈ validOptions s →
   currentValue (setValue v s') = Some EmptyString).
Proof.
  intros Hg. cbv zeta. unfold run. simpl. unfold runMicrotask. simpl.
  rewrite transferOptions_guard by done. simpl.
  split; [by eexists|]. split; [done|]. split; [done|].
  intros Hm Hv. unfold setValue, currentValue. simpl in *. rewrite Hm.
  by rewrite bool_decide_eq_true_2.
Qed.

End SelectOptionFacts.

(** ** secure-select: validation on blur and the [valid] getter *)

Section SelectValidationFacts.

Import Select.

Context {Base : Type} `{Inherited Base}.

Local Abbreviation State := (SecureSelect Base).

Lemma showError_shows (msg : string) (s : State) (sel : SelectEl) :
  selectElement s = Some sel → is_Some (errorContainer s) →
  showError msg s
  = Returned (setSelectElement (Some (withInvalidMark true sel))
                (setErrorContainer (Some {| message := msg; hidden := false |}) s)).
Proof.
  intros Hsel [ec Hec]. unfold showError. rewrite Hec. simpl. by rewrite Hsel.
Qed.

Lemma filter_negb_nil (P : string → bool) (l : list string) :
  Nat.ltb 0 (length (filter (fun v => negb (P v) = true) l)) = negb (forallb P l).
Proof.
  induction l as [|x l IH]; simpl; [done|].
  rewrite filter_cons. case_decide as Hx; destruct (P x) eqn:HP; simpl in *; try done.
Qed.

(** X8.  When the rate limiter lets the call through, the validation run on
    blur and the [valid] getter agree: the validation shows no error exactly
    when the getter answers [true], and when the getter answers [false] the
    validation shows one of its three selection messages and marks the
    select invalid.  (The rate-limit check is assumed to leave the tier
    configuration alone.) *)
Theorem validateAndShowErrors_agrees_with_valid (s : State) (sel : SelectEl) (now : Z) :
  selectElement s = Some sel → is_Some (errorContainer s) →
  RateLimiter.allowed (checkRateLimit now (base s)).1 = true →
  configValidationRequired (checkRateLimit now (base s)).2
  = configValidationRequired (base s) →
  let s0 := setBase (checkRateLimit now (base s)).2 s in
  (getValid s = Some true → validateAndShowErrors now s = Returned s0) ∧
  (getValid s = Some false →
   ∃ msg, msg ∈ selectionMessages ∧
     validateAndShowErrors now s
     = Returned (setSelectElement (Some (withInvalidMark true sel))
                   (setErrorContainer (Some {| message := msg; hidden := false |}) s0))) ∧
  (getValid s = Some true ∨ getValid s = Some false).
Proof.
  intros Hsel Hec Hallowed Hcfg. cbv zeta.
  unfold validateAndShowErrors, getValid.
  destruct (checkRateLimit now (base s)) as [r b] eqn:Hrl. simpl in *.
  rewrite Hallowed, Hsel. simpl. unfold hasAttribute. simpl. rewrite Hcfg.
  set (isRequired := bool_decide (is_Some (attributes s !! "required"))
                     || configValidationRequired (base s)).
  assert (∀ msg, showError msg (setBase b s)
                 = Returned (setSelectElement (Some (withInvalidMark true sel))
                      (setErrorContainer (Some {| message := msg; hidden := false |})
                         (setBase b s)))) as Hshow.
  { intros msg. by apply showError_shows. }
  unfold selectionMessages.
  destruct (isMultiple s).
  - destruct (isRequired && _).
    + split; [done|]. split; [|by right]. intros _. eexists. split; [|apply Hshow].
      apply elem_of_cons. by left.
    + rewrite filter_negb_nil.
      destruct (forallb _ _); simpl.
      * split; [done|]. split; [done|by left].
      * split; [done|]. split; [|by right]. intros _. eexists. split; [|apply Hshow].
        do 2 (apply elem_of_cons; right). apply elem_of_cons. by left.
  - destruct (isRequired && _).
    + split; [done|]. split; [|by right]. intros _. eexists. split; [|apply Hshow].
      apply elem_of_cons; right. apply elem_of_cons. by left.
    + destruct (nonEmpty _ && _).
      * split; [done|]. split; [|by right]. intros _. eexists. split; [|apply Hshow].
        do 2 (apply elem_of_cons; right). apply elem_of_cons. by left.
      * split; [done|]. split; [done|by left].
Qed.

Lemma ceilSeconds_bounds (ms : Z) :
  (ms <= 1000 * ceilSeconds ms < ms + 1000)%Z.
Proof.
  unfold ceilSeconds.
  pose proof (Z.div_mod (- ms) 1000 ltac:(lia)) as Hdm.
  pose proof (Z.mod_pos_bound (- ms) 1000 ltac:(lia)) as Hb.
  lia.
Qed.

(** X9.  When the rate limiter refuses the call, the blur handler shows the
    waiting message and does not examine the selection at all: the message
    names the waiting time in whole seconds, rounded up (never less than
    [retryAfter]); the select is marked invalid; and the blur is audited all
    the same, on the base state left by the rate-limit check. *)
Theorem handleBlur_rate_limited (s : State) (sel : SelectEl) (now : Z) :
  selectElement s = Some sel → is_Some (errorContainer s) →
  RateLimiter.allowed (checkRateLimit now (base s)).1 = false →
  let r := (checkRateLimit now (base s)).1 in
  let s' := stateOf (handleBlur now s) in
  errorContainer s'
  = Some {| message := tooManyAttempts (RateLimiter.retryAfter r); hidden := false |} ∧
  selectElement s' = Some (withInvalidMark true sel) ∧
  (RateLimiter.retryAfter r <= 1000 * ceilSeconds (RateLimiter.retryAfter r)
   < RateLimiter.retryAfter r + 1000)%Z ∧
  base s'
  = audit "select_blurred"
      [("name", DString (name sel));
       ("hasValue",
        DBool (if isMultiple s
               then Nat.ltb 0 (length (selectedValues sel))
               else Nat.ltb 0 (String.length (selectValue sel))))]
      (checkRateLimit now (base s)).2.
Proof.
  intros Hsel Hec Hrefused. cbv zeta.
  unfold handleBlur, validateAndShowErrors.
  destruct (checkRateLimit now (base s)) as [r b] eqn:Hrl. simpl in *.
  rewrite Hrefused. simpl.
  rewrite (showError_shows _ (setBase b s) sel) by done. simpl.
  repeat split; try done; apply ceilSeconds_bounds.
Qed.

End SelectValidationFacts.

(** ** secure-select: change events of a multiple select, attribute writes *)

Section SelectChangeFacts.

Import Select.

Context {Base : Type} `{Inherited Base}.

Local Abbreviation State := (SecureSelect Base).

(** X10.  In a multiple select the change handler never touches the
    selection.  When some selected non-empty value is unregistered it shows
    the error and audits [invalid_option_detected] with exactly those values
    (no event is dispatched, nothing is deselected); otherwise it audits
    [select_changed] with all selected values and dispatches [secure-select]
    with the same list. *)
Theorem handleChange_multiple (s : State) (sel : SelectEl) :
  selectElement s = Some sel → is_Some (errorContainer s) → isMultiple s = true →
  let s' := stateOf (handleChange s) in
  let invalid :=
    filter (fun v => nonEmpty v && negb (bool_decide (v ∈ validOptions s)) = true)
      (selectedValues sel) in
  (invalid ≠ [] →
     selectElement s' = Some (withInvalidMark true sel) ∧
     base s' = audit "invalid_option_detected"
                 [("name", DString (name sel)); ("attemptedValues", DStrings invalid)]
                 (base s) ∧
     dispatchedEvents s' = dispatchedEvents s) ∧
  (invalid = [] →
     selectElement s' = Some (withInvalidMark false sel) ∧
     base s' = audit "select_changed"
                 [("name", DString (name sel)); ("values", DStrings (selectedValues sel))]
                 (base s) ∧
     dispatchedEvents s'
     = dispatchedEvents s
       ++ [{| detailName := name sel; detailValue := DStrings (selectedValues sel);
              detailTier := securityTier (base s') |}]).
Proof.
  intros Hsel [ec Hec] Hm. cbv zeta.
  unfold handleChange, showError, clearErrors, andThen, auditCall, selectName.
  rewrite Hsel, Hm.
  destruct (filter _ (selectedValues sel)) as [|x invalid] eqn:Hinv; simpl.
  - split; [done|]. intros _. rewrite Hec. simpl. by rewrite Hsel.
  - split; [|done]. intros _. rewrite Hec. simpl. by rewrite Hsel.
Qed.

(** X11.  A write of the host's [value] attribute reaches the select without
    any check against the valid-option set and without an audit entry: the
    select then shows the attribute's string when some option carries it, and
    the empty string otherwise. *)
Theorem value_attribute_bypasses_registry (s : State) (sel : SelectEl) (v : string) :
  selectElement s = Some sel →
  let s' := step (ActSetAttribute "value" v) s in
  currentValue s' = Some (if bool_decide (v ∈ optionValues sel) then v else EmptyString) ∧
  base s' = base s ∧
  validOptions s' = validOptions s ∧
  attributes s' !! "value" = Some v.
Proof.
  intros Hsel. cbv zeta. simpl. unfold handleAttributeChange, currentValue. simpl.
  rewrite Hsel.
  case_bool_decide as Hsame; simpl.
  - rewrite Hsel. simpl. rewrite lookup_insert_eq. repeat split; try done.
    injection Hsame as ->. case_bool_decide as Hin; [done|].
    destruct (selectValue_in_options sel) as [->|Hin']; [done|by destruct Hin].
  - rewrite lookup_insert_eq. repeat split; try done. f_equal.
    case_bool_decide as Hin.
    + by apply selectValue_setSelectValue_in.
    + by apply selectValue_setSelectValue_notin.
Qed.

End SelectChangeFacts.

(** ** secure-select: what the options of a reachable instance carry *)

Section SelectSanitizedFacts.

Import Select.

Context {Base : Type} `{Inherited Base}.

Local Abbreviation State := (SecureSelect Base).

Lemma unselected_alter (f : OptionEl → OptionEl) (i : nat) (os : list OptionEl) :
  (∀ o, withSelected false (f o) = withSelected false o) →
  unselected (alter f i os) = unselected os.
Proof.
  intros Hf. unfold unselected. apply list_eq. intros j.
  rewrite !list_lookup_fmap. destruct (decide (i = j)) as [->|Hne].
  - rewrite list_lookup_alter_eq. destruct (os !! j); simpl; [|done]. by rewrite Hf.
  - by rewrite list_lookup_alter_ne.
Qed.

Lemma unselected_imap (f : nat → bool) (os : list OptionEl) :
  unselected (imap (fun j o => withSelected (f j) o) os) = unselected os.
Proof.
  unfold unselected. apply list_eq. intros j.
  rewrite !list_lookup_fmap, list_lookup_imap. by destruct (os !! j).
Qed.

Lemma unselected_setOptionSelected (i : nat) (b : bool) (sel : SelectEl) :
  unselected (options (setOptionSelected i b sel)) = unselected (options sel).
Proof.
  unfold setOptionSelected. rewrite unselected_selectednessSetting. simpl.
  destruct (_ && _); [apply unselected_imap|by apply unselected_alter].
Qed.

Lemma unselected_pickOption (i : nat) (sel : SelectEl) :
  unselected (options (pickOption i sel)) = unselected (options sel).
Proof.
  unfold pickOption. destruct (multiple sel); simpl.
  - by apply unselected_alter.
  - apply unselected_imap.
Qed.

Lemma keepsOptions_refl (s : State) : keepsOptions s s.
Proof. intros sel Hsel. by exists sel. Qed.

Lemma keepsOptions_trans (s1 s2 s3 : State) :
  keepsOptions s1 s2 → keepsOptions s2 s3 → keepsOptions s1 s3.
Proof.
  intros H12 H23 sel3 Hsel3.
  destruct (H23 sel3 Hsel3) as (sel2 & Hsel2 & Heq23).
  destruct (H12 sel2 Hsel2) as (sel1 & Hsel1 & Heq12).
  exists sel1. split; [done|]. by rewrite Heq23.
Qed.

Lemma keepsOptions_same (s s' : State) :
  selectElement s' = selectElement s → keepsOptions s s'.
Proof. intros Heq sel Hsel. exists sel. by rewrite <- Heq. Qed.

Lemma keepsOptions_set (s : State) (sel sel' : SelectEl) (s' : State) :
  selectElement s = Some sel → selectElement s' = Some sel' →
  unselected (options sel') = unselected (options sel) → keepsOptions s s'.
Proof. intros Hsel Hsel' Heq x Hx. exists sel. split; [done|]. congruence. Qed.

Lemma showError_keepsOptions (msg : string) (s : State) :
  keepsOptions s (stateOf (showError msg s)).
Proof.
  unfold showError. destruct (errorContainer s); simpl; [|apply keepsOptions_refl].
  destruct (selectElement s) as [el|] eqn:Hel; simpl.
  - by eapply keepsOptions_set.
  - by apply keepsOptions_same.
Qed.

Lemma clearErrors_keepsOptions (s : State) :
  keepsOptions s (stateOf (clearErrors s)).
Proof.
  unfold clearErrors. destruct (errorContainer s); simpl; [|apply keepsOptions_refl].
  destruct (selectElement s) as [el|] eqn:Hel; simpl.
  - by eapply keepsOptions_set.
  - by apply keepsOptions_same.
Qed.

Lemma handleChange_keepsOptions (s : State) :
  keepsOptions s (stateOf (handleChange s)).
Proof.
  unfold handleChange, andThen, auditCall.
  destruct (selectElement s) as [el|] eqn:Hel; simpl; [|apply keepsOptions_refl].
  pose proof (showError_keepsOptions "Invalid option selected" s) as Hshow.
  pose proof (clearErrors_keepsOptions s) as Hclear.
  destruct (isMultiple s).
  - destruct (Nat.ltb 0 _).
    + destruct (showError _ s) as [s1|s1]; simpl in *; [|done].
      eapply keepsOptions_trans; [exact Hshow|]. by apply keepsOptions_same.
    + destruct (clearErrors s) as [s1|s1]; simpl in *; [|done].
      eapply keepsOptions_trans; [exact Hclear|]. by apply keepsOptions_same.
  - destruct (nonEmpty _ && _).
    + destruct (showError _ s) as [s1|s1]; simpl in *; [|done].
      eapply keepsOptions_trans; [exact Hshow|].
      destruct (selectElement s1) as [el1|] eqn:Hel1; simpl.
      * eapply keepsOptions_set; [exact Hel1|done|]. apply unselected_setSelectValue.
      * by apply keepsOptions_same.
    + destruct (clearErrors s) as [s1|s1]; simpl in *; [|done].
      eapply keepsOptions_trans; [exact Hclear|]. by apply keepsOptions_same.
Qed.

Lemma validateAndShowErrors_keepsOptions (now : Z) (s : State) :
  keepsOptions s (stateOf (validateAndShowErrors now s)).
Proof.
  unfold validateAndShowErrors.
  destruct (checkRateLimit now (base s)) as [r b].
  assert (keepsOptions s (setBase b s)) as Hbase by (by apply keepsOptions_same).
  assert (∀ msg, keepsOptions s (stateOf (showError msg (setBase b s)))) as Hshow.
  { intros msg. eapply keepsOptions_trans; [exact Hbase|apply showError_keepsOptions]. }
  destruct (negb (RateLimiter.allowed r)); [apply Hshow|].
  destruct (selectElement (setBase b s)) as [el|] eqn:Hel; [|exact Hbase].
  repeat (match goal with
          | |- context [if ?c then _ else _] => destruct c
          end; try apply Hshow); exact Hbase.
Qed.

Lemma handleBlur_keepsOptions (now : Z) (s : State) :
  keepsOptions s (stateOf (handleBlur now s)).
Proof.
  unfold handleBlur, andThen.
  pose proof (validateAndShowErrors_keepsOptions now s) as Hv.
  destruct (validateAndShowErrors now s) as [s1|s1]; simpl in *; [|done].
  eapply keepsOptions_trans; [exact Hv|].
  destruct (selectElement s1) eqn:Hel; simpl; by apply keepsOptions_same.
Qed.

Lemma setValue_keepsOptions (v : string) (s : State) :
  keepsOptions s (setValue v s).
Proof.
  unfold setValue. destruct (selectElement s) as [el|] eqn:Hel; [|apply keepsOptions_refl].
  destruct (isMultiple s).
  - eapply keepsOptions_set; [exact Hel|done|].
    assert (∀ (l : list nat) acc,
              unselected (options acc) = unselected (options el) →
              unselected (options (foldl (fun a i => setOptionSelected i false a) acc l))
              = unselected (options el)) as Hclear.
    { induction l as [|i l IH]; intros acc Hacc; simpl; [done|].
      apply IH. by rewrite unselected_setOptionSelected. }
    set (cleared := foldl _ el (seq 0 (length (options el)))).
    assert (unselected (options cleared) = unselected (options el)) as Hc
      by (by apply Hclear).
    clearbody cleared. revert cleared Hc.
    induction (filter _ _) as [|x l IH]; intros acc Hacc; simpl; [done|].
    apply IH. case_bool_decide; [|done].
    destruct (findOptionIndex x acc); [|done]. by rewrite unselected_setOptionSelected.
  - case_bool_decide; [|apply keepsOptions_refl].
    eapply keepsOptions_set; [exact Hel|done|apply unselected_setSelectValue].
Qed.

Lemma handleAttributeChange_keepsOptions (n : string) (old new : option string) (s : State) :
  keepsOptions s (handleAttributeChange n old new s).
Proof.
  unfold handleAttributeChange.
  destruct (selectElement s) as [el|] eqn:Hel; [|apply keepsOptions_refl].
  repeat case_bool_decide; try apply keepsOptions_refl.
  - by eapply keepsOptions_set.
  - eapply keepsOptions_set; [exact Hel|done|apply unselected_setSelectValue].
Qed.

Lemma optionsSanitized_keeps (s s' : State) :
  optionsSanitized s → keepsOptions s s' → optionsSanitized s'.
Proof.
  intros Hs Hk sel' x Hsel' Hx.
  destruct (Hk sel' Hsel') as (sel & Hsel & Heq).
  apply (Hs sel x Hsel). unfold optionValues in *.
  by rewrite <- (unselected_values _ _ Heq).
Qed.

Lemma step_optionsSanitized (a : Action) (s : State) :
  optionsSanitized s → optionsSanitized (step a s).
Proof.
  intros Hs. destruct a as [| |v text pre|v| |v|i| |n v|n| |now| |f]; simpl.
  - intros sel x [= <-] Hx. by apply elem_of_nil in Hx.
  - unfold runMicrotask. destruct (pendingMicrotasks s) as [|k]; [done|].
    set (s0 := setPendingMicrotasks k s).
    assert (optionsSanitized s0) as Hs0 by exact Hs.
    clearbody s0. unfold transferOptions.
    destruct (optionsTransferred s0); simpl; [done|].
    destruct (lightOptions s0) as [|first rest] eqn:Hl; simpl; [exact Hs0|].
    destruct (selectElement s0) as [el|] eqn:Hel; simpl.
    + destruct (transferOption_fold (first :: rest) el (validOptions s0) [])
        as (sel1 & Hfold & Hopts & _).
      simpl in Hfold. rewrite Hfold. simpl.
      intros sel x [= <-] Hx.
      assert (x ∈ optionValues el ++ map registeredValue (first :: rest)) as Hx'.
      { rewrite <- (optionValues_transferred el sel1 (first :: rest) Hopts).
        revert Hx. unfold optionValues.
        destruct (isMultiple s0); [done|].
        destruct (truthy _).
        - by rewrite (unselected_values _ _ (unselected_setSelectValue _ sel1)).
        - match goal with
          | |- context [match ?l with [] => _ | _ :: _ => _ end] =>
              destruct l as [|c cs]
          end; [done|].
          by rewrite (unselected_values _ _ (unselected_setSelectValue _ sel1)). }
      apply elem_of_app in Hx' as [Hx'|Hx']; [by apply (Hs0 el)|].
      apply list_elem_of_fmap in Hx' as (o & -> & _). by eexists.
    + intros sel x Hsel. simpl in Hsel. by rewrite Hel in Hsel.
  - unfold addOption. destruct (selectElement s) as [el|] eqn:Hel; [|done].
    intros sel x [= <-] Hx. unfold optionValues in Hx.
    rewrite (unselected_values _ (options el ++
               [{| value := sanitizeValue v; textContent := sanitizeValue text;
                   selected := pre; disabled := false |}])) in Hx
      by (by rewrite unselected_appendChild, unselected_app).
    rewrite map_app in Hx. apply elem_of_app in Hx as [Hx|Hx]; [by apply (Hs el)|].
    apply list_elem_of_singleton in Hx. simpl in Hx. by eexists.
  - unfold removeOption. destruct (selectElement s) as [el|] eqn:Hel; [|done].
    destruct (removeFirstWithValue v (options el)) as [rest|] eqn:Hr; [|done].
    destruct (removeFirstWithValue_Some v _ _ Hr) as (before & o & after & Hos & -> & _).
    intros sel x [= <-] Hx. apply (Hs el x Hel). unfold optionValues in *.
    rewrite (unselected_values _ (before ++ after))
      in Hx by apply unselected_selectednessSetting.
    rewrite Hos. rewrite map_app in *. simpl.
    apply elem_of_app in Hx as [Hx|Hx]; apply elem_of_app; [by left|].
    right. apply elem_of_cons. by right.
  - unfold clearOptions. destruct (selectElement s) as [el|] eqn:Hel; [|done].
    intros sel x [= <-] Hx. by apply elem_of_nil in Hx.
  - eapply optionsSanitized_keeps; [exact Hs|apply setValue_keepsOptions].
  - unfold userPick. destruct (selectElement s) as [el|] eqn:Hel; [|done].
    destruct (options el !! i) as [o|]; [|done].
    destruct (selectDisabled el || disabled o); [done|].
    eapply optionsSanitized_keeps; [exact Hs|].
    eapply keepsOptions_trans; [|apply handleChange_keepsOptions].
    eapply keepsOptions_set; [exact Hel|done|apply unselected_pickOption].
  - eapply optionsSanitized_keeps; [exact Hs|apply handleChange_keepsOptions].
  - eapply optionsSanitized_keeps; [exact Hs|].
    eapply keepsOptions_trans; [|apply handleAttributeChange_keepsOptions].
    by apply keepsOptions_same.
  - eapply optionsSanitized_keeps; [exact Hs|].
    eapply keepsOptions_trans; [|apply handleAttributeChange_keepsOptions].
    by apply keepsOptions_same.
  - eapply optionsSanitized_keeps; [exact Hs|].
    unfold handleFocus. destruct (selectElement s) eqn:Hel; simpl;
      by apply keepsOptions_same.
  - eapply optionsSanitized_keeps; [exact Hs|apply handleBlur_keepsOptions].
  - exact Hs.
  - exact Hs.
Qed.

(** X12.  In every state an instance can reach, each option of the select
    element carries an output of [sanitizeValue]; so the [value] getter of a
    single select returns the empty string or such an output, whatever the
    page put in the light DOM, passed to [addOption] or wrote to the [value]
    attribute. *)
Theorem reachable_value_sanitized (s : State) :
  reachable s →
  optionsSanitized s ∧
  (isMultiple s = false →
   getValue s = EmptyString ∨ ∃ raw, getValue s = sanitizeValue raw).
Proof.
  intros Hreach.
  assert (optionsSanitized s) as Hs.
  { induction Hreach as [b attrs light|a s _ IH].
    - intros sel x Hsel. discriminate Hsel.
    - by apply step_optionsSanitized. }
  split; [exact Hs|]. intros Hm. unfold getValue. rewrite Hm.
  destruct (selectElement s) as [el|] eqn:Hel; [|by left].
  destruct (selectValue_in_options el) as [->|Hin]; [by left|].
  right. by apply (Hs el).
Qed.

End SelectSanitizedFacts.

(** ** secure-select: the setter of a multiple select *)

Section SelectMultipleFacts.

Import Select.

Context {Base : Type} `{Inherited Base}.

Local Abbreviation State := (SecureSelect Base).

Lemma findOptionIndex_unselected (x : string) (sel sel' : SelectEl) :
  unselected (options sel') = unselected (options sel) →
  findOptionIndex x sel' = findOptionIndex x sel.
Proof.
  intros Heq. unfold findOptionIndex.
  assert (∀ os, fst <$> list_find (fun o => value o = x) (unselected os)
                = fst <$> list_find (fun o => value o = x) os) as Hun.
  { intros os. unfold unselected.
    change (map (withSelected false) os) with (withSelected false <$> os).
    rewrite list_find_fmap.
    change ((fun o => value o = x) ∘ withSelected false) with (fun o : OptionEl => value o = x).
    by destruct (list_find _ os) as [[i o]|]. }
  by rewrite <- (Hun (options sel')), Heq, Hun.
Qed.

Lemma findOptionIndex_lt (x : string) (sel : SelectEl) (i : nat) :
  findOptionIndex x sel = Some i → i < length (options sel).
Proof.
  unfold findOptionIndex. destruct (list_find _ _) as [[j o]|] eqn:Hf; [|done].
  intros [= <-]. apply list_find_Some in Hf as (Hl & _). by eapply lookup_lt_Some.
Qed.

Lemma setOptionSelected_multiple (i : nat) (b : bool) (sel : SelectEl) :
  multiple sel = true →
  setOptionSelected i b sel = withOptions (alter (withSelected b) i (options sel)) sel.
Proof.
  intros Hm. unfold setOptionSelected, selectednessSetting. simpl. by rewrite Hm.
Qed.

Lemma selectedAt_setOptionSelected (i j : nat) (b : bool) (sel : SelectEl) :
  multiple sel = true →
  selectedAt (setOptionSelected i b sel) j
  = if bool_decide (i = j ∧ j < length (options sel)) then b else selectedAt sel j.
Proof.
  intros Hm. rewrite setOptionSelected_multiple by done.
  unfold selectedAt. simpl. destruct (decide (i = j)) as [->|Hne].
  - rewrite list_lookup_alter_eq. destruct (options sel !! j) as [o|] eqn:Ho; simpl.
    + rewrite bool_decide_eq_true_2; [done|]. split; [done|]. by eapply lookup_lt_Some.
    + rewrite bool_decide_eq_false_2; [done|]. intros [_ Hlt].
      apply lookup_ge_None in Ho. lia.
  - rewrite list_lookup_alter_ne by done.
    rewrite bool_decide_eq_false_2; [done|]. by intros [? _].
Qed.

Lemma deselect_all (l : list nat) : ∀ acc : SelectEl,
  multiple acc = true →
  let res := foldl (fun a i => setOptionSelected i false a) acc l in
  multiple res = true ∧
  unselected (options res) = unselected (options acc) ∧
  ∀ j, selectedAt res j = if bool_decide (j ∈ l) then false else selectedAt acc j.
Proof.
  induction l as [|i l IH]; intros acc Hm; cbn [foldl].
  - split; [done|]. split; [done|]. intros j.
    rewrite bool_decide_eq_false_2; [done|]. apply not_elem_of_nil.
  - assert (multiple (setOptionSelected i false acc) = true) as Hm'
      by (rewrite setOptionSelected_multiple by done; done).
    destruct (IH _ Hm') as (Hmr & Hun & Hsel).
    split; [done|]. split; [by rewrite Hun, unselected_setOptionSelected|].
    intros j. rewrite Hsel, selectedAt_setOptionSelected by done.
    destruct (decide (j ∈ l)) as [Hin|Hnin].
    + rewrite !bool_decide_eq_true_2; [done| |done]. apply elem_of_cons. by right.
    + rewrite (bool_decide_eq_false_2 (j ∈ l)) by done.
      destruct (decide (i = j)) as [->|Hne].
      * rewrite (bool_decide_eq_true_2 (j ∈ j :: l)) by (apply elem_of_cons; by left).
        case_bool_decide as Hc; [done|].
        unfold selectedAt. destruct (options acc !! j) as [o|] eqn:Ho; [|done].
        exfalso. apply Hc. split; [done|]. by eapply lookup_lt_Some.
      * rewrite bool_decide_eq_false_2 by (by intros [? _]).
        rewrite bool_decide_eq_false_2; [done|].
        intros Hin. apply elem_of_cons in Hin as [->|Hin]; done.
Qed.

Lemma select_requested (valid : gset string) (sel : SelectEl) (vs : list string) :
  ∀ acc : SelectEl,
  multiple acc = true → unselected (options acc) = unselected (options sel) →
  let res :=
    foldl (fun a x =>
             if bool_decide (x ∈ valid) then
               match findOptionIndex x a with
               | Some i => setOptionSelected i true a
               | None => a
               end
             else a) acc vs in
  unselected (options res) = unselected (options sel) ∧
  ∀ j, selectedAt res j = true ↔
       selectedAt acc j = true ∨
       ∃ x, x ∈ vs ∧ x ∈ valid ∧ findOptionIndex x sel = Some j.
Proof.
  induction vs as [|x vs IH]; intros acc Hm Hun; cbn [foldl].
  - split; [done|]. intros j. split; [by left|].
    intros [Hj|(x & Hx & _)]; [done|]. by apply elem_of_nil in Hx.
  - set (acc' := if bool_decide (x ∈ valid) then
                   match findOptionIndex x acc with
                   | Some i => setOptionSelected i true acc
                   | None => acc
                   end
                 else acc).
    assert (multiple acc' = true ∧ unselected (options acc') = unselected (options sel) ∧
            ∀ j, selectedAt acc' j = true ↔
                 selectedAt acc j = true ∨ (x ∈ valid ∧ findOptionIndex x sel = Some j))
      as (Hm' & Hun' & Hsel').
    { unfold acc'. rewrite (findOptionIndex_unselected x sel acc Hun).
      case_bool_decide as Hv; [|by (split; [done|split; [done|intros j; tauto]])].
      destruct (findOptionIndex x sel) as [i|] eqn:Hi.
      - split; [by rewrite setOptionSelected_multiple|].
        split; [by rewrite unselected_setOptionSelected|].
        intros j. rewrite selectedAt_setOptionSelected by done.
        pose proof (findOptionIndex_lt x sel i Hi) as Hlt.
        rewrite <- (unselected_length _ _ Hun) in Hlt.
        case_bool_decide as Hc.
        + destruct Hc as [-> _]. split; [by right|done].
        + split; [by left|]. intros [Hj|[_ [= ->]]]; [done|]. by destruct Hc.
      - split; [done|]. split; [done|]. intros j. split; [by left|].
        by intros [Hj|[_ ?]]. }
    destruct (IH acc' Hm' Hun') as (Hres & Hsel). split; [exact Hres|].
    intros j. rewrite Hsel, Hsel'. split.
    + intros [[Hj|[Hv Hi]]|(y & Hy & Hv & Hi)].
      * by left.
      * right. exists x. split; [apply elem_of_cons; by left|done].
      * right. exists y. split; [apply elem_of_cons; by right|done].
    + intros [Hj|(y & Hy & Hv & Hi)]; [by left; left|].
      apply elem_of_cons in Hy as [->|Hy]; [by left; right|].
      right. by exists y.
Qed.

(** X13.  The setter of a multiple select deselects everything, then
    selects, for each requested value (the comma-separated pieces, trimmed,
    empty ones dropped) that is registered, the first option carrying it: an
    option ends up selected exactly when it is the first option of a
    requested, registered value.  The options themselves are untouched. *)
Theorem setValue_multiple (s : State) (sel : SelectEl) (v : string) :
  selectElement s = Some sel → isMultiple s = true → multiple sel = true →
  ∃ sel',
    selectElement (setValue v s) = Some sel' ∧
    unselected (options sel') = unselected (options sel) ∧
    ∀ j, selectedAt sel' j = true ↔
         ∃ x, x ∈ requestedValues v ∧ x ∈ validOptions s ∧ findOptionIndex x sel = Some j.
Proof.
  intros Hsel Hmulti Hm. unfold setValue. rewrite Hsel, Hmulti.
  destruct (deselect_all (seq 0 (length (options sel))) sel Hm) as (Hm1 & Hun1 & Hsel1).
  set (cleared := foldl _ sel (seq 0 (length (options sel)))) in *.
  destruct (select_requested (validOptions s) sel (requestedValues v) cleared Hm1 Hun1)
    as (Hun2 & Hsel2).
  eexists. split; [done|]. split; [exact Hun2|].
  intros j. unfold requestedValues in *. rewrite Hsel2, Hsel1.
  split; [|by right]. intros [Hj|Hj]; [|done].
  case_bool_decide as Hin; [done|].
  unfold selectedAt in Hj. destruct (options sel !! j) as [o|] eqn:Ho; [|done].
  exfalso. apply Hin. apply elem_of_seq. split; [lia|].
  apply lookup_lt_Some in Ho. lia.
Qed.

End SelectMultipleFacts.

(** ** secure-select: the properties above on the sample instances *)

Lemma transferOptions_registers_all_witness :
  Select.optionsTransferred Examples.renderedCountry = false ∧
  Select.validOptions
    (stateOf (@Select.transferOptions _ Select.specBase Examples.renderedCountry))
  = Select.validOptions Examples.renderedCountry
    ∪ list_to_set (map (@Select.registeredValue _ Select.specBase)
                     (Select.lightOptions Examples.renderedCountry)).
Proof.
  assert (Select.optionsTransferred Examples.renderedCountry = false) as Hg
    by (vm_compute; reflexivity).
  assert (Select.selectElement Examples.renderedCountry
          = Some Examples.renderedCountryElement) as Hsel
    by (vm_compute; reflexivity).
  split; [exact Hg|].
  destruct (@transferOptions_registers_all _ Select.specBase _ _ Hg Hsel)
    as (sel' & _ & _ & Hv & _).
  exact Hv.
Defined.

Lemma transferOptions_initial_value_witness :
  @Select.currentValue _
    (stateOf (@Select.transferOptions _ Select.specBase Examples.renderedCountry))
  = Some (@Select.registeredValue _ Select.specBase
            {| Select.valueAttr := Some "uk"; Select.lightText := "United Kingdom";
               Select.hasSelected := true; Select.hasDisabled := false |}).
Proof.
  assert (Select.optionsTransferred Examples.renderedCountry = false) as Hg
    by (vm_compute; reflexivity).
  assert (Select.selectElement Examples.renderedCountry
          = Some Examples.renderedCountryElement) as Hsel
    by (vm_compute; reflexivity).
  assert (Select.isMultiple Examples.renderedCountry = false) as Hsingle
    by (vm_compute; reflexivity).
  assert (Select.lightOptions Examples.renderedCountry ≠ []) as Hne
    by (vm_compute; discriminate).
  assert (Select.truthy (Select.getAttribute "value" Examples.renderedCountry) = false)
    as Hattr by (vm_compute; reflexivity).
  assert (filter (fun o => Select.hasSelected o = true)
            (Select.lightOptions Examples.renderedCountry)
          = [ {| Select.valueAttr := Some "uk"; Select.lightText := "United Kingdom";
                 Select.hasSelected := true; Select.hasDisabled := false |} ]) as Hf
    by (vm_compute; reflexivity).
  pose proof (@transferOptions_initial_value _ Select.specBase _ _ Hg Hsel Hsingle Hne)
    as Hx.
  cbv zeta in Hx.
  exact (proj2 Hx Hattr _ _ Hf).
Defined.

Lemma addOption_then_select_witness :
  @Select.getValue _
    (@Select.setValue _ Select.specBase (@Select.sanitizeValue _ Select.specBase "fr")
       (@Select.addOption _ Select.specBase "fr" "France" false Select.countrySelect))
  = @Select.sanitizeValue _ Select.specBase "fr".
Proof.
  assert (Select.selectElement Select.countrySelect = Some Select.countrySelectElement)
    as Hsel by (vm_compute; reflexivity).
  assert (Select.isMultiple Select.countrySelect = false) as Hsingle
    by (vm_compute; reflexivity).
  pose proof (@addOption_then_select _ Select.specBase _ _ "fr" "France" false
                Hsel Hsingle) as Hx.
  cbv zeta in Hx.
  exact (proj1 (proj2 (proj2 Hx))).
Defined.

Lemma removeOption_absent_witness :
  @Select.removeOption _ "fr" Select.countrySelect = Select.countrySelect.
Proof.
  assert (Select.selectElement Select.countrySelect = Some Select.countrySelectElement)
    as Hsel by (vm_compute; reflexivity).
  assert (bool_decide ("fr" ∈ Select.optionValues Select.countrySelectElement) = false)
    as Hb by (vm_compute; reflexivity).
  apply bool_decide_eq_false in Hb.
  apply removeOption_absent.
  intros sel Hsel'. rewrite Hsel in Hsel'. injection Hsel' as <-. exact Hb.
Defined.

Lemma removeOption_present_witness :
  ∃ sel',
    Select.selectElement (@Select.removeOption _ "us" Select.countrySelect) = Some sel' ∧
    Select.validOptions (@Select.removeOption _ "us" Select.countrySelect)
    = Select.validOptions Select.countrySelect ∖ {["us"]}.
Proof.
  assert (Select.selectElement Select.countrySelect = Some Select.countrySelectElement)
    as Hsel by (vm_compute; reflexivity).
  assert (bool_decide ("us" ∈ Select.optionValues Select.countrySelectElement) = true)
    as Hb by (vm_compute; reflexivity).
  apply bool_decide_eq_true in Hb.
  pose proof (@removeOption_present _ Select.specBase _ _ "us" Hsel Hb) as Hx.
  cbv zeta in Hx.
  destruct Hx as (sel' & before & o & after & H1 & _ & _ & _ & _ & H2 & _).
  exists sel'. split; [exact H1|exact H2].
Defined.

Lemma clearOptions_empties_witness :
  Select.validOptions (@Select.clearOptions _ Select.countrySelect) = ∅ ∧
  @Select.getValue _ (@Select.clearOptions _ Select.countrySelect)
  = EmptyString.
Proof.
  assert (Select.selectElement Select.countrySelect = Some Select.countrySelectElement)
    as Hsel by (vm_compute; reflexivity).
  assert (Select.isMultiple Select.countrySelect = false) as Hsingle
    by (vm_compute; reflexivity).
  pose proof (@clearOptions_empties _ Select.specBase _ _ Hsel Hsingle) as Hx.
  cbv zeta in Hx.
  destruct Hx as (H1 & _ & H2 & _).
  split; [exact H1|exact H2].
Defined.

Lemma rerender_loses_options_witness :
  Select.validOptions
    (@Select.run _ Select.specBase [Select.ActRender; Select.ActMicrotask]
       Select.countrySelect)
  = Select.validOptions Select.countrySelect ∧
  @Select.currentValue _
    (@Select.run _ Select.specBase [Select.ActRender; Select.ActMicrotask]
       Select.countrySelect)
  = Some EmptyString.
Proof.
  assert (Select.optionsTransferred Select.countrySelect = true) as Hg
    by (vm_compute; reflexivity).
  pose proof (@rerender_loses_options _ Select.specBase _ "uk" Hg) as Hx.
  cbv zeta in Hx.
  destruct Hx as (_ & H1 & H2 & _).
  split; [exact H1|exact H2].
Defined.

Lemma validateAndShowErrors_agrees_with_valid_witness :
  @Select.validateAndShowErrors _ Select.specBase 0%Z Select.countrySelect
  = Returned
      (Select.setBase
         (@Select.checkRateLimit _ Select.specBase 0%Z
            (Select.base Select.countrySelect)).2
         Select.countrySelect).
Proof.
  assert (Select.selectElement Select.countrySelect = Some Select.countrySelectElement)
    as Hsel by (vm_compute; reflexivity).
  assert (is_Some (Select.errorContainer Select.countrySelect)) as Hec
    by (vm_compute; eexists; reflexivity).
  assert (RateLimiter.allowed
            (@Select.checkRateLimit _ Select.specBase 0%Z
               (Select.base Select.countrySelect)).1 = true) as Hallowed
    by (vm_compute; reflexivity).
  assert (@Select.configValidationRequired _ Select.specBase
            (@Select.checkRateLimit _ Select.specBase 0%Z
               (Select.base Select.countrySelect)).2
          = @Select.configValidationRequired _ Select.specBase
              (Select.base Select.countrySelect)) as Hcfg
    by (vm_compute; reflexivity).
  assert (@Select.getValid _ Select.specBase Select.countrySelect = Some true) as Hvalid
    by (vm_compute; reflexivity).
  pose proof (@validateAndShowErrors_agrees_with_valid _ Select.specBase _ _ 0%Z
                Hsel Hec Hallowed Hcfg) as Hx.
  cbv zeta in Hx.
  exact (proj1 Hx Hvalid).
Defined.

Lemma handleBlur_rate_limited_witness :
  Select.selectElement
    (stateOf (@Select.handleBlur _ Select.specBase 500%Z Examples.blurredCountry))
  = Some (Select.withInvalidMark true Examples.blurredCountryElement).
Proof.
  assert (Select.selectElement Examples.blurredCountry
          = Some Examples.blurredCountryElement) as Hsel
    by (vm_compute; reflexivity).
  assert (is_Some (Select.errorContainer Examples.blurredCountry)) as Hec
    by (vm_compute; eexists; reflexivity).
  assert (RateLimiter.allowed
            (@Select.checkRateLimit _ Select.specBase 500%Z
               (Select.base Examples.blurredCountry)).1 = false) as Hrefused
    by (vm_compute; reflexivity).
  pose proof (@handleBlur_rate_limited _ Select.specBase _ _ 500%Z Hsel Hec Hrefused)
    as Hx.
  cbv zeta in Hx.
  exact (proj1 (proj2 Hx)).
Defined.

Lemma handleChange_multiple_witness :
  Select.selectElement
    (stateOf (@Select.handleChange _ Examples.trimmingBase Examples.tagSelect))
  = Some (Select.withInvalidMark false Examples.tagSelectElement).
Proof.
  assert (Select.selectElement Examples.tagSelect = Some Examples.tagSelectElement)
    as Hsel by (vm_compute; reflexivity).
  assert (is_Some (Select.errorContainer Examples.tagSelect)) as Hec
    by (vm_compute; eexists; reflexivity).
  assert (Select.isMultiple Examples.tagSelect = true) as Hmulti
    by (vm_compute; reflexivity).
  assert (filter (fun v => Select.nonEmpty v
                           && negb (bool_decide (v ∈ Select.validOptions Examples.tagSelect))
                           = true)
            (Select.selectedValues Examples.tagSelectElement) = []) as Hnone
    by (vm_compute; reflexivity).
  pose proof (@handleChange_multiple _ Examples.trimmingBase _ _ Hsel Hec Hmulti) as Hx.
  cbv zeta in Hx.
  exact (proj1 (proj2 Hx Hnone)).
Defined.

Lemma value_attribute_bypasses_registry_witness :
  Select.base
    (@Select.step _ Select.specBase (Select.ActSetAttribute "value" "us")
       Select.countrySelect)
  = Select.base Select.countrySelect ∧
  Select.validOptions
    (@Select.step _ Select.specBase (Select.ActSetAttribute "value" "us")
       Select.countrySelect)
  = Select.validOptions Select.countrySelect.
Proof.
  assert (Select.selectElement Select.countrySelect = Some Select.countrySelectElement)
    as Hsel by (vm_compute; reflexivity).
  pose proof (@value_attribute_bypasses_registry _ Select.specBase _ _ "us" Hsel) as Hx.
  cbv zeta in Hx.
  destruct Hx as (_ & H1 & H2 & _).
  split; [exact H1|exact H2].
Defined.

Lemma reachable_value_sanitized_witness :
  @Select.optionsSanitized _ Select.specBase Select.countrySelect.
Proof.
  assert (@Select.reachable _ Select.specBase Select.countrySelect) as Hreach.
  { apply reachable_run, Select.reach_construct. }
  exact (proj1 (@reachable_value_sanitized _ Select.specBase _ Hreach)).
Defined.

Lemma setValue_multiple_witness :
  ∃ sel',
    Select.selectElement (@Select.setValue _ Examples.trimmingBase "red, blue"
                            Examples.tagSelect) = Some sel' ∧
    Select.unselected (Select.options sel')
    = Select.unselected (Select.options Examples.tagSelectElement).
Proof.
  assert (Select.selectElement Examples.tagSelect = Some Examples.tagSelectElement)
    as Hsel by (vm_compute; reflexivity).
  assert (Select.isMultiple Examples.tagSelect = true) as Hmulti
    by (vm_compute; reflexivity).
  assert (Select.multiple Examples.tagSelectElement = true) as Hel
    by (vm_compute; reflexivity).
  destruct (@setValue_multiple _ Examples.trimmingBase _ _ "red, blue" Hsel Hmulti Hel)
    as (sel' & H1 & H2 & _).
  exists sel'. split; [exact H1|exact H2].
Defined.

(** ** String and array operations *)

Section JsFacts.

Import Js.

Lemma str_app_nil_r (s : string) : s +:+ EmptyString = s.
Proof. induction s as [|c s IH]; [done|]. by rewrite append_cons, IH. Qed.

Lemma str_app_assoc (a b c : string) : (a +:+ b) +:+ c = a +:+ b +:+ c.
Proof. induction a as [|x a IH]; [done|]. by rewrite !append_cons, IH. Qed.

Lemma str_app_length (a b : string) :
  String.length (a +:+ b) = String.length a + String.length b.
Proof. induction a as [|x a IH]; [done|]. rewrite append_cons. simpl. by rewrite IH. Qed.

Lemma startsWith_spec (s p : string) :
  startsWith s p = true ↔ ∃ r, s = p +:+ r.
Proof.
  revert s. induction p as [|c p IH]; intros s; simpl.
  - split; [intros _; exists s; symmetry; apply append_empty|done].
  - destruct s as [|d s].
    + split; [done|]. intros [r Hr]. rewrite append_cons in Hr. discriminate.
    + rewrite andb_true_iff, bool_decide_eq_true, IH. split.
      * intros [-> [r ->]]. exists r. by rewrite append_cons.
      * intros [r Hr]. rewrite append_cons in Hr. injection Hr as -> ->. eauto.
Qed.

Lemma includes_spec (s sub : string) :
  includes s sub = true ↔ ∃ pre post, s = pre +:+ sub +:+ post.
Proof.
  induction s as [|c s IH].
  - cbn [includes]. rewrite orb_false_r, startsWith_spec. split.
    + intros [r Hr]. exists EmptyString, r. by rewrite append_empty.
    + intros ([|x pre] & post & Hs).
      * rewrite append_empty in Hs. eauto.
      * rewrite append_cons in Hs. discriminate.
  - cbn [includes]. rewrite orb_true_iff, startsWith_spec, IH. split.
    + intros [[r Hr]|(pre & post & ->)].
      * exists EmptyString, r. by rewrite append_empty.
      * exists (String c pre), post. by rewrite append_cons.
    + intros ([|x pre] & post & Hs).
      * rewrite append_empty in Hs. left. eauto.
      * rewrite append_cons in Hs. injection Hs as -> ->. right. eauto.
Qed.

Lemma includes_empty (sub : string) :
  sub ≠ EmptyString → includes EmptyString sub = false.
Proof. destruct sub; [done|reflexivity]. Qed.

Lemma takeString_app (p r : string) : takeString (String.length p) (p +:+ r) = p.
Proof. induction p as [|c p IH]; [by destruct r|]. rewrite append_cons. simpl. by rewrite IH. Qed.

Lemma dropString_app (p r : string) : dropString (String.length p) (p +:+ r) = r.
Proof. induction p as [|c p IH]; [by destruct r|]. rewrite append_cons. simpl. by rewrite IH. Qed.

Lemma takeString_dropString (n : nat) (s : string) :
  takeString n s +:+ dropString n s = s.
Proof.
  revert s. induction n as [|n IH]; intros [|c s]; simpl; try done.
  by rewrite append_cons, IH.
Qed.

Lemma length_takeString (n : nat) (s : string) :
  n <= String.length s → String.length (takeString n s) = n.
Proof.
  revert s. induction n as [|n IH]; intros [|c s]; simpl; try done; try lia.
  intros Hn. rewrite IH; lia.
Qed.

Lemma length_dropString (n : nat) (s : string) :
  String.length (dropString n s) = String.length s - n.
Proof. revert s. induction n as [|n IH]; intros [|c s]; simpl; try done. Qed.

Lemma endsWith_spec (s suf : string) :
  endsWith s suf = true ↔ ∃ p, s = p +:+ suf.
Proof.
  unfold endsWith. rewrite andb_true_iff, Nat.leb_le, bool_decide_eq_true. split.
  - intros [Hlen Hdrop]. exists (takeString (String.length s - String.length suf) s).
    rewrite <- (takeString_dropString (String.length s - String.length suf) s) at 1.
    by rewrite Hdrop.
  - intros [p ->]. rewrite str_app_length. split; [lia|].
    replace (String.length p + String.length suf - String.length suf)
      with (String.length p) by lia.
    apply dropString_app.
Qed.

Lemma dropLast_app (p suf : string) : dropLast (String.length suf) (p +:+ suf) = p.
Proof.
  unfold dropLast. rewrite str_app_length.
  replace (String.length p + String.length suf - String.length suf)
    with (String.length p) by lia.
  apply takeString_app.
Qed.

Lemma replaceAll_app (c : ascii) (r a b : string) :
  replaceAll c r (a +:+ b) = replaceAll c r a +:+ replaceAll c r b.
Proof.
  induction a as [|x a IH]; [done|].
  rewrite append_cons. cbn [replaceAll]. by rewrite IH, str_app_assoc.
Qed.

Lemma length_repeatString (b : string) (n : nat) :
  String.length (repeatString b n) = n * String.length b.
Proof.
  induction n as [|n IH]; [done|].
  cbn [repeatString]. rewrite str_app_length, IH. lia.
Qed.

Lemma split_lastChars (k : nat) (s : string) :
  k <= String.length s →
  s = dropLast k s +:+ lastChars k s ∧ String.length (lastChars k s) = k
  ∧ String.length (dropLast k s) = String.length s - k.
Proof.
  intros Hk. unfold dropLast, lastChars. split; [by rewrite takeString_dropString|].
  rewrite length_dropString, length_takeString by lia. lia.
Qed.

Lemma jsSlice_take_drop {A} (l : list A) (first count : Z) :
  (0 <= first)%Z → (0 <= count)%Z →
  jsSlice l first (first + count)
  = take (Z.to_nat count) (drop (Z.to_nat first) l).
Proof.
  intros Hfirst Hcount. unfold jsSlice, relativeIndex.
  destruct (Z.ltb_spec first 0) as [?|_]; [lia|].
  destruct (Z.ltb_spec (first + count) 0) as [?|_]; [lia|].
  destruct (Z.le_gt_cases (Z.of_nat (length l)) first) as [Hbig|Hsmall].
  - rewrite !Z.min_r by lia. rewrite Z.sub_diag.
    rewrite (drop_ge l (Z.to_nat first)) by lia. by rewrite take_nil.
  - rewrite (Z.min_l first) by lia.
    destruct (Z.le_gt_cases (first + count) (Z.of_nat (length l))) as [Hin|Hout].
    + rewrite Z.min_l by lia. f_equal. lia.
    + rewrite Z.min_r by lia.
      rewrite !take_ge; [done|rewrite length_drop; lia|rewrite length_drop; lia].
Qed.

End JsFacts.

(** ** secure-table: sanitizing and masking of cells *)

Section TableCellFacts.

Import Js Table.

Lemma sanitize_passes_char (c : ascii) :
  replaceAll squote "&#x27;"
    (replaceAll dquote "&quot;"
      (replaceAll ">"%char "&gt;"
        (replaceAll "<"%char "&lt;"
          (if bool_decide (c = "&"%char) then "&amp;" else String c EmptyString))))
  = entityOf c.
Proof. destruct c as [[] [] [] [] [] [] [] []]; vm_compute; reflexivity. Qed.

Lemma sanitize_passes (s : string) :
  replaceAll squote "&#x27;"
    (replaceAll dquote "&quot;"
      (replaceAll ">"%char "&gt;"
        (replaceAll "<"%char "&lt;" (replaceAll "&"%char "&amp;" s))))
  = encodeEach s.
Proof.
  induction s as [|c s IH]; [reflexivity|].
  cbn [replaceAll encodeEach].
  by rewrite !replaceAll_app, IH, sanitize_passes_char.
Qed.

Lemma sanitize_value (v : JsValue) :
  sanitize v = if truthyValue v then encodeEach (toJsString v) else EmptyString.
Proof.
  unfold sanitize. destruct (truthyValue v); [|reflexivity].
  cbn [negb]. apply sanitize_passes.
Qed.

Lemma chars_append (a b : string) :
  Sanitizer.chars (a +:+ b) = Sanitizer.chars a ++ Sanitizer.chars b.
Proof. induction a as [|x a IH]; [done|]. rewrite append_cons. simpl. by rewrite IH. Qed.

Lemma decodeEntities_entityOf (c : ascii) (rest : string) :
  decodeEntities (entityOf c +:+ rest) = String c (decodeEntities rest).
Proof. destruct c as [[] [] [] [] [] [] [] []]; reflexivity. Qed.

Lemma entityOf_facts (c : ascii) :
  forallb (fun x => negb (Sanitizer.isMarkup x)) (Sanitizer.chars (entityOf c)) = true ∧
  Nat.leb 1 (String.length (entityOf c)) = true ∧
  (Sanitizer.isSpecial c = true →
   Nat.ltb 1 (String.length (entityOf c)) = true ∧
   existsb Sanitizer.isSpecial (Sanitizer.chars (entityOf c)) = true).
Proof.
  destruct c as [[] [] [] [] [] [] [] []];
    (split; [vm_compute; reflexivity|split; [vm_compute; reflexivity|]]);
    intros Hc; vm_compute in Hc; try discriminate Hc;
    split; vm_compute; reflexivity.
Qed.

(** X14.  The five replacement passes of [#sanitize] amount to encoding each
    character of the input on its own: the ampersand pass comes first, so no
    entity written by one pass is rewritten by a later one.  Falsy values
    (the empty string, [0], [null], [undefined]) give the empty string, other
    values are encoded through their string form.  The output holds none of
    the characters [<], [>], double quote and apostrophe, and for a string
    the input can be read back from it, so no two strings are sanitized to
    the same text. *)
Theorem sanitize_encodes_each (v : JsValue) :
  sanitize v = (if truthyValue v then encodeEach (toJsString v) else EmptyString) ∧
  (∀ c rest, sanitize (JsString (String c rest))
             = entityOf c +:+ sanitize (JsString rest)) ∧
  forallb (fun c => negb (Sanitizer.isMarkup c)) (Sanitizer.chars (sanitize v)) = true ∧
  ∀ s, decodeEntities (sanitize (JsString s)) = s.
Proof.
  assert (∀ s, forallb (fun c => negb (Sanitizer.isMarkup c))
                 (Sanitizer.chars (encodeEach s)) = true) as Hsafe.
  { induction s as [|c s IH]; [reflexivity|].
    cbn [encodeEach]. rewrite chars_append, forallb_app, IH.
    by rewrite (proj1 (entityOf_facts c)). }
  split; [apply sanitize_value|]. split; [|split].
  - intros c rest. rewrite !sanitize_value. cbn [truthyValue toJsString encodeEach].
    destruct rest; reflexivity.
  - rewrite sanitize_value. destruct (truthyValue v); [apply Hsafe|reflexivity].
  - intros s. rewrite sanitize_value. destruct s as [|c s]; [reflexivity|].
    cbn [truthyValue toJsString]. generalize (String c s). clear c s.
    induction s as [|c s IH]; [reflexivity|].
    cbn [encodeEach]. by rewrite decodeEntities_entityOf, IH.
Qed.

Lemma encodeEach_length (s : string) : String.length s <= String.length (encodeEach s).
Proof.
  induction s as [|c s IH]; [done|].
  cbn [encodeEach]. rewrite str_app_length.
  pose proof (proj1 (proj2 (entityOf_facts c))) as Hc. apply Nat.leb_le in Hc.
  simpl. lia.
Qed.

Lemma encodeEach_special (s : string) :
  existsb Sanitizer.isSpecial (Sanitizer.chars s) = true →
  String.length s < String.length (encodeEach s) ∧
  existsb Sanitizer.isSpecial (Sanitizer.chars (encodeEach s)) = true.
Proof.
  induction s as [|c s IH]; [discriminate|].
  cbn [Sanitizer.chars existsb encodeEach].
  rewrite chars_append, existsb_app, str_app_length.
  pose proof (encodeEach_length s) as Hlen.
  destruct (entityOf_facts c) as (_ & Hone & Hspecial).
  apply Nat.leb_le in Hone.
  destruct (Sanitizer.isSpecial c) eqn:Hc.
  - intros _. destruct (Hspecial eq_refl) as [Hlt ->]. apply Nat.ltb_lt in Hlt.
    split; [simpl; lia|reflexivity].
  - cbn [orb]. intros Hs. destruct (IH Hs) as [Hlt ->].
    split; [simpl; lia|apply orb_true_r].
Qed.

(** X15.  [#sanitize] is not idempotent: a string holding one of the five
    characters grows with each application (the ampersand of the entity is
    encoded again), so text that was sanitized already must not be passed
    through it a second time. *)
Theorem sanitize_twice_differs (s : string) :
  existsb Sanitizer.isSpecial (Sanitizer.chars s) = true →
  String.length s < String.length (sanitize (JsString s)) ∧
  String.length (sanitize (JsString s))
  < String.length (sanitize (JsString (sanitize (JsString s)))) ∧
  sanitize (JsString (sanitize (JsString s))) ≠ sanitize (JsString s).
Proof.
  intros Hs.
  assert (∀ x, sanitize (JsString x) = encodeEach x) as Hsan.
  { intros x. rewrite sanitize_value. by destruct x. }
  rewrite !Hsan.
  destruct (encodeEach_special s Hs) as [Hlt Hs'].
  destruct (encodeEach_special _ Hs') as [Hlt' _].
  split; [exact Hlt|]. split; [exact Hlt'|].
  intros Heq. rewrite Heq in Hlt'. lia.
Qed.

(** X16.  Masking in a [sensitive] column: a value of more than four
    characters is shown as one bullet per hidden character followed by its
    last four characters as they are (these are not entity-encoded); a
    non-empty value of at most four characters is not masked at all, only
    sanitized. *)
Theorem maskValue_sensitive (bullet s : string) :
  s ≠ EmptyString →
  let shown := maskValue bullet (JsString s)
                 (Some (SecurityConfig.tierString SecurityConfig.SENSITIVE)) in
  (String.length s <= 4 → shown = sanitize (JsString s)) ∧
  (4 < String.length s →
   ∃ hidden tail,
     s = hidden +:+ tail ∧ String.length tail = 4 ∧
     shown = repeatString bullet (String.length hidden) +:+ tail ∧
     (String.length bullet = 1 → String.length shown = String.length s)).
Proof.
  intros Hs shown. subst shown. unfold maskValue.
  destruct s as [|c s]; [done|]. cbn [truthyValue negb toJsString].
  rewrite bool_decide_eq_true_2 by done. cbn [andb].
  split.
  - intros Hlen. apply Nat.ltb_ge in Hlen. rewrite Hlen.
    rewrite bool_decide_eq_false_2; [done|]. intros Heq. discriminate Heq.
  - intros Hlen. pose proof Hlen as Hlt. apply Nat.ltb_lt in Hlt. rewrite Hlt.
    destruct (split_lastChars 4 (String c s)) as (Hsplit & Htail & Hhidden); [lia|].
    exists (dropLast 4 (String c s)), (lastChars 4 (String c s)).
    split; [exact Hsplit|]. split; [exact Htail|].
    rewrite Hhidden. split; [reflexivity|].
    intros Hb. rewrite str_app_length, length_repeatString, Htail, Hb. lia.
Qed.

(** X17.  Masking in a [critical] column shows nothing of a truthy value but
    its length: two values whose string forms are equally long are displayed
    alike, and the display is one bullet per character.  A falsy value is
    shown as a dash in every column. *)
Theorem maskValue_critical (bullet : string) (v1 v2 : JsValue) :
  truthyValue v1 = true → truthyValue v2 = true →
  String.length (toJsString v1) = String.length (toJsString v2) →
  let critical := Some (SecurityConfig.tierString SecurityConfig.CRITICAL) in
  maskValue bullet v1 critical = maskValue bullet v2 critical ∧
  maskValue bullet v1 critical = repeatString bullet (String.length (toJsString v1)) ∧
  ∀ v tier, truthyValue v = false → maskValue bullet v tier = "-".
Proof.
  intros H1 H2 Hlen critical. subst critical.
  assert (∀ v, truthyValue v = true →
               maskValue bullet v (Some (SecurityConfig.tierString SecurityConfig.CRITICAL))
               = repeatString bullet (String.length (toJsString v))) as Hmask.
  { intros v Hv. unfold maskValue. rewrite Hv. cbn [negb].
    rewrite bool_decide_eq_false_2 by (intros Heq; discriminate Heq).
    cbn [andb]. by rewrite bool_decide_eq_true_2. }
  split; [by rewrite !Hmask, Hlen|]. split; [by apply Hmask|].
  intros v tier Hv. unfold maskValue. by rewrite Hv.
Qed.

End TableCellFacts.

(** ** secure-table: paging and filtering *)

Section TablePagingFacts.

Import Js Table.

Context {platform : Platform}.

Lemma totalPages_bounds (n : nat) :
  (10 * (totalPages n - 1) < Z.of_nat n <= 10 * totalPages n)%Z.
Proof.
  unfold totalPages, pageSize.
  pose proof (Z.div_mod (Z.of_nat n + 10 - 1) 10 ltac:(lia)) as Hdiv.
  pose proof (Z.mod_pos_bound (Z.of_nat n + 10 - 1) 10 ltac:(lia)) as Hmod.
  lia.
Qed.

Lemma pageRows_take_drop {A} (rows : list A) (p : Z) :
  (1 <= p)%Z → pageRows rows p = take 10 (drop (10 * Z.to_nat (p - 1)) rows).
Proof.
  intros Hp. unfold pageRows, pageSize. rewrite jsSlice_take_drop by lia.
  replace (Z.to_nat ((p - 1) * 10)) with (10 * Z.to_nat (p - 1)) by lia.
  reflexivity.
Qed.

Lemma pageRows_beyond {A} (rows : list A) (p : Z) :
  (totalPages (length rows) < p)%Z → pageRows rows p = [].
Proof.
  intros Hp. pose proof (totalPages_bounds (length rows)) as Hb.
  rewrite pageRows_take_drop by lia. rewrite drop_ge by lia. apply take_nil.
Qed.

Lemma pageRows_within {A} (rows : list A) (p : Z) :
  (1 <= p <= totalPages (length rows))%Z →
  pageRows rows p ≠ [] ∧ length (pageRows rows p) <= 10.
Proof.
  intros Hp. pose proof (totalPages_bounds (length rows)) as Hb.
  rewrite pageRows_take_drop by lia. split.
  - intros Hnil. apply (f_equal length) in Hnil.
    rewrite length_take, length_drop in Hnil. cbn [length] in Hnil. lia.
  - rewrite length_take. lia.
Qed.

Lemma concat_pages {A} (rows : list A) (k : nat) :
  concat (map (fun i => take 10 (drop (10 * i) rows)) (seq 0 k)) = take (10 * k) rows.
Proof.
  induction k as [|k IH]; [by rewrite Nat.mul_0_r, take_0|].
  rewrite seq_S, map_app, concat_app, IH. cbn [map concat].
  rewrite app_nil_r, take_take_drop. f_equal. lia.
Qed.

(** X18.  The pages [#renderTableContent] cuts out of the filtered rows, for
    the page numbers from 1 to the number of pages [#goToPage] accepts, put
    one after the other give back the rows: no row is lost or shown twice,
    every such page has at least one and at most ten rows. *)
Theorem pages_partition {A} (rows : list A) :
  concat (map (pageRows rows) (seqZ 1 (totalPages (length rows)))) = rows ∧
  ∀ p, (1 <= p <= totalPages (length rows))%Z →
       pageRows rows p ≠ [] ∧ length (pageRows rows p) <= 10.
Proof.
  split; [|apply pageRows_within].
  pose proof (totalPages_bounds (length rows)) as Hb.
  unfold seqZ. rewrite <- list_fmap_compose.
  erewrite (list_fmap_ext _ (fun i => take 10 (drop (10 * i) rows))).
  - change (concat (map (fun i => take 10 (drop (10 * i) rows))
                      (seq 0 (Z.to_nat (totalPages (length rows))))) = rows).
    rewrite concat_pages. apply take_ge. lia.
  - intros i x _. unfold compose. rewrite pageRows_take_drop by lia.
    do 2 f_equal. lia.
Qed.

Lemma visibleRows_with_columns (t : TableState) :
  columns t ≠ [] → visibleRows t = pageData t.
Proof.
  intros Hc. unfold visibleRows.
  destruct (pageData t) as [|row rows]; [done|].
  destruct (columns t) as [|col cols]; [done|]. reflexivity.
Qed.

Lemma visibleRows_without_columns (t : TableState) :
  columns t = [] → visibleRows t = [].
Proof. intros Hc. unfold visibleRows. rewrite Hc. by rewrite orb_true_r. Qed.

Lemma visibleRows_empty_slice (t : TableState) :
  pageData t = [] → visibleRows t = [].
Proof. intros Hp. unfold visibleRows. by rewrite Hp. Qed.

(** X19.  [#goToPage] either moves to the requested page, or, for a page
    number below 1 or beyond the last page, does nothing; it never changes
    the rows or the columns.  The page it moves to has a non-empty slice of
    the rows, and the table body then shows exactly that slice, so at least
    one row, when a column is configured; without columns it shows no row,
    on any page. *)
Theorem goToPage_shows_rows (t : TableState) (p : Z) :
  let last := totalPages (length (filteredData t)) in
  filteredData (goToPage p t) = filteredData t ∧
  data (goToPage p t) = data t ∧
  columns (goToPage p t) = columns t ∧
  (((1 <= p <= last)%Z ∧ currentPage (goToPage p t) = p ∧
    pageData (goToPage p t) ≠ [] ∧
    (columns t ≠ [] →
     visibleRows (goToPage p t) = pageData (goToPage p t) ∧
     visibleRows (goToPage p t) ≠ []))
   ∨ (((p < 1)%Z ∨ (last < p)%Z) ∧ goToPage p t = t)) ∧
  (columns t = [] → visibleRows (goToPage p t) = []).
Proof.
  intros last. subst last.
  assert (columns (goToPage p t) = columns t) as Hcols.
  { unfold goToPage. by destruct (_ || _). }
  assert (pageData (goToPage p t) ≠ [] →
          columns t ≠ [] →
          visibleRows (goToPage p t) = pageData (goToPage p t) ∧
          visibleRows (goToPage p t) ≠ []) as Hshown.
  { intros Hne Hc. rewrite visibleRows_with_columns by (by rewrite Hcols). done. }
  split; [unfold goToPage; by destruct (_ || _)|].
  split; [unfold goToPage; by destruct (_ || _)|].
  split; [exact Hcols|]. split.
  - revert Hshown. unfold goToPage.
    destruct (Z.ltb_spec p 1) as [Hlow|Hlow]; cbn [orb].
    { intros _. right. split; [by left|done]. }
    destruct (Z.ltb_spec (totalPages (length (filteredData t))) p) as [Hhigh|Hhigh].
    { intros _. right. split; [by right|done]. }
    intros Hshown. left. split; [lia|]. split; [done|].
    assert (pageData
              {| data := data t; columns := columns t; filteredData := filteredData t;
                 filterTerm := filterTerm t; currentPage := p;
                 auditCalls := auditCalls t |} ≠ []) as Hne.
    { unfold pageData. cbn [filteredData currentPage]. apply pageRows_within. lia. }
    split; [exact Hne|]. by apply Hshown.
  - intros Hc. apply visibleRows_without_columns. by rewrite Hcols.
Qed.

(** X20.  Assigning [data] keeps the current page.  When the new rows fill
    fewer pages than the page the table is on, the slice of the rows for
    that page is empty, so the table body shows no row at all although there
    may be rows, and a request for the next page is refused.  The next
    filter input goes back to page 1; with an empty term and a column
    configured the table body then shows rows again, the first page of the
    data, and without columns it still shows none. *)
Theorem setData_keeps_page (t : TableState) (d : list (gmap string JsValue)) :
  (totalPages (length d) < currentPage t)%Z →
  currentPage (setData d t) = currentPage t ∧
  pageData (setData d t) = [] ∧
  visibleRows (setData d t) = [] ∧
  goToPage (currentPage t + 1) (setData d t) = setData d t ∧
  ∀ term, currentPage (applyFilter term (setData d t)) = 1%Z ∧
          (toLowerCase term = EmptyString → d ≠ [] →
           pageData (applyFilter term (setData d t)) = pageRows d 1 ∧
           pageData (applyFilter term (setData d t)) ≠ [] ∧
           (columns t ≠ [] →
            visibleRows (applyFilter term (setData d t)) = pageRows d 1) ∧
           (columns t = [] →
            visibleRows (applyFilter term (setData d t)) = [])).
Proof.
  intros Hp. split; [done|].
  assert (pageData (setData d t) = []) as Hempty by (by apply pageRows_beyond).
  split; [exact Hempty|]. split; [by apply visibleRows_empty_slice|]. split.
  - unfold goToPage. cbn [filteredData setData currentPage].
    destruct (Z.ltb_spec (totalPages (length d)) (currentPage t + 1)) as [_|?]; [|lia].
    by rewrite orb_true_r.
  - intros term. split; [done|]. intros Hterm Hd.
    assert (pageData (applyFilter term (setData d t)) = pageRows d 1) as Hpage.
    { unfold pageData, applyFilter. cbn [filteredData currentPage]. by rewrite Hterm. }
    split; [exact Hpage|]. split; [|split].
    + rewrite Hpage. apply pageRows_within.
      pose proof (totalPages_bounds (length d)) as Hb.
      destruct d; [done|]. simpl in Hb. simpl. lia.
    + intros Hc. by rewrite visibleRows_with_columns.
    + intros Hc. by apply visibleRows_without_columns.
Qed.

(** X21.  Every filter input filters the full data anew: the outcome does
    not depend on earlier filter inputs or on the page, it is a sublist of
    the data in the data's order, the data and the columns are left alone,
    and the table is back on page 1. *)
Theorem applyFilter_from_data (t : TableState) (earlier term : string) :
  filteredData (applyFilter term (applyFilter earlier t))
  = filteredData (applyFilter term t) ∧
  sublist (filteredData (applyFilter term t)) (data t) ∧
  data (applyFilter term t) = data t ∧
  columns (applyFilter term t) = columns t ∧
  currentPage (applyFilter term t) = 1%Z.
Proof.
  split; [reflexivity|]. split; [|done].
  unfold applyFilter. cbn [filteredData].
  destruct (toLowerCase term); [done|]. apply sublist_filter.
Qed.

(** X22.  The filter reads a cell as [String(row[key] || '')]: a cell
    whose value is falsy (the number [0], the empty string, [null]) reads as
    the empty text, and so does a cell the row has no property for, unless
    the column's key is a name of [Object.prototype], in which case the
    inherited member is read.  So a row whose filterable cells are all falsy
    or absent, with no such key among the absent ones, is dropped by every
    non-empty filter term, also by the term [0].  (The platform's
    [toLowerCase] is assumed to map the empty string to itself.) *)
Theorem applyFilter_skips_falsy_cells (t : TableState) (term : string)
    (row : gmap string JsValue) :
  toLowerCase EmptyString = EmptyString →
  toLowerCase term ≠ EmptyString →
  (∀ col v, col ∈ columns t → filterable col ≠ Some false →
            row !! key col = Some v → truthyValue v = false) →
  (∀ col, col ∈ columns t → filterable col ≠ Some false →
          row !! key col = None → key col ∉ objectPrototypeNames) →
  row ∉ filteredData (applyFilter term t).
Proof.
  intros Hempty Hterm Hcells Hkeys. unfold applyFilter. cbn [filteredData].
  destruct (toLowerCase term) as [|c lowered] eqn:Hlow; [done|].
  rewrite list_elem_of_filter. intros [Hmatch _].
  unfold rowMatches in Hmatch. apply existsb_exists in Hmatch.
  destruct Hmatch as (col & Hcol & Hinc). apply list_elem_of_In in Hcol.
  case_bool_decide as Hf; [discriminate|].
  assert (cellText row (key col) = EmptyString) as Hcell.
  { unfold cellText. destruct (row !! key col) as [v|] eqn:Hv.
    - by rewrite (Hcells col v Hcol Hf Hv).
    - by rewrite bool_decide_eq_false_2 by (by apply Hkeys). }
  rewrite Hcell, Hempty in Hinc. by rewrite includes_empty in Hinc.
Qed.

(** X23.  For a current page within the page range, [#renderPageNumbers]
    renders a run of consecutive page numbers: five of them, or all pages
    when there are fewer than five; the run stays within the range and
    holds the current page. *)
Theorem renderPageNumbers_window (total current : Z) :
  (1 <= current <= total)%Z →
  ∃ first,
    renderPageNumbers total current = seqZ first (Z.min 5 total) ∧
    (1 <= first <= current)%Z ∧
    (current < first + Z.min 5 total <= total + 1)%Z.
Proof.
  intros Hc. unfold renderPageNumbers. change (5 / 2)%Z with 2%Z.
  set (startPage := Z.max 1 (current - 2)).
  set (endPage := Z.min total (startPage + 5 - 1)).
  destruct (Z.ltb_spec (endPage - startPage) (5 - 1)) as [Hshort|Hfull].
  - exists (Z.max 1 (endPage - 5 + 1)). subst startPage endPage.
    split; [f_equal; lia|lia].
  - exists startPage. subst startPage endPage. split; [f_equal; lia|lia].
Qed.

End TablePagingFacts.

(** ** secure-file-upload *)

Section UploadFacts.

Import Js FileUpload SecurityConfig.

Context {platform : Platform}.

Lemma fold_errors (cfg : Settings) (files : list File) (acc : list FileError) :
  foldl (fun errors file =>
           match checkFile cfg file with
           | Some e => errors ++ [e]
           | None => errors
           end) acc files
  = acc ++ omap (checkFile cfg) files.
Proof.
  revert acc. induction files as [|f files IH]; intros acc.
  - by rewrite app_nil_r.
  - cbn [foldl omap list_omap]. rewrite IH.
    destruct (checkFile cfg f); [by rewrite <- app_assoc|done].
Qed.

Lemma validateFiles_errors (cfg : Settings) (files : list File) :
  (validateFiles cfg files).2
  = (if negb (multiple cfg) && Nat.ltb 1 (length files) then [OnlyOneFile] else [])
    ++ omap (checkFile cfg) files.
Proof. unfold validateFiles. cbn [snd]. apply fold_errors. Qed.

Lemma omap_nil_iff {A B} (f : A → option B) (l : list A) :
  omap f l = [] ↔ ∀ x, x ∈ l → f x = None.
Proof.
  induction l as [|x l IH]; [by split; [intros _ x Hx; apply elem_of_nil in Hx|]|].
  cbn [omap list_omap]. destruct (f x) as [y|] eqn:Hfx.
  - split; [done|]. intros Hall. specialize (Hall x (list_elem_of_here _ _)). congruence.
  - fold (omap f l). rewrite IH. split.
    + intros Hall z Hz. apply elem_of_cons in Hz as [->|Hz]; [done|by apply Hall].
    + intros Hall z Hz. apply Hall. by apply list_elem_of_further.
Qed.

Lemma validateFiles_valid (cfg : Settings) (files : list File) :
  (validateFiles cfg files).1 = true
  ↔ (multiple cfg = true ∨ length files <= 1) ∧ ∀ f, f ∈ files → checkFile cfg f = None.
Proof.
  unfold validateFiles. cbn [fst]. rewrite fold_errors, Nat.eqb_eq, length_zero_iff_nil.
  rewrite app_nil, omap_nil_iff.
  assert ((if negb (multiple cfg) && Nat.ltb 1 (length files)
           then [OnlyOneFile] else []) = []
          ↔ multiple cfg = true ∨ length files <= 1) as Hcount.
  { destruct (multiple cfg); cbn [negb andb]; [by split; [left|]|].
    destruct (Nat.ltb_spec 1 (length files)).
    - split; [done|]. intros [?|?]; [done|lia].
    - split; [right; lia|done]. }
  by rewrite Hcount.
Qed.

Lemma omap_length_le {A B} (f : A → option B) (l : list A) :
  length (omap f l) <= length l.
Proof.
  induction l as [|x l IH]; [done|].
  cbn [omap list_omap]. fold (omap f l). destruct (f x); simpl; lia.
Qed.

Lemma size_positive (X : gset string) : Nat.ltb 0 (size X) = false ↔ X = ∅.
Proof.
  rewrite Nat.ltb_ge. split.
  - intros Hs. apply leibniz_equiv, size_empty_iff. lia.
  - intros ->. by rewrite size_empty.
Qed.

Lemma checkFile_None (cfg : Settings) (f : File) :
  checkFile cfg f = None
  ↔ exceedsMaxSize cfg f = false ∧
    (allowedTypes cfg = ∅ ∨ isFileTypeAllowed (allowedTypes cfg) f = true) ∧
    isFileNameDangerous (fileName f) = false ∧
    (securityTier cfg = CRITICAL → validateFileContent f = None).
Proof.
  unfold checkFile.
  destruct (exceedsMaxSize cfg f); [intuition congruence|].
  destruct (Nat.ltb 0 (size (allowedTypes cfg))) eqn:Hsize.
  - assert (allowedTypes cfg ≠ ∅) as Hne.
    { intros Hempty. apply size_positive in Hempty. congruence. }
    destruct (isFileTypeAllowed (allowedTypes cfg) f); cbn [negb andb];
      [|intuition congruence].
    destruct (isFileNameDangerous (fileName f)); [intuition congruence|].
    case_bool_decide as Htier; [|intuition congruence].
    destruct (validateFileContent f); intuition congruence.
  - apply size_positive in Hsize. cbn [andb].
    destruct (isFileNameDangerous (fileName f)); [intuition congruence|].
    case_bool_decide as Htier; [|intuition congruence].
    destruct (validateFileContent f); intuition congruence.
Qed.

(** X24.  [#validateFiles] reports at most one message per file, in file
    order, after the message about the number of files; and it answers
    [valid] exactly when the number of files is admitted and every file is
    within the size limit, of an allowed type (when any type is registered),
    has a harmless name, and, on the critical tier only, passes the content
    check. *)
Theorem validateFiles_valid_iff (cfg : Settings) (files : list File) :
  (validateFiles cfg files).2
  = (if negb (multiple cfg) && Nat.ltb 1 (length files) then [OnlyOneFile] else [])
    ++ omap (checkFile cfg) files ∧
  length (validateFiles cfg files).2 <= S (length files) ∧
  ((validateFiles cfg files).1 = true
   ↔ (multiple cfg = true ∨ length files <= 1) ∧
     ∀ f, f ∈ files →
          exceedsMaxSize cfg f = false ∧
          (allowedTypes cfg = ∅ ∨ isFileTypeAllowed (allowedTypes cfg) f = true) ∧
          isFileNameDangerous (fileName f) = false ∧
          (securityTier cfg = CRITICAL → validateFileContent f = None)).
Proof.
  split; [apply validateFiles_errors|]. split.
  - rewrite validateFiles_errors, length_app.
    pose proof (omap_length_le (checkFile cfg) files) as Hlen.
    destruct (negb (multiple cfg) && Nat.ltb 1 (length files)); simpl; lia.
  - rewrite validateFiles_valid. split.
    + intros [Hcount Hall]. split; [done|]. intros f Hf. by apply checkFile_None, Hall.
    + intros [Hcount Hall]. split; [done|]. intros f Hf. by apply checkFile_None, Hall.
Qed.

(** X25.  Whatever the tier, the allowed types and the size limit, a
    selection is refused as soon as one of its files has a name holding
    [..], a slash or a backslash, or a name that in lower case is one of
    [web.config], [.htaccess], [.env], [config.php]. *)
Theorem dangerous_name_rejected (cfg : Settings) (files : list File) (f : File) :
  f ∈ files →
  (∃ pre sep post, sep ∈ [".."; "/"; "\"] ∧ fileName f = pre +:+ sep +:+ post)
  ∨ toLowerCase (fileName f) ∈ ["web.config"; ".htaccess"; ".env"; "config.php"] →
  (validateFiles cfg files).1 = false.
Proof.
  intros Hf Hname.
  destruct ((validateFiles cfg files).1) eqn:Hvalid; [|done].
  apply validateFiles_valid in Hvalid as [_ Hall].
  apply Hall, checkFile_None in Hf as (_ & _ & Hsafe & _).
  unfold isFileNameDangerous in Hsafe.
  destruct Hname as [(pre & sep & post & Hsep & Hsplit)|Hlist].
  - assert (includes (fileName f) sep = true) as Hinc.
    { apply includes_spec. eauto. }
    repeat (apply elem_of_cons in Hsep as [->|Hsep];
            [rewrite Hinc, ?orb_true_r in Hsafe; discriminate Hsafe|]).
    by apply elem_of_nil in Hsep.
  - rewrite (bool_decide_eq_true_2 _ Hlist) in Hsafe.
    by destruct (includes _ _ || includes _ _ || includes _ _).
Qed.

(** X26.  The type check admits a file exactly when its type is registered
    as it is, or some registered type ends in [/*] and the file's type
    starts with what precedes these two characters.  The slash is not part
    of what is compared: [image/*] admits every type that begins with
    [image]. *)
Theorem isFileTypeAllowed_iff (allowed : gset string) (f : File) :
  isFileTypeAllowed allowed f = true
  ↔ fileType f ∈ allowed
    ∨ ∃ family rest, (family +:+ "/*") ∈ allowed ∧ fileType f = family +:+ rest.
Proof.
  unfold isFileTypeAllowed. rewrite orb_true_iff, bool_decide_eq_true.
  apply or_iff_compat_l. rewrite existsb_exists.
  assert (∀ family, dropLast 2 (family +:+ "/*") = family) as Hdrop.
  { intros family. exact (dropLast_app family "/*"). }
  split.
  - intros (allowedType & Hin & Hmatch). apply list_elem_of_In, elem_of_elements in Hin.
    apply andb_true_iff in Hmatch as [Hends Hstarts].
    apply endsWith_spec in Hends as [family ->].
    rewrite Hdrop in Hstarts.
    apply startsWith_spec in Hstarts as [rest Hrest]. eauto.
  - intros (family & rest & Hin & Htype). exists (family +:+ "/*"). split.
    + by apply list_elem_of_In, elem_of_elements.
    + apply andb_true_iff. split; [apply endsWith_spec; eauto|].
      rewrite Hdrop. apply startsWith_spec. eauto.
Qed.

Lemma everyByte_shift (expected bytes : list Z) (k : nat) :
  forallb (fun '(i, byte) => bool_decide (bytes !! i = Some byte))
    (imap (fun i byte => (k + i, byte)) expected) = true
  ↔ expected `prefix_of` drop k bytes.
Proof.
  revert k. induction expected as [|x e IH]; intros k.
  - split; [intros _; apply prefix_nil|done].
  - rewrite imap_cons. cbn [forallb]. rewrite andb_true_iff, bool_decide_eq_true.
    rewrite (imap_ext _ (fun i byte => (S k + i, byte)))
      by (intros; unfold compose; f_equal; lia).
    rewrite IH, Nat.add_0_r. split.
    + intros [Hx Hrest]. rewrite (drop_S _ _ _ Hx). by apply prefix_cons.
    + intros Hp. destruct (bytes !! k) as [y|] eqn:Hk.
      * rewrite (drop_S _ _ _ Hk) in Hp.
        pose proof (prefix_cons_inv_1 _ _ _ _ Hp) as ->.
        split; [done|]. by apply prefix_cons_inv_2 in Hp.
      * apply lookup_ge_None in Hk. rewrite drop_ge in Hp by done.
        by apply prefix_nil_not in Hp.
Qed.

Lemma everyByteMatches_prefix (expected bytes : list Z) :
  everyByteMatches expected bytes = true ↔ expected `prefix_of` bytes.
Proof. exact (everyByte_shift expected bytes 0). Qed.

Lemma prefix_of_take {A} (e l : list A) (n : nat) :
  length e <= n → e `prefix_of` take n l ↔ e `prefix_of` l.
Proof.
  intros Hn. split.
  - intros Hp. etrans; [exact Hp|apply prefix_take].
  - intros [k ->]. rewrite take_app, (take_ge e) by done. by eexists.
Qed.

Lemma magicNumbers_short (t : string) (expected : list Z) :
  magicNumbers !! t = Some expected →
  length expected <= 4 ∧
  (t, expected) ∈ [ ("application/pdf", [37; 80; 68; 70]%Z);
                    ("image/jpeg", [255; 216; 255]%Z);
                    ("image/png", [137; 80; 78; 71]%Z) ].
Proof.
  intros Hlook. apply elem_of_list_to_map_2 in Hlook. split; [|exact Hlook].
  repeat (apply elem_of_cons in Hlook as [Heq|Hlook];
          [injection Heq as -> ->; simpl; lia|]).
  by apply elem_of_nil in Hlook.
Qed.

(** X27.  The content check accepts a file exactly when its content can be
    read and, if its declared type is one of the three with a signature
    (PDF, JPEG, PNG), the content begins with that signature.  A file of any
    other declared type passes whatever it holds (a name of
    [Object.prototype] for a type apart, which is refused). *)
Theorem validateFileContent_iff (f : File) :
  validateFileContent f = None
  ↔ ∃ content, fileBytes f = Some content ∧
      match magicNumbers !! fileType f with
      | Some signature => signature `prefix_of` content
      | None => fileType f ∉ objectPrototypeNames
      end.
Proof.
  unfold validateFileContent. destruct (fileBytes f) as [content|].
  2: { split; [done|]. intros (content & Hc & _). discriminate Hc. }
  destruct (magicNumbers !! fileType f) as [signature|] eqn:Hsig.
  - destruct (magicNumbers_short _ _ Hsig) as [Hlen _].
    destruct (everyByteMatches signature (take 4 content)) eqn:Hm.
    + apply everyByteMatches_prefix, prefix_of_take in Hm; [|done].
      split; [intros _; by exists content|done].
    + split; [done|]. intros (content' & [= <-] & Hp).
      apply (prefix_of_take _ _ 4 Hlen), everyByteMatches_prefix in Hp. congruence.
  - case_bool_decide as Hproto.
    + split; [done|]. intros (content' & _ & Hnot). done.
    + split; [intros _; by exists content|done].
Qed.

Lemma parse_fold (pieces : list string) (acc : gset string) (m : string) :
  m ∈ foldl (fun allowed type =>
               if startsWith type "." then
                 match extensionToMimeType type with
                 | Some mimeType => allowed ∪ {[mimeType]}
                 | None => allowed
                 end
               else allowed ∪ {[type]}) acc pieces
  ↔ m ∈ acc
    ∨ ∃ piece, piece ∈ pieces ∧
        ((startsWith piece "." = true ∧ mimeTypes !! toLowerCase piece = Some m)
         ∨ (startsWith piece "." = false ∧ m = piece)).
Proof.
  revert acc. induction pieces as [|p pieces IH]; intros acc.
  - cbn [foldl]. split; [by left|]. intros [?|(piece & Hin & _)]; [done|].
    by apply elem_of_nil in Hin.
  - cbn [foldl]. rewrite IH. unfold extensionToMimeType.
    assert ((∃ piece, piece ∈ p :: pieces ∧
               ((startsWith piece "." = true ∧ mimeTypes !! toLowerCase piece = Some m)
                ∨ (startsWith piece "." = false ∧ m = piece)))
            ↔ ((startsWith p "." = true ∧ mimeTypes !! toLowerCase p = Some m)
               ∨ (startsWith p "." = false ∧ m = p))
              ∨ ∃ piece, piece ∈ pieces ∧
                  ((startsWith piece "." = true ∧ mimeTypes !! toLowerCase piece = Some m)
                   ∨ (startsWith piece "." = false ∧ m = piece))) as Hex.
    { split.
      - intros (piece & Hin & Hc).
        apply elem_of_cons in Hin as [->|Hin]; [by left|right; eauto].
      - intros [Hc|(piece & Hin & Hc)].
        + exists p. split; [apply list_elem_of_here|done].
        + exists piece. split; [by apply list_elem_of_further|done]. }
    rewrite Hex. clear Hex.
    destruct (startsWith p ".") eqn:Hdot.
    + destruct (mimeTypes !! toLowerCase p) as [mime|] eqn:Hmime.
      * rewrite elem_of_union, elem_of_singleton. intuition congruence.
      * intuition congruence.
    + rewrite elem_of_union, elem_of_singleton. intuition congruence.
Qed.

Lemma parseAcceptTypes_spec (accept m : string) :
  m ∈ parseAcceptTypes accept
  ↔ ∃ piece, piece ∈ map trim (Select.splitOn ","%char accept) ∧
      ((startsWith piece "." = true ∧ mimeTypes !! toLowerCase piece = Some m)
       ∨ (startsWith piece "." = false ∧ m = piece)).
Proof.
  unfold parseAcceptTypes. rewrite parse_fold. split; [|by right].
  intros [Hempty|?]; [|done]. by apply elem_of_empty in Hempty.
Qed.

Lemma checkFile_no_types (cfg : Settings) (f : File) (name : string) :
  allowedTypes cfg = ∅ → checkFile cfg f ≠ Some (TypeNotAllowed name).
Proof.
  intros Hempty. unfold checkFile. rewrite Hempty, size_empty. cbn [Nat.ltb Nat.leb andb].
  destruct (exceedsMaxSize cfg f); [done|].
  destruct (isFileNameDangerous (fileName f)); [done|].
  case_bool_decide; [|done]. by destruct (validateFileContent f).
Qed.

(** X28.  An accept list that names only extensions missing from the table
    of [#extensionToMimeType] registers no type at all, and with no type
    registered the type check is skipped: no file is refused for its
    type. *)
Theorem unknown_extensions_allow_all (accept : string) :
  (∀ piece, piece ∈ map trim (Select.splitOn ","%char accept) →
            startsWith piece "." = true ∧ mimeTypes !! toLowerCase piece = None) →
  parseAcceptTypes accept = ∅ ∧
  ∀ cfg f name, allowedTypes cfg = parseAcceptTypes accept →
                checkFile cfg f ≠ Some (TypeNotAllowed name).
Proof.
  intros Hunknown.
  assert (parseAcceptTypes accept = ∅) as Hempty.
  { apply leibniz_equiv, elem_of_equiv_empty. intros m Hm.
    apply parseAcceptTypes_spec in Hm as (piece & Hin & Hcase).
    destruct (Hunknown piece Hin) as [Hdot Hnone].
    destruct Hcase as [[_ Hsome]|[Hnodot _]]; congruence. }
  split; [exact Hempty|].
  intros cfg f name Hcfg. apply checkFile_no_types. by rewrite Hcfg.
Qed.

(** X29.  An empty piece in the accept list (a trailing comma, two commas
    in a row, an accept attribute set to the empty string after rendering)
    registers the empty string as a type, so files whose type the platform
    could not determine pass the type check. *)
Theorem empty_piece_allows_untyped (accept : string) (f : File) :
  EmptyString ∈ map trim (Select.splitOn ","%char accept) →
  fileType f = EmptyString →
  EmptyString ∈ parseAcceptTypes accept ∧
  isFileTypeAllowed (parseAcceptTypes accept) f = true.
Proof.
  intros Hpiece Htype.
  assert (EmptyString ∈ parseAcceptTypes accept) as Hin.
  { apply parseAcceptTypes_spec. exists EmptyString. split; [done|]. by right. }
  split; [exact Hin|].
  unfold isFileTypeAllowed. rewrite Htype. by rewrite (bool_decide_eq_true_2 _ Hin).
Qed.

(** X30.  [handleAttributeChange] on a rendered instance: removing the
    [accept] attribute throws, and leaves the set of allowed types empty, so
    that from then on no file is refused for its type; a change of
    [max-size], [multiple] or any other attribute changes nothing of what the
    validation reads. *)
Theorem accept_removed_allows_all (cfg : Settings) :
  rendered cfg = true →
  handleAttributeChange "accept" None cfg = Thrown (setAllowedTypes ∅ cfg) ∧
  (∀ f name, checkFile (stateOf (handleAttributeChange "accept" None cfg)) f
             ≠ Some (TypeNotAllowed name)) ∧
  ∀ attribute newValue, attribute ≠ "accept" →
    handleAttributeChange attribute newValue cfg = Returned cfg.
Proof.
  intros Hr. unfold handleAttributeChange. rewrite Hr. cbn [negb].
  split; [done|]. split.
  - intros f name. rewrite bool_decide_eq_true_2 by done. cbn [stateOf].
    by apply checkFile_no_types.
  - intros attribute newValue Hne. by rewrite bool_decide_eq_false_2.
Qed.

End UploadFacts.

(** ** secure-table and secure-file-upload: the properties above on the
    sample instances *)

Lemma sanitize_twice_differs_witness :
  Table.sanitize (JsString (Table.sanitize (JsString "a<b")))
  ≠ Table.sanitize (JsString "a<b").
Proof.
  assert (existsb Sanitizer.isSpecial (Sanitizer.chars "a<b") = true) as Hs
    by (vm_compute; reflexivity).
  exact (proj2 (proj2 (sanitize_twice_differs "a<b" Hs))).
Defined.

Lemma maskValue_sensitive_witness :
  ∃ hidden tail,
    "4111111111111111" = hidden +:+ tail ∧ String.length tail = 4 ∧
    Table.maskValue "*" (JsString "4111111111111111")
      (Some (SecurityConfig.tierString SecurityConfig.SENSITIVE))
    = Js.repeatString "*" (String.length hidden) +:+ tail.
Proof.
  assert ("4111111111111111" ≠ EmptyString) as Hne by discriminate.
  assert (4 < String.length "4111111111111111") as Hlen by (vm_compute; lia).
  pose proof (maskValue_sensitive "*" "4111111111111111" Hne) as Hx.
  cbv zeta in Hx.
  destruct (proj2 Hx Hlen) as (hidden & tail & H1 & H2 & H3 & _).
  exists hidden, tail. split; [exact H1|]. split; [exact H2|exact H3].
Defined.

Lemma maskValue_critical_witness :
  Table.maskValue "*" (JsString "abc")
    (Some (SecurityConfig.tierString SecurityConfig.CRITICAL))
  = Table.maskValue "*" (JsNumber 123)
      (Some (SecurityConfig.tierString SecurityConfig.CRITICAL)).
Proof.
  assert (Js.truthyValue (JsString "abc") = true) as H1 by (vm_compute; reflexivity).
  assert (Js.truthyValue (JsNumber 123) = true) as H2 by (vm_compute; reflexivity).
  assert (String.length (Js.toJsString (JsString "abc"))
          = String.length (Js.toJsString (JsNumber 123))) as Hlen
    by (vm_compute; reflexivity).
  pose proof (maskValue_critical "*" _ _ H1 H2 Hlen) as Hx.
  cbv zeta in Hx.
  exact (proj1 Hx).
Defined.

Lemma setData_keeps_page_witness :
  Table.visibleRows (Table.setData [Examples.visitRow "guest" 1] Examples.visitTable) = [].
Proof.
  assert (Table.totalPages (length [Examples.visitRow "guest" 1])
          < Table.currentPage Examples.visitTable)%Z as Hp
    by (vm_compute; reflexivity).
  exact (proj1 (proj2 (proj2 (@setData_keeps_page Js.asciiPlatform _ _ Hp)))).
Defined.

Lemma applyFilter_skips_falsy_cells_witness :
  Examples.idleRow
  ∉ Table.filteredData (@Table.applyFilter Js.asciiPlatform "0" Examples.idleTable).
Proof.
  assert (@Js.toLowerCase Js.asciiPlatform EmptyString = EmptyString) as Hempty
    by (vm_compute; reflexivity).
  assert (@Js.toLowerCase Js.asciiPlatform "0" ≠ EmptyString) as Hterm
    by (vm_compute; discriminate).
  assert (Table.columns Examples.idleTable = Examples.visitColumns) as Hcols
    by (vm_compute; reflexivity).
  assert (Examples.idleRow !! "name" = Some (JsString EmptyString)) as Hname
    by (vm_compute; reflexivity).
  assert (Examples.idleRow !! "visits" = Some (JsNumber 0)) as Hvisits
    by (vm_compute; reflexivity).
  apply (@applyFilter_skips_falsy_cells Js.asciiPlatform _ _ _ Hempty Hterm).
  - intros col v Hcol Hfilterable Hcell. rewrite Hcols in Hcol.
    apply elem_of_cons in Hcol as [->|Hcol].
    { cbn [Table.key] in Hcell. rewrite Hname in Hcell. by injection Hcell as <-. }
    apply elem_of_cons in Hcol as [->|Hcol].
    { cbn [Table.key] in Hcell. rewrite Hvisits in Hcell. by injection Hcell as <-. }
    apply list_elem_of_singleton in Hcol as ->.
    by destruct Hfilterable.
  - intros col Hcol Hfilterable Hcell. rewrite Hcols in Hcol.
    apply elem_of_cons in Hcol as [->|Hcol].
    { cbn [Table.key] in Hcell. rewrite Hname in Hcell. discriminate Hcell. }
    apply elem_of_cons in Hcol as [->|Hcol].
    { cbn [Table.key] in Hcell. rewrite Hvisits in Hcell. discriminate Hcell. }
    apply list_elem_of_singleton in Hcol as ->.
    by destruct Hfilterable.
Defined.

Lemma renderPageNumbers_window_witness :
  ∃ first,
    Table.renderPageNumbers 20 7 = seqZ first (Z.min 5 20) ∧
    (1 <= first <= 7)%Z ∧ (7 < first + Z.min 5 20 <= 20 + 1)%Z.
Proof. apply (renderPageNumbers_window 20 7). lia. Defined.

Lemma dangerous_name_rejected_witness :
  (@FileUpload.validateFiles Js.asciiPlatform Examples.criticalUpload
     [Examples.traversalFile]).1 = false.
Proof.
  apply (@dangerous_name_rejected Js.asciiPlatform _ _ Examples.traversalFile).
  - apply list_elem_of_here.
  - left. exists EmptyString, "..", "/report.pdf". split; [apply list_elem_of_here|].
    reflexivity.
Defined.

Lemma unknown_extensions_allow_all_witness :
  @FileUpload.parseAcceptTypes Js.asciiPlatform ".webp, .HEIC" = ∅.
Proof.
  assert (map (@Js.trim Js.asciiPlatform) (Select.splitOn ","%char ".webp, .HEIC")
          = [".webp"; ".HEIC"]) as Hpieces
    by (vm_compute; reflexivity).
  apply (@unknown_extensions_allow_all Js.asciiPlatform).
  intros piece Hin. rewrite Hpieces in Hin.
  apply elem_of_cons in Hin as [->|Hin]; [split; vm_compute; reflexivity|].
  apply list_elem_of_singleton in Hin as ->. split; vm_compute; reflexivity.
Defined.

Lemma empty_piece_allows_untyped_witness :
  FileUpload.isFileTypeAllowed
    (@FileUpload.parseAcceptTypes Js.asciiPlatform "image/png,") Examples.untypedFile
  = true.
Proof.
  assert (bool_decide
            (EmptyString
             ∈ map (@Js.trim Js.asciiPlatform) (Select.splitOn ","%char "image/png,"))
          = true) as Hpiece
    by (vm_compute; reflexivity).
  apply bool_decide_eq_true in Hpiece.
  exact (proj2 (@empty_piece_allows_untyped Js.asciiPlatform _ Examples.untypedFile
                  Hpiece eq_refl)).
Defined.

Lemma accept_removed_allows_all_witness :
  @FileUpload.handleAttributeChange Js.asciiPlatform "accept" None Examples.criticalUpload
  = Thrown (FileUpload.setAllowedTypes ∅ Examples.criticalUpload).
Proof.
  assert (FileUpload.rendered Examples.criticalUpload = true) as Hr
    by (vm_compute; reflexivity).
  exact (proj1 (@accept_removed_allows_all Js.asciiPlatform _ Hr)).
Defined.
